(** * mythril/analysis/solver.py: solving path constraints and extracting
      a concrete transaction sequence

    A shallow embedding of [get_model], [_set_minimisation_constraints],
    [_get_concrete_transaction], [_get_concrete_state],
    [_replace_with_actual_sha] and [get_transaction_sequence], with the
    properties of the solve cache, of the minimisation constraints, of the
    concrete state extractor and of the hash preimage resolver.

    Python [str] is a [list ascii]; Python [int] is [Z]; a [dict] is an
    association list in insertion order; mutable [Constraints] objects and
    lists live in an explicit store; [raise] is the [Raise] result. *)

From Stdlib Require Import ZArith List Ascii String HexString Lia.
From stdpp Require Import base option list strings.
Import ListNotations.

Open Scope Z_scope.

(* ===================================================================== *)
(** ** Python strings *)
(* ===================================================================== *)

Abbreviation str := (list ascii).

(** A string literal. *)
Definition lit (s : string) : str := list_ascii_of_string s.

(** [sub in s] *)
Fixpoint startswith (p s : str) : bool :=
  match p, s with
  | [], _ => true
  | _ :: _, [] => false
  | a :: p', b :: s' => if decide (a = b) then startswith p' s' else false
  end.

Fixpoint contains (sub s : str) : bool :=
  match s with
  | [] => startswith sub []
  | _ :: s' => startswith sub s || contains sub s'
  end.

(** [s[i:j]] for [0 <= i <= j] *)
Definition slice (i j : nat) (s : str) : str := take (j - i) (drop i s).

(** [s.replace(old, new)]: every occurrence of [old], left to right, without
    overlaps. [skip] counts the characters of a match still to be dropped. *)
Fixpoint replace_from (old new : str) (skip : nat) (s : str) : str :=
  match s with
  | [] => []
  | c :: s' =>
      match skip with
      | S k => replace_from old new k s'
      | O =>
          if startswith old s
          then new ++ replace_from old new (length old - 1) s'
          else c :: replace_from old new 0 s'
      end
  end.

Definition str_replace (old new s : str) : str :=
  match old with
  | [] => new ++ flat_map (fun c => c :: new) s
  | _ :: _ => replace_from old new 0 s
  end.

(** [hex(z)] *)
Definition hex (z : Z) : str := lit (HexString.of_Z z).

(** ["%x" % z] *)
Definition fmt_x (z : Z) : str :=
  if z <? 0 then "-"%char :: drop 3 (hex z) else drop 2 (hex z).

(** [s.zfill(width)]: zeros on the left, after a leading sign *)
Definition zfill (width : nat) (s : str) : str :=
  let pad := repeat "0"%char (width - length s) in
  match s with
  | c :: s' =>
      if decide (c = "+"%char) then c :: pad ++ s'
      else if decide (c = "-"%char) then c :: pad ++ s'
      else pad ++ s
  | [] => pad
  end.

Definition is_hex_digit (c : ascii) : bool :=
  match HexString.ascii_to_digit c with Some _ => true | None => false end.

(** [int(s, 16)]: white space around, a sign, the prefix 0x or 0X with one
    underscore after it, then hexadecimal digits with single underscores
    between them; [None] stands for the [ValueError] of any other string. *)
Definition is_space (c : ascii) : bool :=
  let n := nat_of_ascii c in
  ((9 <=? n) && (n <=? 13) || (n =? 32) || (n =? 133) || (n =? 160))%nat.

Fixpoint lstrip (s : str) : str :=
  match s with
  | c :: s' => if is_space c then lstrip s' else s
  | [] => []
  end.

Definition strip (s : str) : str := reverse (lstrip (reverse (lstrip s))).

Fixpoint digits16 (acc : Z) (after_digit : bool) (s : str) : option Z :=
  match s with
  | [] => if after_digit then Some acc else None
  | c :: s' =>
      if decide (c = "_"%char) then
        if after_digit then digits16 acc false s' else None
      else
        match HexString.ascii_to_digit c with
        | Some d => digits16 (16 * acc + Z.of_N d) true s'
        | None => None
        end
  end.

Definition int16 (s : str) : option Z :=
  let s := strip s in
  let '(negative, s) :=
    match s with
    | c :: s' =>
        if decide (c = "-"%char) then (true, s')
        else if decide (c = "+"%char) then (false, s')
        else (false, s)
    | [] => (false, s)
    end in
  let s :=
    match s with
    | c0 :: c1 :: s' =>
        if bool_decide (c0 = "0"%char) && bool_decide (c1 = "x"%char ∨ c1 = "X"%char)
        then match s' with
             | c2 :: s'' => if decide (c2 = "_"%char) then s'' else s'
             | [] => s'
             end
        else s
    | _ => s
    end in
  match digits16 0 false s with
  | Some n => Some (if negative then - n else n)
  | None => None
  end.

(** [range(start, stop, step)] for a positive step *)
Definition range_step (start stop step : nat) : list nat :=
  map (fun j => (start + j * step)%nat) (seq 0 ((stop - start + (step - 1)) / step)).

(* ===================================================================== *)
(** ** Symbolic expressions: the fragment of mythril.laser.smt used here *)
(* ===================================================================== *)

Module smt.

Inductive BitVec : Type :=
| BVVal (value : Z) (size : N)
| BVSym (name : string) (size : N)
| Select (array : string) (index : BitVec).

Inductive Bool : Type :=
| BoolSym (name : string)
| UGE (a b : BitVec)
| UGT (a b : BitVec)
| Eq (a b : BitVec)
| Not (c : Bool)
| And (c d : Bool).

(** [symbol_factory.BitVecVal(value, size)]: the numeral is kept modulo
    [2^size]. *)
Definition BitVecVal (value : Z) (size : N) : BitVec :=
  BVVal (value mod 2 ^ Z.of_N size) size.

Definition size_of (e : BitVec) : N :=
  match e with
  | BVVal _ n => n
  | BVSym _ n => n
  | Select _ _ => 256%N
  end.

End smt.
Import smt.

#[global] Instance BitVec_eq_dec : EqDecision BitVec.
Proof. solve_decision. Defined.

#[global] Instance Bool_eq_dec : EqDecision Bool.
Proof. solve_decision. Defined.

(** An entry of a constraint collection: a Python [bool] or a symbolic
    boolean; [get_model] tells them apart with [type(constraint) == bool]. *)
Inductive constraint : Type :=
| PyBool (b : bool)
| SmtBool (e : Bool).

#[global] Instance constraint_eq_dec : EqDecision constraint.
Proof. solve_decision. Defined.

(** A z3 model: an interpretation of the free symbols, of the arrays and of
    the inverse hash functions. [inverse_value size digest] is
    [model.eval(inverse(digest)).as_long()] without model completion, [None]
    when the result is not a numeral ([as_long] is then missing:
    [AttributeError]). *)
Record Model : Type := {
  sym_value : string → Z;
  bool_value : string → bool;
  array_value : string → Z → Z;
  inverse_value : N → Z → option Z
}.

(** [model.eval(e, model_completion=True).as_long()] *)
Fixpoint eval (m : Model) (e : BitVec) : Z :=
  match e with
  | BVVal v n => v mod 2 ^ Z.of_N n
  | BVSym x n => sym_value m x mod 2 ^ Z.of_N n
  | Select a i => array_value m a (eval m i) mod 2 ^ 256
  end.

Fixpoint holds (m : Model) (c : Bool) : bool :=
  match c with
  | BoolSym x => bool_value m x
  | UGE a b => eval m b <=? eval m a
  | UGT a b => eval m b <? eval m a
  | Eq a b => eval m a =? eval m b
  | Not c' => negb (holds m c')
  | And c' d => holds m c' && holds m d
  end.

Definition satisfies (m : Model) (c : constraint) : bool :=
  match c with
  | PyBool b => b
  | SmtBool e => holds m e
  end.

(* ===================================================================== *)
(** ** The program state, exceptions and the monad of the module *)
(* ===================================================================== *)

Inductive exn : Type := UnsatError | IndexError | ValueError | TypeError.

Inductive result (A : Type) : Type :=
| Ok (a : A)
| Raise (e : exn).
Arguments Ok {A} a.
Arguments Raise {A} e.

(** The optimizing solver session built by [get_model]. *)
Record Optimize : Type := {
  timeout : option Z;
  assertions : list constraint;
  minimized : list BitVec;
  maximized : list BitVec
}.

Inductive CheckSatResult : Type := sat | unsat | unknown.

(** A Python value passed to [get_model]. *)
Inductive pyval : Type :=
| VConstraints (cs : list constraint)
| VTuple (es : list BitVec)
| VBool (b : bool).

#[global] Instance pyval_eq_dec : EqDecision pyval.
Proof. solve_decision. Defined.

(** A call of [get_model] with positional and keyword arguments;
    [lru_cache] keys its table with the positional arguments followed by the
    keyword items in call order. *)
Record call : Type := {
  args : list pyval;
  kwds : list (string * pyval)
}.

#[global] Instance call_eq_dec : EqDecision call.
Proof. solve_decision. Defined.

Record State : Type := {
  solver_timeout : Z;                         (* analysis_args.solver_timeout *)
  time_remaining : Z;                         (* time_handler.time_remaining() *)
  constraints_store : list (list constraint); (* the Constraints objects *)
  lists_store : list (list BitVec);           (* the plain list objects *)
  lru : list (call * Model);                  (* most recently used first *)
  solver_calls : list Optimize                (* every session given to check() *)
}.

Definition set_lru (c : list (call * Model)) (st : State) : State :=
  {| solver_timeout := solver_timeout st; time_remaining := time_remaining st;
     constraints_store := constraints_store st; lists_store := lists_store st;
     lru := c; solver_calls := solver_calls st |}.

Definition set_solver_calls (l : list Optimize) (st : State) : State :=
  {| solver_timeout := solver_timeout st; time_remaining := time_remaining st;
     constraints_store := constraints_store st; lists_store := lists_store st;
     lru := lru st; solver_calls := l |}.

Definition set_constraints_store (h : list (list constraint)) (st : State) : State :=
  {| solver_timeout := solver_timeout st; time_remaining := time_remaining st;
     constraints_store := h; lists_store := lists_store st;
     lru := lru st; solver_calls := solver_calls st |}.

Definition set_lists_store (h : list (list BitVec)) (st : State) : State :=
  {| solver_timeout := solver_timeout st; time_remaining := time_remaining st;
     constraints_store := constraints_store st; lists_store := h;
     lru := lru st; solver_calls := solver_calls st |}.

Definition set_time_remaining (t : Z) (st : State) : State :=
  {| solver_timeout := solver_timeout st; time_remaining := t;
     constraints_store := constraints_store st; lists_store := lists_store st;
     lru := lru st; solver_calls := solver_calls st |}.

Definition M (A : Type) : Type := State → result A * State.

#[global] Instance M_ret : MRet M := λ A a st, (Ok a, st).

#[global] Instance M_bind : MBind M := λ A B f c st,
  match c st with
  | (Ok a, st') => f a st'
  | (Raise e, st') => (Raise e, st')
  end.

Definition raise {A : Type} (e : exn) : M A := λ st, (Raise e, st).
Definition gets {A : Type} (f : State → A) : M A := λ st, (Ok (f st), st).
Definition modify (f : State → State) : M unit := λ st, (Ok tt, f st).

(* ===================================================================== *)
(** ** get_model: the solver behind an LRU cache *)
(* ===================================================================== *)

(** [Optimize()] and its methods. *)
Definition Optimize_new : Optimize :=
  {| timeout := None; assertions := []; minimized := []; maximized := [] |}.

Definition set_timeout (t : Z) (s : Optimize) : Optimize :=
  {| timeout := Some t; assertions := assertions s;
     minimized := minimized s; maximized := maximized s |}.

Definition add (s : Optimize) (c : constraint) : Optimize :=
  {| timeout := timeout s; assertions := assertions s ++ [c];
     minimized := minimized s; maximized := maximized s |}.

Definition minimize_ (s : Optimize) (e : BitVec) : Optimize :=
  {| timeout := timeout s; assertions := assertions s;
     minimized := minimized s ++ [e]; maximized := maximized s |}.

Definition maximize_ (s : Optimize) (e : BitVec) : Optimize :=
  {| timeout := timeout s; assertions := assertions s;
     minimized := minimized s; maximized := maximized s ++ [e] |}.

(** [type(constraint) == bool] *)
Definition is_bool (c : constraint) : bool :=
  match c with PyBool _ => true | SmtBool _ => false end.

(** [for constraint in constraints: if type(constraint) == bool and not
    constraint: raise UnsatError] *)
Fixpoint reject_false (constraints : list constraint) : M unit :=
  match constraints with
  | [] => mret tt
  | PyBool false :: _ => raise UnsatError
  | _ :: rest => reject_false rest
  end.

(** The binding of a call's arguments to the four parameters, with the
    defaults [minimize=()], [maximize=()], [enforce_execution_time=True];
    [None] is the [TypeError] of a call that does not fit the signature. A
    call that passes a value of another kind than the parameter's (a tuple
    for [constraints], a flag for [minimize]) is outside the embedding and
    is refused the same way. *)
Definition param_names : list string :=
  ["constraints"; "minimize"; "maximize"; "enforce_execution_time"]%string.

Fixpoint assoc {A : Type} (k : string) (l : list (string * A)) : option A :=
  match l with
  | [] => None
  | (k', v) :: l' => if decide (k = k') then Some v else assoc k l'
  end.

Fixpoint bind_kwds (bound : list (string * pyval)) (kw : list (string * pyval))
  : option (list (string * pyval)) :=
  match kw with
  | [] => Some bound
  | (k, v) :: kw' =>
      if decide (In k param_names) then
        match assoc k bound with
        | Some _ => None
        | None => bind_kwds (bound ++ [(k, v)]) kw'
        end
      else None
  end.

Definition as_tuple (d : option pyval) : option (list BitVec) :=
  match d with
  | None => Some []
  | Some (VTuple es) => Some es
  | Some _ => None
  end.

Definition bind_args (c : call)
  : option (list constraint * list BitVec * list BitVec * bool) :=
  if decide (length (args c) ≤ length param_names)%nat then
    match bind_kwds (zip param_names (args c)) (kwds c) with
    | None => None
    | Some bound =>
        match assoc "constraints"%string bound,
              as_tuple (assoc "minimize"%string bound),
              as_tuple (assoc "maximize"%string bound),
              assoc "enforce_execution_time"%string bound with
        | Some (VConstraints cs), Some mi, Some ma, None => Some (cs, mi, ma, true)
        | Some (VConstraints cs), Some mi, Some ma, Some (VBool b) => Some (cs, mi, ma, b)
        | _, _, _, _ => None
        end
    end
  else None.

(** The table of [lru_cache(maxsize=2 ** 23)]. *)
Definition maxsize : Z := 2 ^ 23.

Fixpoint cache_get (k : call) (c : list (call * Model)) : option Model :=
  match c with
  | [] => None
  | (k', m) :: c' => if decide (k = k') then Some m else cache_get k c'
  end.

Fixpoint cache_del (k : call) (c : list (call * Model)) : list (call * Model) :=
  match c with
  | [] => []
  | (k', m) :: c' => if decide (k = k') then c' else (k', m) :: cache_del k c'
  end.

(** A hit moves the entry to the front. *)
Definition cache_touch (k : call) (m : Model) (c : list (call * Model)) :=
  (k, m) :: cache_del k c.

(** A new entry goes to the front; a full table first drops its least
    recently used entry, the last one. *)
Definition cache_put (k : call) (m : Model) (c : list (call * Model)) :=
  if Z.of_nat (length c) <? maxsize then (k, m) :: c
  else (k, m) :: removelast c.

Section solver.

(** The external solver: what [s.check()] answers and the model [s.model()]
    gives for a session. *)
Variable z3_check : Optimize → CheckSatResult.
Variable z3_model : Optimize → Model.

(** [s.check()], recording the session. *)
Definition check (s : Optimize) : M CheckSatResult :=
  λ st, (Ok (z3_check s), set_solver_calls (solver_calls st ++ [s]) st).

(** The decorated function itself. *)
Definition get_model_body (constraints : list constraint)
    (minimize maximize : list BitVec) (enforce_execution_time : bool) : M Model :=
  let s := Optimize_new in
  timeout ← gets solver_timeout;
  timeout ← (if enforce_execution_time then
               remaining ← gets time_remaining;
               let timeout := Z.min timeout (remaining - 500) in
               if timeout <=? 0 then raise UnsatError else mret timeout
             else mret timeout);
  let s := set_timeout timeout s in
  _ ← reject_false constraints;
  let constraints := filter (λ c, is_bool c = false) constraints in
  let s := fold_left add constraints s in
  let s := fold_left minimize_ minimize s in
  let s := fold_left maximize_ maximize s in
  result ← check s;
  match result with
  | sat => mret (z3_model s)
  | unknown => raise UnsatError
  | unsat => raise UnsatError
  end.

(** [get_model] as the module exports it: [lru_cache] looks the call up,
    answers a hit from the table, and on a miss runs the function and stores
    its result; an exception passes through and stores nothing. *)
Definition get_model (c : call) : M Model :=
  table ← gets lru;
  match cache_get c table with
  | Some m =>
      _ ← modify (set_lru (cache_touch c m table));
      mret m
  | None =>
      match bind_args c with
      | None => raise TypeError
      | Some (constraints, minimize, maximize, enforce_execution_time) =>
          m ← get_model_body constraints minimize maximize enforce_execution_time;
          table ← gets lru;
          _ ← modify (set_lru (cache_put c m table));
          mret m
      end
  end.

End solver.

(* ===================================================================== *)
(** ** World state, accounts and symbolic transactions *)
(* ===================================================================== *)

(** A [dict]: keys are unique, iteration follows insertion order. *)
Fixpoint dict_set {K V : Type} `{EqDecision K} (k : K) (v : V) (d : list (K * V))
  : list (K * V) :=
  match d with
  | [] => [(k, v)]
  | (k', v') :: d' =>
      if decide (k = k') then (k, v) :: d' else (k', v') :: dict_set k v d'
  end.

Fixpoint dict_get {K V : Type} `{EqDecision K} (k : K) (d : list (K * V)) : option V :=
  match d with
  | [] => None
  | (k', v) :: d' => if decide (k = k') then Some v else dict_get k d'
  end.

Definition keys {K V : Type} (d : list (K * V)) : list K := map fst d.
Definition values {K V : Type} (d : list (K * V)) : list V := map snd d.

Record Disassembly : Type := { bytecode : str }.

Record Account : Type := {
  address : BitVec;
  nonce : Z;
  code : Disassembly;
  storage : str                       (* str(account.storage) *)
}.

Record WorldState : Type := {
  accounts : list (Z * Account);      (* dict: address -> Account *)
  starting_balances : string          (* the array of starting balances *)
}.

(** [world_state.starting_balances[index]] *)
Definition starting_balance (ws : WorldState) (index : BitVec) : BitVec :=
  Select (starting_balances ws) index.

(** The call data of a transaction: its symbolic size and its bytes under a
    model ([call_data.concrete(model)]). *)
Record Calldata : Type := {
  calldatasize : BitVec;
  concrete : Model → list Z
}.

Inductive TransactionKind : Type :=
| MessageCallTransaction
| ContractCreationTransaction (code : Disassembly).

Record BaseTransaction : Type := {
  kind : TransactionKind;
  world_state : WorldState;
  callee_account : Account;
  caller : BitVec;
  call_data : Calldata;
  call_value : BitVec
}.

(** [global_state.world_state] with its [transaction_sequence]. *)
Record GlobalState : Type := {
  gs_world_state : WorldState;
  transaction_sequence : list BaseTransaction
}.

(** [e.value]: the numeral of a concrete bit-vector, [None] otherwise. *)
Definition bv_value (e : BitVec) : option Z :=
  match e with
  | BVVal v _ => Some v
  | _ => None
  end.

(* ===================================================================== *)
(** ** _set_minimisation_constraints *)
(* ===================================================================== *)

(** [constraints.append(c)] on the object at reference [r]. *)
Definition append_constraint (r : nat) (c : constraint) : M unit :=
  modify (λ st, set_constraints_store (alter (λ l, l ++ [c]) r (constraints_store st)) st).

(** [minimize.append(e)] on the list at reference [r]. *)
Definition append_minimize (r : nat) (e : BitVec) : M unit :=
  modify (λ st, set_lists_store (alter (λ l, l ++ [e]) r (lists_store st)) st).

Definition read_constraints (r : nat) : M (list constraint) :=
  gets (λ st, default [] (constraints_store st !! r)).

Definition read_list (r : nat) : M (list BitVec) :=
  gets (λ st, default [] (lists_store st !! r)).

(** [constraints.copy()]: a new object with the same entries. [Constraints]
    is a list class defined outside this module; its [copy] and [append] are
    the list's. *)
Definition copy_constraints (r : nat) : M nat :=
  λ st, let h := constraints_store st in
        (Ok (length h), set_constraints_store (h ++ [default [] (h !! r)]) st).

(** A fresh list object. *)
Definition new_list (l : list BitVec) : M nat :=
  λ st, let h := lists_store st in (Ok (length h), set_lists_store (h ++ [l]) st).

Fixpoint for_each {A : Type} (l : list A) (body : A → M unit) : M unit :=
  match l with
  | [] => mret tt
  | a :: l' => _ ← body a; for_each l' body
  end.

Definition caller_balance_bound : Z := 1000000000000000000000.
Definition account_balance_bound : Z := 100000000000000000000.

Definition _set_minimisation_constraints (transaction_sequence : list BaseTransaction)
    (constraints minimize : nat) (max_size : Z) (world_state : WorldState)
  : M (nat * list BitVec) :=
  _ ← for_each transaction_sequence (λ transaction,
        let max_calldata_size := BitVecVal max_size 256 in
        _ ← append_constraint constraints
              (SmtBool (UGE max_calldata_size (calldatasize (call_data transaction))));
        _ ← append_minimize minimize (calldatasize (call_data transaction));
        _ ← append_minimize minimize (call_value transaction);
        append_constraint constraints
          (SmtBool (UGE (BitVecVal caller_balance_bound 256)
                        (starting_balance world_state (caller transaction)))));
  _ ← for_each (values (accounts world_state)) (λ account,
        append_constraint constraints
          (SmtBool (UGE (BitVecVal account_balance_bound 256)
                        (starting_balance world_state (address account)))));
  m ← read_list minimize;
  mret (constraints, m).

(* ===================================================================== *)
(** ** _get_concrete_transaction and _get_concrete_state *)
(* ===================================================================== *)

(** The [dict] of a concrete transaction, keys "input", "value", "origin"
    and "address". *)
Record ConcreteTransaction : Type := {
  c_input : str;
  c_value : str;
  c_origin : str;
  c_address : str
}.

Definition set_input (s : str) (tx : ConcreteTransaction) : ConcreteTransaction :=
  {| c_input := s; c_value := c_value tx; c_origin := c_origin tx;
     c_address := c_address tx |}.

(** One byte of call data: [hex(b)[2:]] when [hex(b)] has even length, with a
    leading zero otherwise. *)
Definition byte_hex (b : Z) : str :=
  if Nat.even (length (hex b)) then drop 2 (hex b) else "0"%char :: drop 2 (hex b).

Definition is_creation (transaction : BaseTransaction) : bool :=
  match kind transaction with
  | ContractCreationTransaction _ => true
  | MessageCallTransaction => false
  end.

Definition _get_concrete_transaction (model : Model) (transaction : BaseTransaction)
  : result ConcreteTransaction :=
  match bv_value (address (callee_account transaction)) with
  | None => Raise TypeError
  | Some callee =>
      let address := hex callee in
      let value := eval model (call_value transaction) in
      let caller := lit "0x" ++ zfill 40 (fmt_x (eval model (caller transaction))) in
      let input_ := [] in
      let '(address, input_) :=
        match kind transaction with
        | ContractCreationTransaction code => ([], input_ ++ bytecode code)
        | MessageCallTransaction => (address, input_)
        end in
      let input_ := input_ ++ concat (map byte_hex (concrete (call_data transaction) model)) in
      Ok {| c_input := lit "0x" ++ input_;
            c_value := lit "0x" ++ fmt_x value;
            c_origin := caller;
            c_address := address |}
  end.

(** The [dict] of a concrete account, keys "nonce", "code", "storage" and
    "balance". *)
Record ConcreteAccount : Type := {
  d_nonce : Z;
  d_code : str;
  d_storage : str;
  d_balance : str
}.

Definition _get_concrete_state (initial_accounts : list (Z * Account))
    (min_price_dict : list (Z * Z)) : list (str * ConcreteAccount) :=
  fold_left (λ accounts '(address, account),
      let data := {| d_nonce := nonce account;
                     d_code := bytecode (code account);
                     d_storage := storage account;
                     d_balance := hex (default 0 (dict_get address min_price_dict)) |} in
      dict_set (hex address) data accounts)
    initial_accounts [].

(* ===================================================================== *)
(** ** _replace_with_actual_sha *)
(* ===================================================================== *)

#[global] Instance result_ret : MRet result := λ A a, Ok a.

#[global] Instance result_bind : MBind result := λ A B f r,
  match r with
  | Ok a => f a
  | Raise e => Raise e
  end.

(** A loop over a list that threads a value and stops at the first raise. *)
Fixpoint fold_result {A S : Type} (body : S → A → result S) (l : list A) (s : S)
  : result S :=
  match l with
  | [] => Ok s
  | a :: l' => s' ← body s a; fold_result body l' s'
  end.

Section resolver.

(** [hash_matcher] and [keccak_function_manager.store_function] (its
    registered input widths in iteration order), both defined outside this
    module. *)
Variable hash_matcher : str.
Variable store_function : list N.

(** Modelled from the spec: [keccak_function_manager.find_concrete_keccak],
    which is not part of this module. The spec's hash registry offers
    [computeConcreteHash(input) -> digest], the forward hash of a concrete
    input; [concrete_keccak value size] is the digest, as an integer, of the
    input [value] of width [size]. The result is a 256-bit numeral. *)
Variable concrete_keccak : Z → N → Z.

Definition find_concrete_keccak (input_ : Z * N) : Z :=
  concrete_keccak (fst input_) (snd input_) mod 2 ^ 256.

Variable model : Model.

(** [for size in keccak_function_manager.store_function: ...]: the candidate
    input of a digest, a pair of [input_.value] and [input_.size()]. The
    transactions are read in their current state. *)
Fixpoint find_input_loop (concrete_transactions : list ConcreteTransaction)
    (find_input : Z) (sizes : list N) (input_ : option (Z * N)) : option (Z * N) :=
  match sizes with
  | [] => input_
  | size :: rest =>
      match inverse_value model size find_input with
      | None => find_input_loop concrete_transactions find_input rest input_
      | Some v =>
          let input_ := (v mod 2 ^ Z.of_N size, size) in
          let hex_input := drop 2 (hex (fst input_)) in
          if existsb (λ new_tx, contains hex_input (c_input new_tx)) concrete_transactions
          then Some input_
          else find_input_loop concrete_transactions find_input rest (Some input_)
      end
  end.

(** [hex_keccak], brought to 66 characters. *)
Definition pad_hex_keccak (hex_keccak : str) : str :=
  if decide (length hex_keccak ≠ 66%nat)
  then lit "0x" ++ repeat "0"%char (66 - length hex_keccak) ++ drop 2 hex_keccak
  else hex_keccak.

(** One turn of [for i in range(s_index, len(tx["input"]), 64)] for the
    transaction at position [k]. *)
Definition window_step (k s_index : nat) (concrete_transactions : list ConcreteTransaction)
    (i : nat) : result (list ConcreteTransaction) :=
  match concrete_transactions !! k with
  | None => Ok concrete_transactions
  | Some tx =>
      let data_slice := slice i (i + 64) (c_input tx) in
      if negb (contains hash_matcher data_slice) || negb (length data_slice =? 64)%nat
      then Ok concrete_transactions
      else
        match int16 data_slice with
        | None => Raise ValueError
        | Some n =>
            let find_input := n mod 2 ^ 256 in
            match find_input_loop concrete_transactions find_input store_function None with
            | None => Ok concrete_transactions
            | Some input_ =>
                let keccak := find_concrete_keccak input_ in
                let hex_keccak := pad_hex_keccak (hex keccak) in
                let new_input :=
                  take s_index (c_input tx)
                  ++ str_replace (slice i (64 + i) (c_input tx)) (drop 2 hex_keccak)
                       (drop s_index (c_input tx)) in
                Ok (<[k := set_input new_input tx]> concrete_transactions)
            end
        end
  end.

(** One turn of [for tx in concrete_transactions]. *)
Definition tx_step (code : option Disassembly)
    (concrete_transactions : list ConcreteTransaction) (k : nat)
  : result (list ConcreteTransaction) :=
  match concrete_transactions !! k with
  | None => Ok concrete_transactions
  | Some tx =>
      if negb (contains hash_matcher (c_input tx)) then Ok concrete_transactions
      else
        let s_index :=
          match code with
          | Some code =>
              if contains (bytecode code) (c_input tx)
              then (length (bytecode code) + 10)%nat
              else 10%nat
          | None => 10%nat
          end in
        fold_result (window_step k s_index)
          (range_step s_index (length (c_input tx)) 64) concrete_transactions
  end.

(** The transactions are changed in place; the result is the list after the
    call. *)
Definition _replace_with_actual_sha (concrete_transactions : list ConcreteTransaction)
    (code : option Disassembly) : result (list ConcreteTransaction) :=
  fold_result (tx_step code) (seq 0 (length concrete_transactions)) concrete_transactions.

(** The splice the resolver writes for a window and a candidate input. *)
Definition spliced (s_index i : nat) (input_ : Z * N) (input : str) : str :=
  take s_index input
  ++ str_replace (slice i (64 + i) input)
       (drop 2 (pad_hex_keccak (hex (find_concrete_keccak input_))))
       (drop s_index input).

End resolver.

(* ===================================================================== *)
(** ** get_transaction_sequence *)
(* ===================================================================== *)

Record TransactionSequence : Type := {
  initialState : list (str * ConcreteAccount);    (* its "accounts" *)
  steps : list ConcreteTransaction
}.

Definition lift {A : Type} (r : result A) : M A := λ st, (r, st).

Fixpoint map_result {A B : Type} (f : A → result B) (l : list A) : result (list B) :=
  match l with
  | [] => Ok []
  | a :: l' => b ← f a; bs ← map_result f l'; mret (b :: bs)
  end.

(** The resolver's [code] argument: the code of a first transaction that
    creates a contract. *)
Definition creation_code (first : BaseTransaction) : option Disassembly :=
  match kind first with
  | ContractCreationTransaction code => Some code
  | MessageCallTransaction => None
  end.

(** [min_price_dict] *)
Definition min_price_dict (model : Model) (ws : WorldState) : list (Z * Z) :=
  fold_left (λ d address,
      dict_set address (eval model (starting_balance ws (BitVecVal address 256))) d)
    (keys (accounts ws)) [].

Section extractor.

Variable z3_check : Optimize → CheckSatResult.
Variable z3_model : Optimize → Model.
Variable hash_matcher : str.
Variable store_function : list N.
Variable concrete_keccak : Z → N → Z.

Definition get_transaction_sequence (global_state : GlobalState) (constraints : nat)
  : M TransactionSequence :=
  let transaction_sequence := transaction_sequence global_state in
  copy ← copy_constraints constraints;
  fresh ← new_list [];
  '(tx_constraints, minimize) ←
    _set_minimisation_constraints transaction_sequence copy fresh 5000
      (gs_world_state global_state);
  passed ← read_constraints tx_constraints;
  model ← get_model z3_check z3_model
             {| args := [VConstraints passed];
                kwds := [("minimize"%string, VTuple minimize)] |};
  match transaction_sequence with
  | [] => raise IndexError
  | first :: _ =>
      let initial_world_state := world_state first in
      let initial_accounts := accounts initial_world_state in
      concrete_transactions ←
        lift (map_result (_get_concrete_transaction model) transaction_sequence);
      let min_price_dict :=
        fold_left (λ d address,
            dict_set address
              (eval model (starting_balance initial_world_state (BitVecVal address 256))) d)
          (keys initial_accounts) [] in
      let concrete_initial_state := _get_concrete_state initial_accounts min_price_dict in
      concrete_transactions ←
        lift (_replace_with_actual_sha hash_matcher store_function concrete_keccak model
                concrete_transactions
                match kind first with
                | ContractCreationTransaction code => Some code
                | MessageCallTransaction => None
                end);
      mret {| initialState := concrete_initial_state; steps := concrete_transactions |}
  end.

(** What [get_transaction_sequence] does once it holds a model. *)
Definition extract (global_state : GlobalState) (model : Model)
  : result TransactionSequence :=
  match transaction_sequence global_state with
  | [] => Raise IndexError
  | first :: _ =>
      concrete_transactions ←
        map_result (_get_concrete_transaction model) (transaction_sequence global_state);
      concrete_transactions ←
        _replace_with_actual_sha hash_matcher store_function concrete_keccak model
          concrete_transactions (creation_code first);
      mret {| initialState :=
                _get_concrete_state (accounts (world_state first))
                  (min_price_dict model (world_state first));
              steps := concrete_transactions |}
  end.

End extractor.

(* ===================================================================== *)
(** ** Keccak-256, the hash behind find_concrete_keccak *)
(* ===================================================================== *)

Module Keccak.

Definition mask64 : Z := 2 ^ 64 - 1.

Definition rotl64 (x n : Z) : Z :=
  Z.lor (Z.land (Z.shiftl x n) mask64) (Z.shiftr x (64 - n)).

(** The 25 lanes of the state, lane [(x, y)] at position [x + 5 * y]. *)
Definition lane (A : list Z) (x y : nat) : Z :=
  nth ((x mod 5) + 5 * (y mod 5))%nat A 0.

Definition round_constants : list Z :=
  [0x0000000000000001; 0x0000000000008082; 0x800000000000808A; 0x8000000080008000;
   0x000000000000808B; 0x0000000080000001; 0x8000000080008081; 0x8000000000008009;
   0x000000000000008A; 0x0000000000000088; 0x0000000080008009; 0x000000008000000A;
   0x000000008000808B; 0x800000000000008B; 0x8000000000008089; 0x8000000000008003;
   0x8000000000008002; 0x8000000000000080; 0x000000000000800A; 0x800000008000000A;
   0x8000000080008081; 0x8000000000008080; 0x0000000080000001; 0x8000000080008008].

Definition rotation_offsets : list Z :=
  [ 0;  1; 62; 28; 27;
   36; 44;  6; 55; 20;
    3; 10; 43; 25; 39;
   41; 45; 15; 21;  8;
   18;  2; 61; 56; 14].

Definition lanes (f : nat → nat → Z) : list Z :=
  map (λ i, f (i mod 5)%nat (i / 5)%nat) (seq 0 25).

Definition theta (A : list Z) : list Z :=
  let C x := Z.lxor (lane A x 0) (Z.lxor (lane A x 1) (Z.lxor (lane A x 2)
               (Z.lxor (lane A x 3) (lane A x 4)))) in
  let D x := Z.lxor (C (x + 4)%nat) (rotl64 (C (x + 1)%nat) 1) in
  lanes (λ x y, Z.lxor (lane A x y) (D x)).

Definition rho_pi (A : list Z) : list Z :=
  lanes (λ x y,
    let x' := ((x + 3 * y) mod 5)%nat in
    rotl64 (lane A x' x) (nth (x' + 5 * x)%nat rotation_offsets 0)).

Definition chi (B : list Z) : list Z :=
  lanes (λ x y,
    Z.lxor (lane B x y)
      (Z.land (Z.lxor (lane B (x + 1) y) mask64) (lane B (x + 2) y))).

Definition iota (rc : Z) (A : list Z) : list Z :=
  match A with
  | a :: A' => Z.lxor a rc :: A'
  | [] => []
  end.

Definition keccak_f (A : list Z) : list Z :=
  fold_left (λ A rc, iota rc (chi (rho_pi (theta A)))) round_constants A.

Definition rate : nat := 136.

(** Little-endian bytes to a lane and back. *)
Definition lane_of_bytes (bs : list Z) : Z :=
  fold_right (λ b acc, b + 256 * acc) 0 bs.

Definition bytes_of_lane (l : Z) : list Z :=
  map (λ k, (l / 256 ^ Z.of_nat k) mod 256) (seq 0 8).

Definition pad (data : list Z) : list Z :=
  let p := data ++ [1] in
  let p := p ++ repeat 0 ((rate - length p mod rate) mod rate) in
  removelast p ++ [Z.lor (List.last p 0) 128].

Fixpoint absorb (blocks : nat) (p : list Z) (A : list Z) : list Z :=
  match blocks with
  | O => A
  | S n =>
      let blk := take rate p in
      let A := map (λ i, Z.lxor (nth i A 0)
                          (if (i <? rate / 8)%nat
                           then lane_of_bytes (take 8 (drop (8 * i) blk)) else 0))
                   (seq 0 25) in
      absorb n (drop rate p) (keccak_f A)
  end.

Definition keccak256 (data : list Z) : list Z :=
  let p := pad data in
  let A := absorb (length p / rate) p (repeat 0 25) in
  take 32 (concat (map bytes_of_lane A)).

(** [int.from_bytes(bs, "big")] and [v.to_bytes(n, "big")] *)
Definition from_bytes (bs : list Z) : Z :=
  fold_left (λ acc b, 256 * acc + b) bs 0.

Definition to_bytes (v : Z) (n : nat) : list Z :=
  map (λ k, (v / 256 ^ Z.of_nat (n - 1 - k)) mod 256) (seq 0 n).

(** The digest of the [size]-bit input [value]: the instance of
    [concrete_keccak] the program runs with. *)
Definition concrete_keccak (value : Z) (size : N) : Z :=
  from_bytes (keccak256 (to_bytes value (N.to_nat size / 8))).

End Keccak.

(* ===================================================================== *)
(** ** Notions the statements use *)
(* ===================================================================== *)

(** The session [get_model] builds for a timeout and its three arguments. *)
Definition session (t : Z) (constraints : list constraint)
    (minimize maximize : list BitVec) : Optimize :=
  fold_left maximize_ maximize
    (fold_left minimize_ minimize
       (fold_left add (filter (λ c, is_bool c = false) constraints)
          (set_timeout t Optimize_new))).

(** The timeout [get_model] computes in a state. *)
Definition effective_timeout (enforce_execution_time : bool) (st : State) : Z :=
  if enforce_execution_time
  then Z.min (solver_timeout st) (time_remaining st - 500)
  else solver_timeout st.

(** Every stored call fits the signature, and its constraints and its model
    are related by [P]. *)
Definition table_all (P : list constraint → Model → Prop)
    (table : list (call * Model)) : Prop :=
  ∀ k m, (k, m) ∈ table →
    ∃ cs mi ma e, bind_args k = Some (cs, mi, ma, e) ∧ P cs m.

(** No stored call carries a literal [False]: the table only ever receives
    results of runs that reached the solver. *)
Definition table_ok : list (call * Model) → Prop :=
  table_all (λ cs _, PyBool false ∉ cs).

(** Every stored model meets the constraints it is stored for. *)
Definition table_sound : list (call * Model) → Prop :=
  table_all (λ cs m, Forall (λ c, satisfies m c = true) cs).

(** A solver that answers [sat] only with a model of what it was given. *)
Definition solver_sound (check : Optimize → CheckSatResult)
    (model_of : Optimize → Model) : Prop :=
  ∀ s, check s = sat → Forall (λ c, satisfies (model_of s) c = true) (assertions s).

(** What one transaction and one account contribute. *)
Definition transaction_constraints (max_size : Z) (ws : WorldState)
    (transaction : BaseTransaction) : list constraint :=
  [SmtBool (UGE (BitVecVal max_size 256) (calldatasize (call_data transaction)));
   SmtBool (UGE (BitVecVal caller_balance_bound 256)
              (starting_balance ws (caller transaction)))].

Definition transaction_objectives (transaction : BaseTransaction) : list BitVec :=
  [calldatasize (call_data transaction); call_value transaction].

Definition account_constraint (ws : WorldState) (account : Account) : constraint :=
  SmtBool (UGE (BitVecVal account_balance_bound 256)
             (starting_balance ws (address account))).

(** The entries [_set_minimisation_constraints] appends, in order. *)
Definition minimisation_constraints (transaction_sequence : list BaseTransaction)
    (max_size : Z) (ws : WorldState) : list constraint :=
  flat_map (transaction_constraints max_size ws) transaction_sequence
  ++ map (account_constraint ws) (values (accounts ws)).

(** The object at reference [r] grown by [extra]. *)
Definition extend {A : Type} (r : nat) (extra : list A) (h : list (list A))
  : list (list A) :=
  alter (λ l, l ++ extra) r h.

(** The state with both stores replaced. *)
Definition with_stores (cs : list (list constraint)) (ls : list (list BitVec))
    (st : State) : State :=
  set_lists_store ls (set_constraints_store cs st).

(** The call [get_transaction_sequence] makes, for the entries [old] of the
    caller's constraints. *)
Definition solver_call (global_state : GlobalState) (old : list constraint) : call :=
  {| args := [VConstraints
                (old ++ minimisation_constraints (transaction_sequence global_state) 5000
                          (gs_world_state global_state))];
     kwds := [("minimize"%string,
               VTuple (flat_map transaction_objectives (transaction_sequence global_state)))] |}.

Definition hex_string (s : str) : Prop := Forall (λ c, is_hex_digit c = true) s.

(** The offset the search of a transaction's input starts at ([s_index]). *)
Definition search_offset (code : option Disassembly) (input : str) : nat :=
  match code with
  | Some code =>
      if contains (bytecode code) input then (length (bytecode code) + 10)%nat else 10%nat
  | None => 10%nat
  end.

(** A window the resolver works on: 64 characters that hold the marker. *)
Definition is_marker_window (hash_matcher input : str) (i : nat) : bool :=
  contains hash_matcher (slice i (i + 64) input)
  && (length (slice i (i + 64) input) =? 64)%nat.

(** The windows of a transaction the resolver would work on. *)
Definition marker_windows (hash_matcher : str) (code : option Disassembly)
    (tx : ConcreteTransaction) : list nat :=
  if contains hash_matcher (c_input tx) then
    filter (λ i, is_marker_window hash_matcher (c_input tx) i = true)
      (range_step (search_offset code (c_input tx)) (length (c_input tx)) 64)
  else [].

(** A transaction input whose characters from the tenth on are hexadecimal
    digits, as [_get_concrete_transaction] writes them for hexadecimal
    bytecode. *)
Definition hex_input (tx : ConcreteTransaction) : Prop :=
  hex_string (drop 10 (c_input tx)).


(** A well-formed transaction: a concrete callee address, hexadecimal
    bytecode when it creates a contract, and call data bytes that are not
    negative under the model. *)
Definition well_formed (model : Model) (tx : BaseTransaction) : Prop :=
  (∃ callee, bv_value (address (callee_account tx)) = Some callee) ∧
  (∀ code, kind tx = ContractCreationTransaction code → hex_string (bytecode code)) ∧
  Forall (λ b, 0 ≤ b) (concrete (call_data tx) model).

(* ===================================================================== *)
(** ** Sample inputs *)
(* ===================================================================== *)

Definition zero_model : Model :=
  {| sym_value := λ _, 0; bool_value := λ _, true;
     array_value := λ _ _, 0; inverse_value := λ _ _, None |}.

(** A state with a configured timeout of ten seconds, [budget] milliseconds
    left, an empty table and no object. *)
Definition fresh_state (budget : Z) : State :=
  {| solver_timeout := 10000; time_remaining := budget;
     constraints_store := []; lists_store := []; lru := []; solver_calls := [] |}.

Definition symbol_call : call :=
  {| args := [VConstraints [SmtBool (BoolSym "c"); PyBool true]]; kwds := [] |}.

Definition false_call : call :=
  {| args := [VConstraints [SmtBool (BoolSym "c"); PyBool true; PyBool false]];
     kwds := [("minimize"%string, VTuple [BVSym "v" 256])] |}.

Definition answers (r : CheckSatResult) : Optimize → CheckSatResult := λ _, r.

Definition gives (m : Model) : Optimize → Model := λ _, m.

(** A solver that tries the one model [m]: [sat] when [m] meets every
    assertion, [unknown] otherwise. *)
Definition tries (m : Model) : Optimize → CheckSatResult :=
  λ s, if forallb (satisfies m) (assertions s) then sat else unknown.

Definition sample_account : Account :=
  {| address := BitVecVal 0xaffe 256; nonce := 0;
     code := {| bytecode := lit "6080" |}; storage := lit "{}" |}.

Definition sample_world : WorldState :=
  {| accounts := [(0xaffe, sample_account)]; starting_balances := "balance" |}.

(** A state whose only object is an empty [Constraints]. *)
Definition one_object_state : State :=
  {| solver_timeout := 10000; time_remaining := 60000;
     constraints_store := [[]]; lists_store := [[]]; lru := []; solver_calls := [] |}.

(** A model that gives every account the starting balance [b]. *)
Definition balance_model (b : Z) : Model :=
  {| sym_value := λ _, 0; bool_value := λ _, true;
     array_value := λ _ _, b; inverse_value := λ _ _, None |}.

(** The marker of mythril's keccak function manager and a registry with the
    one width of 256 bits. *)
Definition marker : str := lit "fffffff".

Definition one_width : list N := [256%N].

(** A model whose inverse of the 256-bit hash sends every digest to zero. *)
Definition inverse_zero_model : Model :=
  {| sym_value := λ _, 0; bool_value := λ _, true; array_value := λ _ _, 0;
     inverse_value := λ size _, if (size =? 256)%N then Some 0 else None |}.

Definition call_with_input (input : str) : ConcreteTransaction :=
  {| c_input := input; c_value := lit "0x0";
     c_origin := lit "0x" ++ repeat "0"%char 40; c_address := lit "0xaffe" |}.

(** A call of two words whose second word is sixty-four characters of
    period nine, and whose first word ends with the first nine of them. *)
Definition periodic_word : str :=
  map (λ i, nth (i mod 9) (lit "f00ffffff") "0"%char) (seq 0 64).

Definition overlapping_input : str :=
  lit "0xa9059cbb" ++ repeat "0"%char 55 ++ lit "f00ffffff" ++ periodic_word.

(** One window of marker text: the first run resolves it and leaves no
    marker window, the second changes nothing. *)
Definition marker_input : str := lit "0xa9059cbb" ++ repeat "f"%char 64.

Definition creation_bytecode : Disassembly := {| bytecode := lit "6080604052" |}.

Definition creation_transaction : BaseTransaction :=
  {| kind := ContractCreationTransaction creation_bytecode;
     world_state := sample_world;
     callee_account := sample_account;
     caller := BVSym "sender_1" 256;
     call_data := {| calldatasize := BVSym "1_calldatasize" 256; concrete := λ _, [] |};
     call_value := BVSym "call_value1" 256 |}.

Definition call_transaction : BaseTransaction :=
  {| kind := MessageCallTransaction;
     world_state := sample_world;
     callee_account := sample_account;
     caller := BVSym "sender_2" 256;
     call_data := {| calldatasize := BVSym "2_calldatasize" 256;
                     concrete := λ _, [0xa9; 0x05; 0x9c; 0xbb; 0x01] |};
     call_value := BVSym "call_value2" 256 |}.

Definition creation_state : GlobalState :=
  {| gs_world_state := sample_world; transaction_sequence := [creation_transaction] |}.

Definition two_step_state : GlobalState :=
  {| gs_world_state := sample_world;
     transaction_sequence := [creation_transaction; call_transaction] |}.

(* ===================================================================== *)
(** ** More notions for the statements *)
(* ===================================================================== *)

(** Where the bytes of the call data start in the input of a step: after
    "0x", and after the bytecode when the transaction creates a contract. *)
Definition data_offset (transaction : BaseTransaction) : nat :=
  match kind transaction with
  | ContractCreationTransaction code => (2 + length (bytecode code))%nat
  | MessageCallTransaction => 2%nat
  end.

(** A call with keyword arguments and [enforce_execution_time=False]. *)
Definition unenforced_call : call :=
  {| args := [VConstraints [SmtBool (BoolSym "c")]];
     kwds := [("maximize"%string, VTuple [BVSym "w" 256]);
              ("minimize"%string, VTuple [BVSym "v" 256]);
              ("enforce_execution_time"%string, VBool false)] |}.

(** The state [get_transaction_sequence] calls [get_model] in: the copy of
    the constraints and the new list of objectives are the last objects. *)
Definition solving_state (gs : GlobalState) (r : nat) (st : State) : State :=
  with_stores
    (constraints_store st
       ++ [default [] (constraints_store st !! r)
           ++ minimisation_constraints (transaction_sequence gs) 5000 (gs_world_state gs)])
    (lists_store st ++ [flat_map transaction_objectives (transaction_sequence gs)]) st.

(** A state whose sequence has no transaction. *)
Definition empty_state : GlobalState :=
  {| gs_world_state := sample_world; transaction_sequence := [] |}.

(** [hex_input in new_tx["input"]] for some transaction: the candidate's
    digits are visible in an input. *)
Definition visible (concrete_transactions : list ConcreteTransaction) (value : Z) : bool :=
  existsb (λ new_tx, contains (drop 2 (hex value)) (c_input new_tx)) concrete_transactions.

(** The sixty-four digits the resolver writes for a digest. *)
Definition digest_text (keccak : Z) : str := drop 2 (pad_hex_keccak (hex keccak)).

(** A rewritten transaction keeps its layout: the length of its input, the
    characters of the input before [s_index], and its other fields. *)
Definition keeps_layout (s_index : nat) (tx tx' : ConcreteTransaction) : Prop :=
  length (c_input tx') = length (c_input tx) ∧
  take s_index (c_input tx') = take s_index (c_input tx) ∧
  c_value tx' = c_value tx ∧ c_origin tx' = c_origin tx ∧ c_address tx' = c_address tx.

(* ===================================================================== *)
(** ** pretty_print_model *)
(* ===================================================================== *)

(** What [pretty_print_model] looks at in a z3 model: the declarations
    [model.decls()] in order, each with its name [d.name()] and its
    interpretation [model[d]]. An interpretation is a [FuncInterp], of which
    the text of [as_list()] is printed; a numeral, which has [as_long()]; or
    another value, on which [as_long] fails and the text of
    [z3.simplify(model[d])] is printed. *)
Inductive interpretation : Type :=
| FuncInterp (as_list : str)
| Numeral (as_long : Z)
| Expression (simplified : str).

Record FuncDecl : Type := {
  decl_name : str;
  decl_value : interpretation
}.

Definition newline : ascii := "010"%char.

Definition pretty_print_model (model : list FuncDecl) : str :=
  fold_left (λ ret d,
      match decl_value d with
      | FuncInterp condition =>
          ret ++ (decl_name d ++ lit ": " ++ condition ++ [newline])
      | Numeral value =>
          let condition := lit "0x" ++ fmt_x value in
          ret ++ (decl_name d ++ lit ": " ++ condition ++ [newline])
      | Expression simplified =>
          let condition := simplified in
          ret ++ (decl_name d ++ lit ": " ++ condition ++ [newline])
      end)
    model [].

(** The text printed for an interpretation. *)
Definition condition_of (value : interpretation) : str :=
  match value with
  | FuncInterp condition => condition
  | Numeral value => lit "0x" ++ fmt_x value
  | Expression simplified => simplified
  end.

(** A declaration whose name and printed text hold no line break. *)
Definition one_line (d : FuncDecl) : Prop :=
  (newline ∉ decl_name d) ∧
  match decl_value d with
  | FuncInterp condition => newline ∉ condition
  | Numeral _ => True
  | Expression simplified => newline ∉ simplified
  end.

(** A model of a bit-vector, a function and a boolean. *)
Definition sample_decls : list FuncDecl :=
  [{| decl_name := lit "call_value1"; decl_value := Numeral 255 |};
   {| decl_name := lit "balance"; decl_value := FuncInterp (lit "[0]") |};
   {| decl_name := lit "c"; decl_value := Expression (lit "True") |}].

(** A call to an account whose address is symbolic. *)
Definition symbolic_callee_transaction : BaseTransaction :=
  {| kind := MessageCallTransaction;
     world_state := sample_world;
     callee_account :=
       {| address := BVSym "callee" 256; nonce := 0;
          code := {| bytecode := [] |}; storage := lit "{}" |};
     caller := BVSym "sender_3" 256;
     call_data := {| calldatasize := BVSym "3_calldatasize" 256; concrete := λ _, [] |};
     call_value := BVSym "call_value3" 256 |}.

Definition symbolic_callee_state : GlobalState :=
  {| gs_world_state := sample_world;
     transaction_sequence := [creation_transaction; symbolic_callee_transaction] |}.

(** A transaction none of whose marker windows has a candidate input: for
    the number a marker window reads as, the model gives the inverse no
    value at any registered width. *)
Definition unresolved (hash_matcher : str) (store_function : list N) (model : Model)
    (code : option Disassembly) (tx : ConcreteTransaction) : Prop :=
  ∀ i n, i ∈ marker_windows hash_matcher code tx →
    int16 (slice i (i + 64) (c_input tx)) = Some n →
    ∀ size, size ∈ store_function → inverse_value model size (n mod 2 ^ 256) = None.

(** A call of two words that both hold the marker. The second word has
    period ten and the first word ends with the first ten of its characters,
    so the text of the second word occurs first ten characters before it. *)
Definition period_ten_word : str :=
  map (λ i, nth (i mod 10) (lit "f00fffffff") "0"%char) (seq 0 64).

Definition shadowed_input : str :=
  lit "0xa9059cbb" ++ repeat "0"%char 54 ++ lit "f00fffffff" ++ period_ten_word.

(** A model whose inverse of the 256-bit hash has a value, zero, for the
    number the second word reads as and for no other digest. *)
Definition second_word_model : Model :=
  {| sym_value := λ _, 0; bool_value := λ _, true; array_value := λ _ _, 0;
     inverse_value := λ size digest,
       if (size =? 256)%N && (digest =? default 0 (int16 period_ten_word))
       then Some 0 else None |}.

(* ===================================================================== *)
(** * Properties *)
(* ===================================================================== *)

Example keccak256_empty :
  hex (Keccak.from_bytes (Keccak.keccak256 [])) =
  lit "0xc5d2460186f7233c927e7db2dcc703c0e500b653ca82273b7bfad8045d85a470".
Proof. vm_compute. reflexivity. Qed.

Example keccak256_abc :
  hex (Keccak.from_bytes (Keccak.keccak256 [97; 98; 99])) =
  lit "0x4e03657aea45a94fc7d47ba826c8d667c0d1e6e33a64a036ec44f58fa12d6c45".
Proof. vm_compute. reflexivity. Qed.

(** A message one byte short of the rate, and one of two blocks. *)
Example keccak256_full_block :
  hex (Keccak.from_bytes (Keccak.keccak256 (repeat 7 135))) =
  lit "0x316ef5fac392334013c099d269106bf60e177aa75b6b3e0ccefc0cd19ef6adb2".
Proof. vm_compute. reflexivity. Qed.

Example keccak256_two_blocks :
  hex (Keccak.from_bytes (Keccak.keccak256 (map Z.of_nat (seq 0 200)))) =
  lit "0xbfb0aa97863e797943cf7c33bb7e880bb4543f3d2703c0923c6901c2af57b890".
Proof. vm_compute. reflexivity. Qed.

Example keccak256_zero_word :
  hex (Keccak.concrete_keccak 0 256) =
  lit "0x290decd9548b62a8d60345a988386fc84ba6bc95484008f6362f93160ef3e563".
Proof. vm_compute. reflexivity. Qed.

(* ===================================================================== *)
(** ** The solve cache *)
(* ===================================================================== *)

Lemma fold_add_assertions l s :
  assertions (fold_left add l s) = assertions s ++ l.
Proof.
  revert s. induction l as [|c l IH]; intros s; simpl.
  - by rewrite app_nil_r.
  - rewrite IH. simpl. by rewrite <- app_assoc.
Qed.

Lemma fold_add_timeout l s : timeout (fold_left add l s) = timeout s.
Proof. revert s. induction l as [|c l IH]; intros s; simpl; [done|by rewrite IH]. Qed.

Lemma fold_minimize_keeps l s :
  timeout (fold_left minimize_ l s) = timeout s ∧
  assertions (fold_left minimize_ l s) = assertions s.
Proof.
  revert s. induction l as [|c l IH]; intros s; simpl; [done|].
  destruct (IH (minimize_ s c)) as [-> ->]. done.
Qed.

Lemma fold_maximize_keeps l s :
  timeout (fold_left maximize_ l s) = timeout s ∧
  assertions (fold_left maximize_ l s) = assertions s.
Proof.
  revert s. induction l as [|c l IH]; intros s; simpl; [done|].
  destruct (IH (maximize_ s c)) as [-> ->]. done.
Qed.

Lemma session_timeout t cs mi ma : timeout (session t cs mi ma) = Some t.
Proof.
  unfold session.
  rewrite (proj1 (fold_maximize_keeps _ _)), (proj1 (fold_minimize_keeps _ _)).
  by rewrite fold_add_timeout.
Qed.

Lemma session_assertions t cs mi ma :
  assertions (session t cs mi ma) = filter (λ c, is_bool c = false) cs.
Proof.
  unfold session.
  rewrite (proj2 (fold_maximize_keeps _ _)), (proj2 (fold_minimize_keeps _ _)).
  by rewrite fold_add_assertions.
Qed.

Lemma reject_false_raises cs st :
  PyBool false ∈ cs → reject_false cs st = (Raise UnsatError, st).
Proof.
  induction cs as [|c cs IH]; intros Hin.
  - by apply elem_of_nil in Hin.
  - destruct c as [[|]|e]; simpl; try done;
      apply elem_of_cons in Hin as [Heq|Hin]; try discriminate; by apply IH.
Qed.

Lemma reject_false_passes cs st :
  PyBool false ∉ cs → reject_false cs st = (Ok tt, st).
Proof.
  induction cs as [|c cs IH]; intros Hnin; [done|].
  destruct c as [[|]|e]; simpl.
  - apply IH. intros H. apply Hnin. by right.
  - exfalso. apply Hnin. by left.
  - apply IH. intros H. apply Hnin. by right.
Qed.

Section solver_facts.

Variable z3_check : Optimize → CheckSatResult.
Variable z3_model : Optimize → Model.

Abbreviation body := (get_model_body z3_check z3_model).
Abbreviation cached := (get_model z3_check z3_model).

(** What a run of the function itself does, case by case. *)
Lemma body_budget_spent cs mi ma st :
  effective_timeout true st ≤ 0 →
  body cs mi ma true st = (Raise UnsatError, st).
Proof.
  unfold effective_timeout. intros H.
  unfold get_model_body, mbind, M_bind, gets, raise. simpl.
  destruct (Z.leb_spec (Z.min (solver_timeout st) (time_remaining st - 500)) 0); [done|lia].
Qed.

Lemma body_literal_false cs mi ma e st :
  PyBool false ∈ cs → body cs mi ma e st = (Raise UnsatError, st).
Proof.
  intros Hin. unfold get_model_body, mbind, M_bind, gets, raise, mret, M_ret.
  destruct e; simpl.
  - destruct (Z.min _ _ <=? 0); [done|]. simpl. by rewrite reject_false_raises.
  - by rewrite reject_false_raises.
Qed.

Lemma body_solves cs mi ma e st :
  (e = true → 0 < effective_timeout true st) →
  PyBool false ∉ cs →
  let s := session (effective_timeout e st) cs mi ma in
  body cs mi ma e st =
    (match z3_check s with sat => Ok (z3_model s) | _ => Raise UnsatError end,
     set_solver_calls (solver_calls st ++ [s]) st).
Proof.
  intros Ht Hnin s. subst s.
  unfold get_model_body, mbind, M_bind, gets, raise, mret, M_ret, check, effective_timeout in *.
  destruct e; simpl.
  - specialize (Ht eq_refl).
    destruct (Z.leb_spec (Z.min (solver_timeout st) (time_remaining st - 500)) 0); [lia|].
    simpl. rewrite reject_false_passes by done. unfold session.
    by destruct (z3_check _).
  - rewrite reject_false_passes by done. unfold session.
    by destruct (z3_check _).
Qed.

(** A run of the function either leaves the state alone and raises, or hands
    exactly one session to the solver. *)
Lemma body_cases cs mi ma e st :
  body cs mi ma e st = (Raise UnsatError, st) ∨
  ((e = true → 0 < effective_timeout true st) ∧ (PyBool false ∉ cs) ∧
   (let s := session (effective_timeout e st) cs mi ma in
    body cs mi ma e st =
      (match z3_check s with sat => Ok (z3_model s) | _ => Raise UnsatError end,
       set_solver_calls (solver_calls st ++ [s]) st))).
Proof.
  destruct (decide (PyBool false ∈ cs)) as [Hin|Hnin].
  { left. by apply body_literal_false. }
  destruct e.
  - destruct (Z.le_gt_cases (effective_timeout true st) 0) as [Hle|Hgt].
    + left. by apply body_budget_spent.
    + right. split; [intros _; lia|]. split; [done|]. apply body_solves; [intros _; lia|done].
  - right. split; [done|]. split; [done|]. by apply body_solves.
Qed.

(** The table after a hit or a stored miss answers the same call. *)
Lemma cache_get_touch k m c : cache_get k (cache_touch k m c) = Some m.
Proof. unfold cache_touch. simpl. by rewrite decide_True. Qed.

Lemma cache_get_put k m c : cache_get k (cache_put k m c) = Some m.
Proof. unfold cache_put. destruct (_ <? _); simpl; by rewrite decide_True. Qed.

Lemma cached_hit c m st :
  cache_get c (lru st) = Some m →
  cached c st = (Ok m, set_lru (cache_touch c m (lru st)) st).
Proof.
  intros H. unfold get_model, mbind, M_bind, gets, modify, mret, M_ret. simpl.
  by rewrite H.
Qed.

Lemma cached_miss c cs mi ma e st :
  cache_get c (lru st) = None →
  bind_args c = Some (cs, mi, ma, e) →
  cached c st =
    match body cs mi ma e st with
    | (Ok m, st') => (Ok m, set_lru (cache_put c m (lru st')) st')
    | (Raise x, st') => (Raise x, st')
    end.
Proof.
  intros H Hb. unfold get_model, mbind, M_bind, gets, modify, mret, M_ret. simpl.
  rewrite H, Hb. by destruct (get_model_body _ _ _ _ _ _ _) as [[m|x] st'].
Qed.

Lemma cached_ill_typed c st :
  cache_get c (lru st) = None → bind_args c = None →
  cached c st = (Raise TypeError, st).
Proof.
  intros H Hb. unfold get_model, mbind, M_bind, gets, raise. simpl.
  by rewrite H, Hb.
Qed.

Lemma table_all_nil P : table_all P [].
Proof. intros k m H. by apply elem_of_nil in H. Qed.

Lemma table_ok_nil : table_ok [].
Proof. apply table_all_nil. Qed.

Lemma cache_get_elem k m c : cache_get k c = Some m → (k, m) ∈ c.
Proof.
  induction c as [|[k' m'] c IH]; simpl; [done|].
  destruct (decide (k = k')) as [->|Hne].
  - intros [= ->]. by left.
  - intros H. right. by apply IH.
Qed.

Lemma cache_del_subseteq k c : cache_del k c ⊆ c.
Proof.
  induction c as [|[k' m'] c IH]; simpl; [done|].
  destruct (decide (k = k')).
  - intros x Hx. by right.
  - intros x Hx. apply elem_of_cons in Hx as [->|Hx]; [by left|right; by apply IH].
Qed.

Lemma removelast_subseteq {A : Type} (l : list A) : removelast l ⊆ l.
Proof.
  induction l as [|a l IH]; [done|].
  destruct l as [|b l]; simpl.
  - intros x Hx. by apply elem_of_nil in Hx.
  - intros x Hx. apply elem_of_cons in Hx as [->|Hx]; [by left|right; by apply IH].
Qed.

Lemma table_all_touch P k m c :
  table_all P c → cache_get k c = Some m → table_all P (cache_touch k m c).
Proof.
  intros Hok Hget k' m' Hin. unfold cache_touch in Hin.
  apply elem_of_cons in Hin as [[= -> ->]|Hin].
  - apply (Hok k m). by apply cache_get_elem.
  - apply (Hok k' m'). by apply cache_del_subseteq in Hin.
Qed.

Lemma table_all_put (P : list constraint → Model → Prop) k m c cs mi ma e :
  table_all P c → bind_args k = Some (cs, mi, ma, e) → P cs m →
  table_all P (cache_put k m c).
Proof.
  intros Hok Hb Hnin k' m' Hin. unfold cache_put in Hin.
  destruct (_ <? _); apply elem_of_cons in Hin as [[= -> ->]|Hin]; eauto 6.
  apply (Hok k' m'). by apply removelast_subseteq in Hin.
Qed.

(** The outcome of a call, case by case: a hit, a call that does not fit the
    signature, a run that raises at once, or a run that reaches the solver. *)
Lemma cached_cases c st :
  (∃ m, cache_get c (lru st) = Some m ∧
        cached c st = (Ok m, set_lru (cache_touch c m (lru st)) st)) ∨
  (cache_get c (lru st) = None ∧ bind_args c = None ∧
   cached c st = (Raise TypeError, st)) ∨
  (∃ cs mi ma e, cache_get c (lru st) = None ∧ bind_args c = Some (cs, mi, ma, e) ∧
     (cached c st = (Raise UnsatError, st) ∨
      ((e = true → 0 < effective_timeout true st) ∧ (PyBool false ∉ cs) ∧
       (let s := session (effective_timeout e st) cs mi ma in
        let st' := set_solver_calls (solver_calls st ++ [s]) st in
        cached c st =
          match z3_check s with
          | sat => (Ok (z3_model s), set_lru (cache_put c (z3_model s) (lru st)) st')
          | _ => (Raise UnsatError, st')
          end)))).
Proof.
  destruct (cache_get c (lru st)) as [m|] eqn:Hget.
  { left. exists m. split; [done|]. by apply cached_hit. }
  right. destruct (bind_args c) as [[[[cs mi] ma] e]|] eqn:Hb.
  2:{ left. split; [done|]. split; [done|]. by apply cached_ill_typed. }
  right. exists cs, mi, ma, e. split; [done|]. split; [done|].
  rewrite (cached_miss c cs mi ma e st Hget Hb).
  destruct (body_cases cs mi ma e st) as [Hr|(Ht & Hnin & Hs)].
  - left. by rewrite Hr.
  - right. split; [done|]. split; [done|]. simpl in *. rewrite Hs.
    by destruct (z3_check _).
Qed.

Lemma cached_table_ok c st :
  table_ok (lru st) → table_ok (lru (snd (cached c st))).
Proof.
  intros Hok.
  destruct (cached_cases c st) as [(m & Hget & ->)|[(_ & _ & ->)|(cs & mi & ma & e & Hget & Hb & H)]].
  - simpl. by apply table_all_touch.
  - done.
  - destruct H as [->|(_ & Hnin & ->)]; [done|].
    destruct (z3_check _); simpl; try done. by eapply table_all_put.
Qed.

(** The entries a sound solver's model meets, the literals added. *)
Lemma satisfies_filter m cs :
  PyBool false ∉ cs →
  Forall (λ c, satisfies m c = true) (filter (λ c, is_bool c = false) cs) →
  Forall (λ c, satisfies m c = true) cs.
Proof.
  intros Hnin Hall. apply Forall_forall. intros c Hc.
  destruct c as [[|]|e]; [done|done|].
  eapply Forall_forall in Hall; [done|]. by apply list_elem_of_filter.
Qed.

Lemma cached_table_sound c st :
  solver_sound z3_check z3_model →
  table_sound (lru st) → table_sound (lru (snd (cached c st))).
Proof.
  intros Hsound Hok.
  destruct (cached_cases c st) as [(m & Hget & ->)|[(_ & _ & ->)|(cs & mi & ma & e & Hget & Hb & H)]].
  - simpl. by apply table_all_touch.
  - done.
  - destruct H as [->|(_ & Hnin & ->)]; [done|].
    destruct (z3_check _) eqn:Hsat; simpl; try done.
    eapply table_all_put; [done|done|]. simpl.
    apply satisfies_filter; [done|].
    rewrite <- (session_assertions (effective_timeout e st) cs mi ma). by apply Hsound.
Qed.

(** A sound solver behind the table never answers constraints that no model
    meets. *)
Lemma cached_unsatisfiable c cs mi ma e st :
  solver_sound z3_check z3_model →
  table_sound (lru st) →
  bind_args c = Some (cs, mi, ma, e) →
  (∀ m, ¬ Forall (λ c, satisfies m c = true) cs) →
  cached c st = (Raise UnsatError, st) ∨
  ∃ s, cached c st = (Raise UnsatError, set_solver_calls (solver_calls st ++ [s]) st).
Proof.
  intros Hsound Hok Hb Hunsat.
  destruct (cached_cases c st)
    as [(m & Hget & _)|[(_ & Hnone & _)|(cs' & mi' & ma' & e' & Hget & Hb' & H)]].
  - apply cache_get_elem in Hget.
    destruct (Hok _ _ Hget) as (cs' & mi' & ma' & e' & Hb' & Hall).
    rewrite Hb in Hb'. injection Hb' as <- <- <- <-. by apply Hunsat in Hall.
  - by rewrite Hb in Hnone.
  - rewrite Hb in Hb'. injection Hb' as <- <- <- <-.
    destruct H as [->|(_ & Hnin & ->)]; [by left|]. right.
    destruct (z3_check _) eqn:Hsat; simpl; eauto.
    exfalso. apply (Hunsat (z3_model (session (effective_timeout e st) cs mi ma))).
    apply satisfies_filter; [done|].
    rewrite <- (session_assertions (effective_timeout e st) cs mi ma). by apply Hsound.
Qed.

(** A call that returned a model is in the table afterwards. *)
Lemma cached_ok_stored c st m st' :
  cached c st = (Ok m, st') → cache_get c (lru st') = Some m.
Proof.
  destruct (cached_cases c st) as [(m0 & Hget & ->)|[(_ & _ & ->)|(cs & mi & ma & e & Hget & Hb & H)]].
  - intros [= <- <-]. simpl. apply cache_get_touch.
  - done.
  - destruct H as [->|(_ & Hnin & ->)]; [done|].
    destruct (z3_check _); try done.
    intros [= <- <-]. simpl. apply cache_get_put.
Qed.

Lemma log_not_grown {A : Type} (l : list A) (a : A) : l = l ++ [a] → False.
Proof. intros H. apply (f_equal length) in H. rewrite length_app in H. simpl in H. lia. Qed.

Lemma log_last {A : Type} (l : list A) (a b : A) : l ++ [a] = l ++ [b] → a = b.
Proof. intros H. apply app_inv_head in H. by injection H. Qed.

(** The session a call hands to the solver, when it hands one over. *)
Lemma cached_session c st s :
  solver_calls (snd (cached c st)) = solver_calls st ++ [s] →
  ∃ cs mi ma e,
    cache_get c (lru st) = None ∧ bind_args c = Some (cs, mi, ma, e) ∧
    (e = true → 0 < effective_timeout true st) ∧ (PyBool false ∉ cs) ∧
    s = session (effective_timeout e st) cs mi ma ∧
    fst (cached c st) =
      match z3_check s with sat => Ok (z3_model s) | _ => Raise UnsatError end.
Proof.
  intros Hlog.
  destruct (cached_cases c st) as [(m & Hget & Heq)|[(_ & _ & Heq)|(cs & mi & ma & e & Hget & Hb & H)]].
  - rewrite Heq in Hlog. simpl in Hlog. by apply log_not_grown in Hlog.
  - rewrite Heq in Hlog. simpl in Hlog. by apply log_not_grown in Hlog.
  - destruct H as [Heq|(Ht & Hnin & Heq)].
    + rewrite Heq in Hlog. simpl in Hlog. by apply log_not_grown in Hlog.
    + exists cs, mi, ma, e. simpl in Heq. rewrite Heq in Hlog |- *.
      assert (session (effective_timeout e st) cs mi ma = s) as Hs.
      { destruct (z3_check _); simpl in Hlog; by apply log_last in Hlog. }
      rewrite Hs in *. repeat (split; [done|]).
      by destruct (z3_check s).
Qed.

(** C2, as the code has it. A second call with the same arguments, made after
    a first call that returned a model, is answered from the table with that
    model and hands nothing to the solver, whatever time is left by then: the
    two calls together invoke the solver at most once. A call that raises
    stores nothing. *)
Theorem get_model_second_call_cached c st m st1 t :
  get_model z3_check z3_model c st = (Ok m, st1) →
  fst (get_model z3_check z3_model c (set_time_remaining t st1)) = Ok m ∧
  solver_calls (snd (get_model z3_check z3_model c (set_time_remaining t st1))) = solver_calls st1 ∧
  (length (solver_calls st1) ≤ length (solver_calls st) + 1)%nat ∧
  (∀ c0 st0 x st0', get_model z3_check z3_model c0 st0 = (Raise x, st0') → lru st0' = lru st0).
Proof.
  intros H1. pose proof (cached_ok_stored _ _ _ _ H1) as Hget.
  rewrite (cached_hit c m (set_time_remaining t st1)) by done. simpl.
  repeat split; try done.
  - destruct (cached_cases c st) as [(m0 & _ & Heq)|[(_ & _ & Heq)|(cs & mi & ma & e & _ & _ & H)]].
    + rewrite Heq in H1. injection H1 as <- <-. simpl. lia.
    + by rewrite Heq in H1.
    + destruct H as [Heq|(_ & _ & Heq)]; [by rewrite Heq in H1|].
      simpl in Heq. rewrite Heq in H1.
      destruct (z3_check _); try done. injection H1 as <- <-. simpl.
      rewrite length_app. simpl. lia.
  - intros c0 st0 x st0' H2.
    destruct (cached_cases c0 st0)
      as [(m0 & _ & Heq)|[(_ & _ & Heq)|(cs & mi & ma & e & _ & _ & [Heq|(_ & _ & Heq)])]];
      rewrite Heq in H2; try done.
    + by injection H2 as <- <-.
    + by injection H2 as <- <-.
    + simpl in H2. destruct (z3_check _); try done; by injection H2 as <- <-.
Qed.

(** C3, as the code has it. With [enforce_execution_time] set, a call that
    finds the budget spent (the minimum of the configured timeout and the
    remaining time less 500 is at most zero) hands nothing to the solver,
    and raises [UnsatError] at once unless the table answers it; and every
    session a call hands to the solver carries exactly that minimum as its
    timeout. *)
Theorem get_model_budget c cs mi ma st :
  bind_args c = Some (cs, mi, ma, true) →
  let t := Z.min (solver_timeout st) (time_remaining st - 500) in
  (t ≤ 0 → solver_calls (snd (get_model z3_check z3_model c st)) = solver_calls st) ∧
  (t ≤ 0 → cache_get c (lru st) = None → get_model z3_check z3_model c st = (Raise UnsatError, st)) ∧
  (∀ s, solver_calls (snd (get_model z3_check z3_model c st)) = solver_calls st ++ [s] →
        timeout s = Some t ∧ 0 < t).
Proof.
  intros Hb t. split; [|split].
  - intros Ht.
    destruct (cached_cases c st) as [(m & _ & ->)|[(_ & _ & ->)|(cs' & mi' & ma' & e & _ & Hb' & H)]];
      try done.
    rewrite Hb in Hb'. injection Hb' as <- <- <- <-.
    destruct H as [->|(Hpos & _)]; [done|].
    specialize (Hpos eq_refl). unfold effective_timeout in Hpos. subst t. lia.
  - intros Ht Hget. rewrite (cached_miss c cs mi ma true st Hget Hb).
    by rewrite body_budget_spent.
  - intros s Hlog.
    destruct (cached_session c st s Hlog) as (cs' & mi' & ma' & e & _ & Hb' & Hpos & _ & -> & _).
    rewrite Hb in Hb'. injection Hb' as <- <- <- <-.
    split; [apply session_timeout|]. by apply Hpos.
Qed.

(** C4. A call whose constraints hold a literal [False] raises [UnsatError]
    and leaves the state as it was, so the solver is not invoked; and the
    session a call hands to the solver asserts exactly the entries that are
    not Python booleans, in order: no boolean literal reaches the solver. *)
Theorem get_model_literals c cs mi ma e st :
  table_ok (lru st) →
  bind_args c = Some (cs, mi, ma, e) →
  (PyBool false ∈ cs → get_model z3_check z3_model c st = (Raise UnsatError, st)) ∧
  (∀ s, solver_calls (snd (get_model z3_check z3_model c st)) = solver_calls st ++ [s] →
        assertions s = filter (λ x, is_bool x = false) cs ∧
        ∀ b, PyBool b ∉ assertions s).
Proof.
  intros Hok Hb. split.
  - intros Hin.
    assert (cache_get c (lru st) = None) as Hget.
    { destruct (cache_get c (lru st)) as [m|] eqn:Hget; [|done].
      apply cache_get_elem in Hget.
      destruct (Hok _ _ Hget) as (cs' & mi' & ma' & e' & Hb' & Hnin).
      rewrite Hb in Hb'. injection Hb' as <- <- <- <-. done. }
    rewrite (cached_miss c cs mi ma e st Hget Hb).
    by rewrite body_literal_false.
  - intros s Hlog.
    destruct (cached_session c st s Hlog) as (cs' & mi' & ma' & e' & _ & Hb' & _ & _ & -> & _).
    rewrite Hb in Hb'. injection Hb' as <- <- <- <-.
    rewrite session_assertions. split; [done|].
    intros b Hin. apply list_elem_of_filter in Hin as [Hin _]. done.
Qed.

(** C5. Whenever a call hands a session to the solver: on [sat] it returns
    the solver's model; on [unknown], a timeout included, it raises
    [UnsatError], the very exception it raises on [unsat]. *)
Theorem get_model_check_result c st s :
  solver_calls (snd (get_model z3_check z3_model c st)) = solver_calls st ++ [s] →
  match z3_check s with
  | sat => fst (get_model z3_check z3_model c st) = Ok (z3_model s)
  | unknown => fst (get_model z3_check z3_model c st) = Raise UnsatError
  | unsat => fst (get_model z3_check z3_model c st) = Raise UnsatError
  end.
Proof.
  intros Hlog.
  destruct (cached_session c st s Hlog) as (cs & mi & ma & e & _ & _ & _ & _ & _ & ->).
  by destruct (z3_check s).
Qed.

End solver_facts.

(** *** The solve cache on sample calls *)

(** C2: the claim fails when the first call raises. The solver answers
    [unsat]; the call raises [UnsatError], nothing is stored, and the same
    call made again invokes the solver a second time. *)
Lemma get_model_unsat_twice_counterexample :
  let st0 := fresh_state 60000 in
  let st1 := snd (get_model (answers unsat) (gives zero_model) symbol_call st0) in
  let st2 := snd (get_model (answers unsat) (gives zero_model) symbol_call st1) in
  fst (get_model (answers unsat) (gives zero_model) symbol_call st0) = Raise UnsatError ∧
  lru st1 = [] ∧
  length (solver_calls st0) = 0%nat ∧
  length (solver_calls st2) = 2%nat.
Proof. vm_compute. repeat split; reflexivity. Qed.

Lemma get_model_second_call_cached_witness :
  let st0 := fresh_state 60000 in
  let st1 := snd (get_model (answers sat) (gives zero_model) symbol_call st0) in
  get_model (answers sat) (gives zero_model) symbol_call st0 = (Ok zero_model, st1) ∧
  (fst (get_model (answers sat) (gives zero_model) symbol_call (set_time_remaining 100 st1))
     = Ok zero_model ∧
   solver_calls (snd (get_model (answers sat) (gives zero_model) symbol_call
                        (set_time_remaining 100 st1))) = solver_calls st1 ∧
   (length (solver_calls st1) ≤ length (solver_calls st0) + 1)%nat ∧
   (∀ c0 st0 x st0', get_model (answers sat) (gives zero_model) c0 st0 = (Raise x, st0') →
                     lru st0' = lru st0)).
Proof.
  split.
  - vm_compute. reflexivity.
  - apply (get_model_second_call_cached (answers sat) (gives zero_model) symbol_call
             (fresh_state 60000) zero_model). vm_compute. reflexivity.
Defined.

(** C3: the claim fails on a hit. The first call, with a minute left, stores
    a model; the same call made with 100 milliseconds left computes no
    timeout at all and returns the stored model instead of raising. *)
Lemma get_model_budget_counterexample :
  let st1 := snd (get_model (answers sat) (gives zero_model) symbol_call (fresh_state 60000)) in
  let st2 := set_time_remaining 100 st1 in
  bind_args symbol_call = Some ([SmtBool (BoolSym "c"); PyBool true], [], [], true) ∧
  Z.min (solver_timeout st2) (time_remaining st2 - 500) = -400 ∧
  fst (get_model (answers sat) (gives zero_model) symbol_call st2) = Ok zero_model.
Proof. vm_compute. repeat split; reflexivity. Qed.

Lemma get_model_budget_witness :
  let st := fresh_state 400 in
  let t := Z.min (solver_timeout st) (time_remaining st - 500) in
  bind_args symbol_call = Some ([SmtBool (BoolSym "c"); PyBool true], [], [], true) ∧
  ((t ≤ 0 → solver_calls (snd (get_model (answers sat) (gives zero_model) symbol_call st))
            = solver_calls st) ∧
   (t ≤ 0 → cache_get symbol_call (lru st) = None →
    get_model (answers sat) (gives zero_model) symbol_call st = (Raise UnsatError, st)) ∧
   (∀ s, solver_calls (snd (get_model (answers sat) (gives zero_model) symbol_call st))
         = solver_calls st ++ [s] → timeout s = Some t ∧ 0 < t)).
Proof.
  split.
  - vm_compute. reflexivity.
  - apply (get_model_budget (answers sat) (gives zero_model) symbol_call
             [SmtBool (BoolSym "c"); PyBool true] [] [] (fresh_state 400)).
    vm_compute. reflexivity.
Defined.

(** With time left the session carries the computed timeout. *)
Example get_model_timeout_passed :
  map timeout (solver_calls (snd (get_model (answers sat) (gives zero_model) symbol_call
                                    (fresh_state 3000)))) = [Some 2500].
Proof. vm_compute. reflexivity. Qed.

Lemma get_model_literals_witness :
  let st := fresh_state 60000 in
  let cs := [SmtBool (BoolSym "c"); PyBool true; PyBool false] in
  table_ok (lru st) ∧
  bind_args false_call = Some (cs, [BVSym "v" 256], [], true) ∧
  ((PyBool false ∈ cs →
    get_model (answers sat) (gives zero_model) false_call st = (Raise UnsatError, st)) ∧
   (∀ s, solver_calls (snd (get_model (answers sat) (gives zero_model) false_call st))
         = solver_calls st ++ [s] →
         assertions s = filter (λ x, is_bool x = false) cs ∧ ∀ b, PyBool b ∉ assertions s)).
Proof.
  split; [apply table_ok_nil|]. split; [vm_compute; reflexivity|].
  apply (get_model_literals (answers sat) (gives zero_model) false_call
           [SmtBool (BoolSym "c"); PyBool true; PyBool false] [BVSym "v" 256] [] true
           (fresh_state 60000)).
  - apply table_ok_nil.
  - vm_compute. reflexivity.
Defined.

(** The literal [True] is dropped from what the solver is given. *)
Example get_model_true_stripped :
  map assertions (solver_calls (snd (get_model (answers sat) (gives zero_model) symbol_call
                                       (fresh_state 60000)))) = [[SmtBool (BoolSym "c")]].
Proof. vm_compute. reflexivity. Qed.

Lemma get_model_check_result_witness :
  let st := fresh_state 60000 in
  let s := session 10000 [SmtBool (BoolSym "c"); PyBool true] [] [] in
  solver_calls (snd (get_model (answers unknown) (gives zero_model) symbol_call st))
    = solver_calls st ++ [s] ∧
  fst (get_model (answers unknown) (gives zero_model) symbol_call st) = Raise UnsatError.
Proof.
  split.
  - vm_compute. reflexivity.
  - apply (get_model_check_result (answers unknown) (gives zero_model) symbol_call
             (fresh_state 60000)
             (session 10000 [SmtBool (BoolSym "c"); PyBool true] [] [])).
    vm_compute. reflexivity.
Defined.

Example get_model_sat_returns_model :
  fst (get_model (answers sat) (gives zero_model) symbol_call (fresh_state 60000))
  = Ok zero_model.
Proof. vm_compute. reflexivity. Qed.

(* ===================================================================== *)
(** ** The minimisation constraints *)
(* ===================================================================== *)

Lemma extend_nil {A : Type} r (h : list (list A)) : extend r [] h = h.
Proof. apply list_alter_id. intros x. apply app_nil_r. Qed.

Lemma extend_extend {A : Type} r (a b : list A) h :
  extend r b (extend r a h) = extend r (a ++ b) h.
Proof.
  apply list_eq. intros j. unfold extend.
  destruct (decide (r = j)) as [->|Hne].
  - rewrite !list_lookup_alter_eq. destruct (h !! j); simpl; [|done].
    by rewrite app_assoc.
  - by rewrite !list_lookup_alter_ne.
Qed.

Lemma extend_lookup {A : Type} r (a : list A) h :
  extend r a h !! r = (λ l, l ++ a) <$> h !! r.
Proof. apply list_lookup_alter_eq. Qed.

Lemma extend_lookup_ne {A : Type} r j (a : list A) h :
  r ≠ j → extend r a h !! j = h !! j.
Proof. apply list_lookup_alter_ne. Qed.

Lemma with_stores_same st : with_stores (constraints_store st) (lists_store st) st = st.
Proof. by destruct st. Qed.

Lemma transactions_loop max_size ws r rm ts st :
  for_each ts (λ transaction,
      let max_calldata_size := BitVecVal max_size 256 in
      _ ← append_constraint r
            (SmtBool (UGE max_calldata_size (calldatasize (call_data transaction))));
      _ ← append_minimize rm (calldatasize (call_data transaction));
      _ ← append_minimize rm (call_value transaction);
      append_constraint r
        (SmtBool (UGE (BitVecVal caller_balance_bound 256)
                      (starting_balance ws (caller transaction))))) st
  = (Ok tt,
     with_stores
       (extend r (flat_map (transaction_constraints max_size ws) ts) (constraints_store st))
       (extend rm (flat_map transaction_objectives ts) (lists_store st)) st).
Proof.
  revert st. induction ts as [|tx ts IH]; intros st.
  - simpl. unfold mret, M_ret. by rewrite !extend_nil, with_stores_same.
  - simpl for_each. unfold mbind, M_bind at 1.
    unfold mbind, M_bind, append_constraint, append_minimize, modify. simpl.
    unfold mbind, M_bind in IH. rewrite IH. f_equal. unfold with_stores. simpl.
    destruct st; simpl. unfold set_lists_store, set_constraints_store; simpl.
    f_equal.
    + repeat match goal with
             | |- context [alter (λ l, l ++ ?x) r ?h] => change (alter (λ l, l ++ x) r h) with (extend r x h)
             end.
      rewrite !(extend_extend r). f_equal.
    + repeat match goal with
             | |- context [alter (λ l, l ++ ?x) rm ?h] => change (alter (λ l, l ++ x) rm h) with (extend rm x h)
             end.
      rewrite !(extend_extend rm). f_equal.
Qed.

Lemma accounts_loop ws r (l : list Account) st :
  for_each l (λ account,
      append_constraint r
        (SmtBool (UGE (BitVecVal account_balance_bound 256)
                      (starting_balance ws (address account))))) st
  = (Ok tt,
     set_constraints_store
       (extend r (map (account_constraint ws) l) (constraints_store st)) st).
Proof.
  revert st. induction l as [|a l IH]; intros st.
  - simpl. unfold mret, M_ret. rewrite extend_nil. by destruct st.
  - simpl for_each. unfold mbind, M_bind, append_constraint, modify.
    unfold mbind, M_bind, append_constraint, modify in IH. rewrite IH.
    f_equal. destruct st; simpl. unfold set_constraints_store; simpl. f_equal.
    repeat match goal with
           | |- context [alter (λ l, l ++ ?x) r ?h] => change (alter (λ l, l ++ x) r h) with (extend r x h)
           end.
    by rewrite extend_extend.
Qed.

(** The whole function: the reference comes back, the object it names has
    grown by [minimisation_constraints], the list has grown by the
    objectives and is returned as a tuple. *)
Lemma set_minimisation_constraints_spec ts r rm max_size ws st :
  let ls := extend rm (flat_map transaction_objectives ts) (lists_store st) in
  _set_minimisation_constraints ts r rm max_size ws st
  = (Ok (r, default [] (ls !! rm)),
     with_stores (extend r (minimisation_constraints ts max_size ws) (constraints_store st))
       ls st).
Proof.
  intros ls. unfold _set_minimisation_constraints.
  unfold mbind at 1, M_bind at 1. rewrite transactions_loop.
  unfold mbind at 1, M_bind at 1. rewrite accounts_loop.
  unfold mbind, M_bind, read_list, gets, mret, M_ret. simpl.
  f_equal. unfold with_stores, set_lists_store, set_constraints_store. simpl.
  f_equal. unfold minimisation_constraints. by rewrite extend_extend.
Qed.

(** A 256-bit numeral below [2^256] evaluates to itself. *)
Lemma eval_BitVecVal m v : 0 ≤ v < 2 ^ 256 → eval m (BitVecVal v 256) = v.
Proof.
  intros Hv. unfold BitVecVal. simpl eval.
  change (Z.of_N 256) with 256. rewrite Z.mod_mod by lia. by apply Z.mod_small.
Qed.

Lemma account_constraint_holds ws account m :
  satisfies m (account_constraint ws account) = true ↔
  eval m (starting_balance ws (address account)) ≤ 10 ^ 20.
Proof.
  unfold account_constraint. cbn [satisfies holds].
  rewrite eval_BitVecVal by (unfold account_balance_bound; lia).
  unfold account_balance_bound. rewrite Z.leb_le. by change (10 ^ 20) with 100000000000000000000.
Qed.

(** C1, as the code has it. The bound on an account's starting balance is
    10^20, a hundred ether in wei, and not 10^23. The object the reference
    names grows by [minimisation_constraints], which holds, for every account
    of the world state, referenced by a transaction or not, the constraint
    that its starting balance is at most 10^20. A model meets that constraint
    exactly when it gives the account a starting balance of at most 10^20:
    exactly 10^20 is accepted. When the constraints passed in force the
    balance of an account strictly above 10^20, solving the grown set with a
    sound solver raises [UnsatError]. *)
Theorem set_minimisation_constraints_account_bound z3_check z3_model
    ts r rm max_size ws st old :
  constraints_store st !! r = Some old →
  let out := _set_minimisation_constraints ts r rm max_size ws st in
  let grown := old ++ minimisation_constraints ts max_size ws in
  (∃ objectives, fst out = Ok (r, objectives)) ∧
  constraints_store (snd out) !! r = Some grown ∧
  ∀ account, account ∈ values (accounts ws) →
    account_constraint ws account ∈ grown ∧
    (∀ m, satisfies m (account_constraint ws account) = true ↔
          eval m (starting_balance ws (address account)) ≤ 10 ^ 20) ∧
    (solver_sound z3_check z3_model →
     (∀ m, Forall (λ c, satisfies m c = true) old →
           10 ^ 20 < eval m (starting_balance ws (address account))) →
     ∀ c mi ma e st0,
       table_sound (lru st0) → bind_args c = Some (grown, mi, ma, e) →
       fst (get_model z3_check z3_model c st0) = Raise UnsatError).
Proof.
  intros Hold out grown. subst out. rewrite set_minimisation_constraints_spec. simpl.
  split; [eauto|]. split.
  { rewrite extend_lookup, Hold. done. }
  intros account Hin.
  assert (account_constraint ws account ∈ grown) as Hgrown.
  { apply elem_of_app. right. unfold minimisation_constraints.
    apply elem_of_app. right. by apply list_elem_of_fmap_2. }
  split; [done|]. split; [apply account_constraint_holds|].
  intros Hsound Hforce c mi ma e st0 Htable Hb.
  destruct (cached_unsatisfiable z3_check z3_model c grown mi ma e st0 Hsound Htable Hb)
    as [->|[s ->]]; try done.
  intros m Hall. subst grown. apply Forall_app in Hall as [Hold_all Hmin].
  specialize (Hforce m Hold_all).
  assert (satisfies m (account_constraint ws account) = true) as Hacc.
  { eapply Forall_forall in Hmin; [done|]. unfold minimisation_constraints.
    apply elem_of_app. right. by apply list_elem_of_fmap_2. }
  apply account_constraint_holds in Hacc.
  change (10 ^ 20) with 100000000000000000000 in *.
  unfold starting_balance in *. cbn [eval] in *. lia.
Qed.

(** *** The bound on a sample world state *)

(** C1: the claim fails. For a world state of one account and no transaction
    the only constraint appended bounds the balance by 10^20; a starting
    balance of exactly 10^23 breaks it, and so does 10^20 + 1, while 10^20
    meets it. *)
Lemma account_bound_counterexample :
  let st' := snd (_set_minimisation_constraints [] 0 0 5000 sample_world one_object_state) in
  let appended := default [] (constraints_store st' !! 0%nat) in
  appended = [SmtBool (UGE (BVVal (10 ^ 20) 256) (Select "balance" (BVVal 0xaffe 256)))] ∧
  eval (balance_model (10 ^ 23)) (starting_balance sample_world (address sample_account))
    = 10 ^ 23 ∧
  forallb (satisfies (balance_model (10 ^ 23))) appended = false ∧
  forallb (satisfies (balance_model (10 ^ 20 + 1))) appended = false ∧
  forallb (satisfies (balance_model (10 ^ 20))) appended = true.
Proof. vm_compute. repeat split; reflexivity. Qed.

Lemma set_minimisation_constraints_account_bound_witness :
  let out := _set_minimisation_constraints [] 0 0 5000 sample_world one_object_state in
  constraints_store one_object_state !! 0%nat = Some [] ∧
  (∃ objectives, fst out = Ok (0%nat, objectives)) ∧
  constraints_store (snd out) !! 0%nat
    = Some ([] ++ minimisation_constraints [] 5000 sample_world) ∧
  ∀ account, account ∈ values (accounts sample_world) →
    account_constraint sample_world account
      ∈ [] ++ minimisation_constraints [] 5000 sample_world ∧
    ∀ m, satisfies m (account_constraint sample_world account) = true ↔
         eval m (starting_balance sample_world (address account)) ≤ 10 ^ 20.
Proof.
  destruct (set_minimisation_constraints_account_bound (answers unsat) (gives zero_model)
              [] 0 0 5000 sample_world one_object_state [] eq_refl)
    as (Hout & Hstore & Haccounts).
  split; [reflexivity|]. split; [exact Hout|]. split; [exact Hstore|].
  intros account Hin. destruct (Haccounts account Hin) as (Hmem & Hiff & _).
  split; [exact Hmem|exact Hiff].
Defined.

(* ===================================================================== *)
(** ** The concrete state extractor *)
(* ===================================================================== *)

Section extractor_facts.

Variable z3_check : Optimize → CheckSatResult.
Variable z3_model : Optimize → Model.
Variable hash_matcher : str.
Variable store_function : list N.
Variable concrete_keccak : Z → N → Z.

Abbreviation resolve := (_replace_with_actual_sha hash_matcher store_function concrete_keccak).
Abbreviation sequence_of :=
  (get_transaction_sequence z3_check z3_model hash_matcher store_function concrete_keccak).

Lemma get_transaction_sequence_unfold gs r st :
  let old := default [] (constraints_store st !! r) in
  let st1 :=
    with_stores
      (constraints_store st
         ++ [old ++ minimisation_constraints (transaction_sequence gs) 5000 (gs_world_state gs)])
      (lists_store st ++ [flat_map transaction_objectives (transaction_sequence gs)]) st in
  sequence_of gs r st =
    match get_model z3_check z3_model (solver_call gs old) st1 with
    | (Ok model, st2) =>
        (extract hash_matcher store_function concrete_keccak gs model, st2)
    | (Raise e, st2) => (Raise e, st2)
    end.
Proof.
  intros old st1. unfold get_transaction_sequence.
  unfold mbind at 1, M_bind at 1, copy_constraints.
  unfold mbind at 1, M_bind at 1, new_list. simpl lists_store.
  unfold mbind at 1, M_bind at 1. rewrite set_minimisation_constraints_spec.
  cbv zeta. unfold mbind at 1, M_bind at 1, read_constraints, gets.
  set (st1' := with_stores _ _ _).
  assert (st1' = st1) as ->.
  { subst st1' st1. unfold with_stores, set_lists_store, set_constraints_store. simpl.
    f_equal.
    - unfold extend. rewrite <- (Nat.add_0_r (length (constraints_store st))).
      rewrite alter_app_r. simpl. done.
    - unfold extend. rewrite <- (Nat.add_0_r (length (lists_store st))).
      rewrite alter_app_r. simpl. done. }
  cbn [lists_store set_lists_store set_constraints_store].
  assert (default [] (extend (length (lists_store st))
                        (flat_map transaction_objectives (transaction_sequence gs))
                        (lists_store st ++ [[]]) !! length (lists_store st))
          = flat_map transaction_objectives (transaction_sequence gs)) as ->.
  { rewrite extend_lookup. rewrite lookup_app_r by lia. by rewrite Nat.sub_diag. }
  assert (default [] (constraints_store st1 !! length (constraints_store st))
          = old ++ minimisation_constraints (transaction_sequence gs) 5000 (gs_world_state gs))
    as ->.
  { subst st1. simpl. rewrite lookup_app_r by lia. by rewrite Nat.sub_diag. }
  fold (solver_call gs old).
  unfold mbind at 1, M_bind at 1.
  destruct (get_model z3_check z3_model (solver_call gs old) st1) as [[model|e] st2]; [|done].
  unfold extract. destruct (transaction_sequence gs) as [|first ts] eqn:Hts; [done|].
  unfold mbind at 1, M_bind at 1, lift.
  destruct (map_result _ _) as [cts|e]; [|done]. simpl.
  unfold mbind, M_bind, lift, mret, M_ret, result_bind, result_ret, creation_code, min_price_dict.
  by destruct (_replace_with_actual_sha _ _ _ _ _ _).
Qed.

(** [get_model] touches no object. *)
Lemma get_model_stores c st :
  constraints_store (snd (get_model z3_check z3_model c st)) = constraints_store st.
Proof.
  destruct (cached_cases z3_check z3_model c st)
    as [(m & _ & ->)|[(_ & _ & ->)|(cs & mi & ma & e & _ & _ & [->|(_ & _ & ->)])]];
    try done.
  by destruct (z3_check _).
Qed.

(** The table keeps its invariant through an extraction, which changes it
    only through [get_model]. *)
Lemma get_transaction_sequence_table_ok gs r st :
  table_ok (lru st) → table_ok (lru (snd (sequence_of gs r st))).
Proof.
  intros Hok. rewrite get_transaction_sequence_unfold. cbv zeta.
  match goal with |- context [get_model _ _ ?c ?s] =>
    pose proof (cached_table_ok z3_check z3_model c s Hok) as Hok';
    destruct (get_model z3_check z3_model c s) as [[model|e] st2] end; done.
Qed.

(** C10. The call leaves the caller's constraints as they were, whether it
    returns or raises: the store after the call is the store before it
    followed by one new object, the copy the constraints were appended to. *)
Theorem get_transaction_sequence_keeps_constraints gs r st :
  (r < length (constraints_store st))%nat →
  let st' := snd (get_transaction_sequence z3_check z3_model hash_matcher store_function
                    concrete_keccak gs r st) in
  constraints_store st' !! r = constraints_store st !! r ∧
  constraints_store st' =
    constraints_store st
    ++ [default [] (constraints_store st !! r)
        ++ minimisation_constraints (transaction_sequence gs) 5000 (gs_world_state gs)].
Proof.
  intros Hr st'.
  assert (constraints_store st' =
    constraints_store st
    ++ [default [] (constraints_store st !! r)
        ++ minimisation_constraints (transaction_sequence gs) 5000 (gs_world_state gs)]) as Hst.
  { subst st'. rewrite get_transaction_sequence_unfold. cbv zeta.
    match goal with |- context [get_model _ _ ?c ?s] =>
      pose proof (get_model_stores c s) as Hs;
      destruct (get_model z3_check z3_model c s) as [[model|e] st2] end; simpl in *; by rewrite Hs. }
  split; [|done]. rewrite Hst. by apply lookup_app_l.
Qed.

End extractor_facts.

(* ===================================================================== *)
(** ** Facts about strings *)
(* ===================================================================== *)

Example str_replace_all : str_replace (lit "ab") (lit "x") (lit "ababab") = lit "xxx".
Proof. reflexivity. Qed.

Example str_replace_no_overlap : str_replace (lit "aba") (lit "c") (lit "ababa") = lit "cba".
Proof. reflexivity. Qed.

Example str_replace_empty : str_replace [] (lit "-") (lit "abc") = lit "-a-b-c-".
Proof. reflexivity. Qed.

Example range_step_windows : range_step 10 200 64 = [10; 74; 138]%nat.
Proof. reflexivity. Qed.

Example hex_negative : hex (-255) = lit "-0xff".
Proof. reflexivity. Qed.

Example zfill_address : zfill 40 (fmt_x 0xaffe) = lit "000000000000000000000000000000000000affe".
Proof. reflexivity. Qed.

Example byte_hex_pads : map byte_hex [0; 10; 16; 255] = [lit "00"; lit "0a"; lit "10"; lit "ff"].
Proof. reflexivity. Qed.

Example int16_reads :
  int16 (lit "00fF") = Some 255 ∧ int16 (lit " -0x_1f ") = Some (-31) ∧
  int16 (lit "f_f") = Some 255 ∧ int16 (lit "0x") = None ∧ int16 (lit "f__f") = None ∧
  int16 (lit "fg") = None ∧ int16 [] = None.
Proof. repeat split; reflexivity. Qed.

Lemma startswith_refl s : startswith s s = true.
Proof. induction s as [|c s IH]; simpl; [done|]. by rewrite decide_True. Qed.

Lemma startswith_app p s : startswith p (p ++ s) = true.
Proof. induction p as [|c p IH]; simpl; [done|]. by rewrite decide_True. Qed.



Lemma range_step_ge start stop step i :
  i ∈ range_step start stop step → (start ≤ i)%nat.
Proof.
  unfold range_step. intros Hin. apply list_elem_of_fmap in Hin as (j & -> & _). lia.
Qed.

Lemma replace_from_Forall (P : ascii → Prop) old new skip s :
  Forall P new → Forall P s → Forall P (replace_from old new skip s).
Proof.
  intros Hnew. revert skip. induction s as [|c s IH]; intros skip Hs; simpl; [done|].
  inversion Hs as [|? ? Hc Hs']; subst.
  destruct skip as [|k]; [|by apply IH].
  destruct (startswith old (c :: s)).
  - apply Forall_app. split; [done|by apply IH].
  - constructor; [done|by apply IH].
Qed.

Lemma str_replace_Forall (P : ascii → Prop) old new s :
  Forall P new → Forall P s → Forall P (str_replace old new s).
Proof.
  intros Hnew Hs. destruct old as [|o old]; simpl str_replace.
  - apply Forall_app. split; [done|].
    induction Hs as [|c s Hc Hs IH]; simpl; [done|].
    constructor; [done|]. apply Forall_app. by split.
  - by apply replace_from_Forall.
Qed.

(** The digits [hex] writes are hexadecimal digits. *)
Lemma of_pos_hex_string : ∀ (p : positive) (rest : string),
  hex_string (lit rest) → hex_string (lit (HexString.Raw.of_pos p rest)).
Proof.
  fix of_pos_hex_string 1. intros p rest H.
  do 4 try destruct p as [p|p|]; cbn [HexString.Raw.of_pos];
    repeat first [ assumption
                 | apply of_pos_hex_string
                 | apply Forall_cons; split; [reflexivity|] ].
Qed.

Lemma hex_digits (k : Z) : 0 ≤ k → ∃ digits, hex k = lit "0x" ++ digits ∧ hex_string digits.
Proof.
  intros Hk. destruct k as [|p|p]; [| |lia].
  - exists (lit "0"). split; [done|]. by repeat constructor.
  - exists (lit (HexString.Raw.of_pos p "")). split; [done|].
    apply of_pos_hex_string. constructor.
Qed.

(** A hexadecimal digit is no white space, sign, underscore or x. *)
Lemma hex_digit_plain c :
  is_hex_digit c = true →
  is_space c = false ∧ c ≠ "-"%char ∧ c ≠ "+"%char ∧ c ≠ "_"%char ∧
  c ≠ "x"%char ∧ c ≠ "X"%char.
Proof.
  destruct c as [b0 b1 b2 b3 b4 b5 b6 b7].
  destruct b0, b1, b2, b3, b4, b5, b6, b7; vm_compute; intros H; try discriminate H;
    repeat split; discriminate.
Qed.

Lemma lstrip_plain c s : is_space c = false → lstrip (c :: s) = c :: s.
Proof. intros H. simpl. by rewrite H. Qed.

Lemma strip_hex s : hex_string s → strip s = s.
Proof.
  intros Hs. unfold strip.
  assert (∀ t, hex_string t → lstrip t = t) as Hl.
  { intros t Ht. destruct Ht as [|c t Hc Ht]; [done|].
    apply lstrip_plain. by apply hex_digit_plain in Hc as [? _]. }
  rewrite (Hl s Hs), Hl; [apply reverse_involutive|].
  by apply Forall_reverse.
Qed.

Lemma digits16_hex s acc after_digit :
  hex_string s → s ≠ [] ∨ after_digit = true → ∃ n, digits16 acc after_digit s = Some n.
Proof.
  intros Hs. revert acc after_digit.
  induction Hs as [|c s Hc Hs IH]; intros acc after_digit Hne; simpl.
  - destruct Hne as [Hne| ->]; [done|eauto].
  - pose proof (hex_digit_plain c Hc) as (_ & _ & _ & Hu & _).
    rewrite decide_False by done.
    unfold is_hex_digit in Hc. destruct (ascii_to_digit c); [|done].
    apply IH. by right.
Qed.

Lemma int16_hex s : hex_string s → s ≠ [] → ∃ n, int16 s = Some n.
Proof.
  intros Hs Hne. unfold int16. rewrite strip_hex by done.
  destruct s as [|c0 s]; [done|].
  inversion Hs as [|? ? Hc0 Hs']; subst.
  pose proof (hex_digit_plain c0 Hc0) as (_ & Hminus & Hplus & _).
  rewrite !decide_False by done.
  assert (∃ n, digits16 0 false (c0 :: s) = Some n) as [n Hn].
  { apply digits16_hex; [done|by left]. }
  destruct s as [|c1 s].
  - rewrite Hn. eauto.
  - inversion Hs' as [|? ? Hc1 _]; subst.
    pose proof (hex_digit_plain c1 Hc1) as (_ & _ & _ & _ & Hx & HX).
    rewrite (bool_decide_eq_false_2 (c1 = "x"%char ∨ c1 = "X"%char)) by tauto.
    rewrite andb_false_r. rewrite Hn. eauto.
Qed.

(* ===================================================================== *)
(** ** Facts about loops and dictionaries *)
(* ===================================================================== *)

Lemma fold_result_inv {A S : Type} (P : S → Prop) (Q : A → Prop)
    (body : S → A → result S) l s s' :
  (∀ s a s', P s → Q a → body s a = Ok s' → P s') →
  Forall Q l → P s → fold_result body l s = Ok s' → P s'.
Proof.
  intros Hstep Hl. revert s. induction Hl as [|a l Ha Hl IH]; intros s Hs; simpl.
  - by intros [= <-].
  - unfold mbind, result_bind. destruct (body s a) as [s1|e] eqn:Hb; [|done].
    apply IH. by eapply Hstep.
Qed.

Lemma fold_result_total {A S : Type} (P : S → Prop) (Q : A → Prop)
    (body : S → A → result S) l s :
  (∀ s a, P s → Q a → ∃ s', body s a = Ok s' ∧ P s') →
  Forall Q l → P s → ∃ s', fold_result body l s = Ok s' ∧ P s'.
Proof.
  intros Hstep Hl. revert s. induction Hl as [|a l Ha Hl IH]; intros s Hs; simpl.
  - eauto.
  - destruct (Hstep s a Hs Ha) as (s1 & -> & Hs1). simpl. by apply IH.
Qed.

Lemma fold_result_id {A S : Type} (body : S → A → result S) l s :
  (∀ a, a ∈ l → body s a = Ok s) → fold_result body l s = Ok s.
Proof.
  induction l as [|a l IH]; intros H; simpl; [done|].
  rewrite H by (by left). simpl. apply IH. intros b Hb. apply H. by right.
Qed.

Lemma map_result_Forall2 {A B : Type} (f : A → result B) l bs :
  map_result f l = Ok bs → Forall2 (λ a b, f a = Ok b) l bs.
Proof.
  revert bs. induction l as [|a l IH]; intros bs; simpl.
  - intros [= <-]. constructor.
  - unfold mbind, result_bind, mret, result_ret.
    destruct (f a) as [b|e] eqn:Hb; [|done].
    destruct (map_result f l) as [bs'|e]; [|done].
    intros [= <-]. constructor; [done|]. by apply IH.
Qed.

Lemma map_result_total {A B : Type} (f : A → result B) l :
  Forall (λ a, ∃ b, f a = Ok b) l → ∃ bs, map_result f l = Ok bs.
Proof.
  induction 1 as [|a l [b Hb] Hl [bs IH]]; simpl; [eauto|].
  rewrite Hb, IH. simpl. eauto.
Qed.


(** Distinct keys are appended in order. *)
Lemma keys_dict_set_new {K V : Type} `{EqDecision K} (k : K) (v : V) d :
  k ∉ keys d → keys (dict_set k v d) = keys d ++ [k].
Proof.
  unfold keys. induction d as [|[k0 v0] d IH]; simpl; [done|].
  intros Hnin. destruct (decide (k = k0)) as [->|Hne]; simpl.
  - exfalso. apply Hnin. by left.
  - f_equal. apply IH. intros Hin. apply Hnin. by right.
Qed.

Lemma hex_inj a b : hex a = hex b → a = b.
Proof.
  unfold hex, lit. intros H.
  apply (f_equal string_of_list_ascii) in H.
  rewrite !string_of_list_ascii_of_string in H.
  apply (f_equal HexString.to_Z) in H. by rewrite !HexString.to_Z_of_Z in H.
Qed.




(* ===================================================================== *)
(** ** The hash preimage resolver *)
(* ===================================================================== *)

Lemma search_offset_ge code input : (10 ≤ search_offset code input)%nat.
Proof. unfold search_offset. destruct code; [destruct (contains _ _)|]; lia. Qed.

Section resolver_facts.

Variable hash_matcher : str.
Variable store_function : list N.
Variable concrete_keccak : Z → N → Z.
Variable model : Model.

Abbreviation window := (window_step hash_matcher store_function concrete_keccak model).
Abbreviation one_tx := (tx_step hash_matcher store_function concrete_keccak model).
Abbreviation resolver := (_replace_with_actual_sha hash_matcher store_function concrete_keccak model).

(** A width at which the inverse has no value is passed over. *)
Lemma find_input_loop_skip txs digest size rest input_ :
  inverse_value model size digest = None →
  find_input_loop model txs digest (size :: rest) input_
  = find_input_loop model txs digest rest input_.
Proof. intros H. simpl. by rewrite H. Qed.

(** No width with a value: no candidate. *)
Lemma find_input_loop_none txs digest sizes :
  (∀ size, size ∈ sizes → inverse_value model size digest = None) →
  find_input_loop model txs digest sizes None = None.
Proof.
  induction sizes as [|size rest IH]; intros H; [done|].
  rewrite find_input_loop_skip by (apply H; by left).
  apply IH. intros s Hs. apply H. by right.
Qed.

(** A candidate was found: some width has a value. *)
Lemma find_input_loop_some txs digest sizes acc input_ :
  find_input_loop model txs digest sizes acc = Some input_ →
  acc = Some input_ ∨ ∃ size v, size ∈ sizes ∧ inverse_value model size digest = Some v.
Proof.
  revert acc. induction sizes as [|size rest IH]; intros acc; simpl; [by left|].
  destruct (inverse_value model size digest) as [v|] eqn:Hv.
  - intros _. right. exists size, v. split; [by left|done].
  - intros H. destruct (IH _ H) as [?|(s & v & Hs & Hsv)]; [by left|].
    right. exists s, v. split; [by right|done].
Qed.

(** What a turn of the window loop can do: nothing, or one splice into the
    input of the transaction at hand. *)
Lemma window_outcome k s_index txs i txs' :
  window k s_index txs i = Ok txs' →
  txs' = txs ∨
  ∃ tx input_,
    txs !! k = Some tx ∧ is_marker_window hash_matcher (c_input tx) i = true ∧
    txs' = <[k := set_input (spliced concrete_keccak s_index i input_ (c_input tx)) tx]> txs.
Proof.
  unfold window_step. destruct (txs !! k) as [tx|] eqn:Hk; [|intros [= <-]; by left].
  destruct (negb _ || negb _) eqn:Hskip; [intros [= <-]; by left|].
  apply orb_false_elim in Hskip as [H1 H2].
  apply negb_false_iff in H1, H2.
  destruct (int16 _) as [n|]; [|done].
  destruct (find_input_loop _ _ _ _ _) as [input_|]; [|intros [= <-]; by left].
  intros [= <-]. right. exists tx, input_. split; [done|]. split; [|done].
  unfold is_marker_window. by rewrite H1, H2.
Qed.

(** Only inputs change: values, origins, addresses, the number and the order
    of the transactions stay. *)
Lemma window_keeps_fields k s_index txs i txs' :
  window k s_index txs i = Ok txs' →
  map (set_input []) txs' = map (set_input []) txs.
Proof.
  intros H. destruct (window_outcome _ _ _ _ _ H) as [->|(tx & input_ & Hk & _ & ->)]; [done|].
  rewrite list_fmap_insert. apply list_insert_id.
  rewrite list_lookup_fmap, Hk. done.
Qed.

Lemma one_tx_keeps_fields code txs k txs' :
  one_tx code txs k = Ok txs' →
  map (set_input []) txs' = map (set_input []) txs.
Proof.
  unfold tx_step. destruct (txs !! k) as [tx|]; [|by intros [= <-]].
  destruct (negb _); [by intros [= <-]|].
  apply (fold_result_inv (λ l, map (set_input []) l = map (set_input []) txs) (λ _, True));
    [|by apply Forall_true|done].
  intros s a s' Hs _ Hw. rewrite <- Hs. by eapply window_keeps_fields.
Qed.

Lemma resolver_keeps_fields code txs txs' :
  resolver txs code = Ok txs' →
  map (set_input []) txs' = map (set_input []) txs.
Proof.
  unfold _replace_with_actual_sha.
  apply (fold_result_inv (λ l, map (set_input []) l = map (set_input []) txs) (λ _, True));
    [|by apply Forall_true|done].
  intros s a s' Hs _ Hw. rewrite <- Hs. by eapply one_tx_keeps_fields.
Qed.

(** A transaction with no marker window is passed over. *)
Lemma one_tx_no_window code txs k tx :
  txs !! k = Some tx → marker_windows hash_matcher code tx = [] →
  one_tx code txs k = Ok txs.
Proof.
  intros Hk Hnone. unfold tx_step. rewrite Hk.
  unfold marker_windows in Hnone.
  destruct (contains hash_matcher (c_input tx)); [|done]. simpl.
  fold (search_offset code (c_input tx)).
  apply fold_result_id. intros i Hi.
  unfold window_step. rewrite Hk.
  assert (is_marker_window hash_matcher (c_input tx) i = false) as Hw.
  { destruct (is_marker_window hash_matcher (c_input tx) i) eqn:Hw; [|done].
    assert (i ∈ @nil nat) as Habs; [|by apply elem_of_nil in Habs].
    rewrite <- Hnone. apply list_elem_of_filter. by split. }
  unfold is_marker_window in Hw. apply andb_false_iff in Hw.
  destruct Hw as [->| ->]; simpl; [done|]. by rewrite orb_true_r.
Qed.


End resolver_facts.

Section resolver_totality.

Variable hash_matcher : str.
Variable store_function : list N.
Variable concrete_keccak : Z → N → Z.
Variable model : Model.

Lemma pad_hex_keccak_hex k :
  0 ≤ k → hex_string (drop 2 (pad_hex_keccak (hex k))).
Proof.
  intros Hk. destruct (hex_digits k Hk) as (digits & Hhex & Hdigits).
  unfold pad_hex_keccak. destruct (decide _).
  - simpl. apply Forall_app. split.
    + apply Forall_forall. intros c Hc. apply list_elem_of_In, repeat_spec in Hc. by subst.
    + rewrite Hhex. done.
  - rewrite Hhex. done.
Qed.

Lemma slice_hex i input :
  (10 ≤ i)%nat → hex_string (drop 10 input) → hex_string (slice i (i + 64) input).
Proof.
  intros Hi Hhex. unfold slice. apply Forall_take.
  replace i with (10 + (i - 10))%nat by lia. rewrite <- drop_drop. by apply Forall_drop.
Qed.

Lemma spliced_hex s_index i input_ input :
  (10 ≤ s_index)%nat → (s_index ≤ i)%nat →
  length (slice i (i + 64) input) = 64%nat →
  hex_string (drop 10 input) →
  hex_string (drop 10 (spliced concrete_keccak s_index i input_ input)).
Proof.
  intros Hs Hi Hlen Hhex. unfold spliced.
  assert (i + 64 ≤ length input)%nat as Hlong.
  { unfold slice in Hlen. rewrite length_take, length_drop in Hlen. lia. }
  rewrite drop_app_le by (rewrite length_take; lia).
  apply Forall_app. split.
  - replace s_index with (10 + (s_index - 10))%nat at 1 by lia.
    rewrite <- take_drop_commute. by apply Forall_take.
  - apply str_replace_Forall.
    + apply pad_hex_keccak_hex. unfold find_concrete_keccak.
      apply Z.mod_pos_bound. lia.
    + replace s_index with (10 + (s_index - 10))%nat by lia.
      rewrite <- drop_drop. by apply Forall_drop.
Qed.

(** The digest of a marker window can be read. *)
Lemma marker_window_digest input i :
  (10 ≤ i)%nat → hex_string (drop 10 input) →
  is_marker_window hash_matcher input i = true →
  ∃ n, int16 (slice i (i + 64) input) = Some n.
Proof.
  intros Hi Hhex Hw. unfold is_marker_window in Hw.
  apply andb_true_iff in Hw as [_ Hlen]. apply Nat.eqb_eq in Hlen.
  apply int16_hex; [by apply slice_hex|].
  intros Hnil. by rewrite Hnil in Hlen.
Qed.

Lemma window_total k s_index txs i :
  (10 ≤ s_index)%nat → (s_index ≤ i)%nat → Forall hex_input txs →
  ∃ txs', window_step hash_matcher store_function concrete_keccak model k s_index txs i
            = Ok txs' ∧ Forall hex_input txs'.
Proof.
  intros Hs Hi Hall. unfold window_step.
  destruct (txs !! k) as [tx|] eqn:Hk; [|eauto].
  assert (hex_input tx) as Htx.
  { eapply Forall_forall in Hall; [done|]. by eapply list_elem_of_lookup_2. }
  destruct (negb _ || negb _) eqn:Hskip; [eauto|].
  apply orb_false_elim in Hskip as [H1 H2]. apply negb_false_iff in H1, H2.
  destruct (marker_window_digest (c_input tx) i) as (n & ->); [lia|done| |].
  { unfold is_marker_window. by rewrite H1, H2. }
  destruct (find_input_loop _ _ _ _ _) as [input_|]; [|eauto].
  eexists. split; [done|]. apply Forall_insert; [done|].
  unfold hex_input. simpl. apply Nat.eqb_eq in H2.
  by apply (spliced_hex s_index i input_ (c_input tx)).
Qed.

Lemma one_tx_total code txs k :
  Forall hex_input txs →
  ∃ txs', tx_step hash_matcher store_function concrete_keccak model code txs k = Ok txs'
          ∧ Forall hex_input txs'.
Proof.
  intros Hall. unfold tx_step. destruct (txs !! k) as [tx|]; [|eauto].
  destruct (negb _); [eauto|].
  fold (search_offset code (c_input tx)).
  apply (fold_result_total (Forall hex_input)
           (λ i, search_offset code (c_input tx) ≤ i)%nat); [| |done].
  - intros s i Hs Hi. apply window_total; [apply search_offset_ge|done|done].
  - apply Forall_forall. intros i Hi. by apply range_step_ge in Hi.
Qed.

Lemma resolver_total txs code :
  Forall hex_input txs →
  ∃ txs', _replace_with_actual_sha hash_matcher store_function concrete_keccak model txs code
            = Ok txs' ∧ Forall hex_input txs'.
Proof.
  intros Hall. unfold _replace_with_actual_sha.
  apply (fold_result_total (Forall hex_input) (λ _, True)); [|by apply Forall_true|done].
  intros s k Hs _. by apply one_tx_total.
Qed.

End resolver_totality.

(* ===================================================================== *)
(** ** The extracted sequence *)
(* ===================================================================== *)




Section extractor_steps.

Variable z3_check : Optimize → CheckSatResult.
Variable z3_model : Optimize → Model.
Variable hash_matcher : str.
Variable store_function : list N.
Variable concrete_keccak : Z → N → Z.




End extractor_steps.

(* ===================================================================== *)
(** ** Sample runs *)
(* ===================================================================== *)

Lemma hex_string_forallb s : forallb is_hex_digit s = true → hex_string s.
Proof.
  intros H. apply Forall_forall. intros c Hc.
  rewrite forallb_forall in H. apply H. by apply list_elem_of_In.
Qed.


(** One window of marker text: the first run resolves it and leaves no
    marker window, the second changes nothing. *)
Example replace_with_actual_sha_resolved_stays :
  let run := λ txs, _replace_with_actual_sha marker one_width Keccak.concrete_keccak
                      inverse_zero_model txs None in
  let resolved :=
    lit "0xa9059cbb290decd9548b62a8d60345a988386fc84ba6bc95484008f6362f93160ef3e563" in
  run [call_with_input marker_input] = Ok [call_with_input resolved] ∧
  marker_windows marker None (call_with_input resolved) = [] ∧
  run [call_with_input resolved] = Ok [call_with_input resolved].
Proof. vm_compute. repeat split; reflexivity. Qed.

(** A model without any inverse leaves the marker text where it is. *)
Example replace_with_actual_sha_unresolved :
  _replace_with_actual_sha marker one_width Keccak.concrete_keccak zero_model
    [call_with_input marker_input] None = Ok [call_with_input marker_input].
Proof. vm_compute. reflexivity. Qed.

(** An input that is no hexadecimal string: [int] raises [ValueError] on the
    marker window, and nothing catches it. *)
Example replace_with_actual_sha_not_hex :
  _replace_with_actual_sha marker one_width Keccak.concrete_keccak inverse_zero_model
    [call_with_input (lit "0xa9059cbb" ++ lit "fffffff" ++ repeat "g"%char 57)] None
  = Raise ValueError.
Proof. vm_compute. reflexivity. Qed.

(** *** A creation and a call *)

Example get_concrete_transaction_call :
  _get_concrete_transaction zero_model call_transaction =
  Ok {| c_input := lit "0xa9059cbb01"; c_value := lit "0x0";
        c_origin := lit "0x0000000000000000000000000000000000000000";
        c_address := lit "0xaffe" |}.
Proof. vm_compute. reflexivity. Qed.


Example get_transaction_sequence_creation :
  fst (get_transaction_sequence (tries zero_model) (gives zero_model) marker one_width
         Keccak.concrete_keccak creation_state 0 one_object_state)
  = Ok {| initialState :=
            [(lit "0xaffe",
              {| d_nonce := 0; d_code := lit "6080"; d_storage := lit "{}";
                 d_balance := lit "0x0" |})];
          steps :=
            [{| c_input := lit "0x6080604052"; c_value := lit "0x0";
                c_origin := lit "0x0000000000000000000000000000000000000000";
                c_address := [] |}] |}.
Proof. vm_compute. reflexivity. Qed.


Lemma get_transaction_sequence_keeps_constraints_witness :
  let st' := snd (get_transaction_sequence (answers unsat) (gives zero_model) marker one_width
                    Keccak.concrete_keccak two_step_state 0 one_object_state) in
  (0 < length (constraints_store one_object_state))%nat ∧
  constraints_store st' !! 0%nat = constraints_store one_object_state !! 0%nat ∧
  constraints_store st' =
    constraints_store one_object_state
    ++ [default [] (constraints_store one_object_state !! 0%nat)
        ++ minimisation_constraints (transaction_sequence two_step_state) 5000
             (gs_world_state two_step_state)].
Proof.
  split.
  - simpl. lia.
  - apply (get_transaction_sequence_keeps_constraints (answers unsat) (gives zero_model) marker
             one_width Keccak.concrete_keccak two_step_state 0 one_object_state).
    simpl. lia.
Defined.

(* ===================================================================== *)
(** ** When the extraction returns *)
(* ===================================================================== *)

Lemma byte_hex_hex_string b : 0 ≤ b → hex_string (byte_hex b).
Proof.
  intros Hb. destruct (hex_digits b Hb) as (digits & Hhex & Hdigits).
  unfold byte_hex. rewrite Hhex. destruct (Nat.even _); simpl; [done|].
  by constructor.
Qed.

Lemma get_concrete_transaction_well_formed model tx :
  well_formed model tx →
  ∃ step, _get_concrete_transaction model tx = Ok step ∧ hex_input step.
Proof.
  intros ([callee Hcallee] & Hcode & Hbytes).
  unfold _get_concrete_transaction. rewrite Hcallee.
  assert (hex_string (concat (map byte_hex (concrete (call_data tx) model)))) as Hdata.
  { apply Forall_concat, Forall_fmap. eapply Forall_impl; [done|].
    intros b Hb. by apply byte_hex_hex_string. }
  destruct (kind tx) as [|code] eqn:Hkind; eexists; (split; [done|]);
    unfold hex_input; simpl c_input.
  - apply (Forall_drop _ 8 _ Hdata).
  - apply (Forall_drop _ 8 (bytecode code ++ _)).
    apply Forall_app. split; [by apply Hcode|done].
Qed.

Section extraction_returns.

Variable z3_check : Optimize → CheckSatResult.
Variable z3_model : Optimize → Model.
Variable hash_matcher : str.
Variable store_function : list N.
Variable concrete_keccak : Z → N → Z.

(** With a model in hand and well-formed transactions the rest of the
    extraction returns: nothing but the solver can make it fail. *)
Lemma extract_returns gs model first rest :
  transaction_sequence gs = first :: rest →
  Forall (well_formed model) (transaction_sequence gs) →
  ∃ out, extract hash_matcher store_function concrete_keccak gs model = Ok out.
Proof.
  intros Hts Hwf. unfold extract. rewrite Hts. rewrite <- Hts.
  destruct (map_result_total (_get_concrete_transaction model) (transaction_sequence gs))
    as [cts Hcts].
  { eapply Forall_impl; [done|]. intros tx Htx.
    destruct (get_concrete_transaction_well_formed model tx Htx) as (step & Hstep & _). eauto. }
  rewrite Hcts. simpl.
  assert (Forall hex_input cts) as Hhex.
  { apply map_result_Forall2 in Hcts. clear Hts.
    induction Hcts as [|tx ct ts cts Hct Hall IH]; [constructor|].
    inversion Hwf as [|? ? Htx Hrest]; subst. constructor; [|by apply IH].
    destruct (get_concrete_transaction_well_formed model tx Htx) as (step & Hstep & Hhex).
    rewrite Hct in Hstep. by injection Hstep as <-. }
  destruct (resolver_total hash_matcher store_function concrete_keccak model cts
              (creation_code first) Hhex) as (cts' & -> & _).
  simpl. eauto.
Qed.

(** X9. The extraction raises [UnsatError] exactly as [get_model] does, and
    returns when [get_model] returns a model under which the transactions
    are well formed. *)
Lemma get_transaction_sequence_returns gs r st first rest :
  transaction_sequence gs = first :: rest →
  (∀ model, Forall (well_formed model) (transaction_sequence gs)) →
  let run := get_transaction_sequence z3_check z3_model hash_matcher store_function
               concrete_keccak gs r st in
  fst run = Raise UnsatError ∨ ∃ out, fst run = Ok out.
Proof.
  intros Hts Hwf run. subst run. rewrite get_transaction_sequence_unfold. cbv zeta.
  match goal with |- context [get_model _ _ ?c ?s] =>
    destruct (cached_cases z3_check z3_model c s)
      as [(m & _ & ->)|[(_ & Hb & _)|(cs & mi & ma & e & _ & _ & [->|(_ & _ & ->)])]] end.
  - right. simpl. by eapply extract_returns.
  - done.
  - by left.
  - destruct (z3_check _); simpl; [|by left|by left].
    right. by eapply extract_returns.
Qed.

End extraction_returns.

(* ===================================================================== *)
(** ** The extraction over a sound solver *)
(* ===================================================================== *)

Section sound_extraction.

Variable z3_check : Optimize → CheckSatResult.
Variable z3_model : Optimize → Model.
Variable hash_matcher : str.
Variable store_function : list N.
Variable concrete_keccak : Z → N → Z.

Hypothesis z3_sound : solver_sound z3_check z3_model.

Lemma solver_call_binds gs old :
  bind_args (solver_call gs old) =
  Some (old ++ minimisation_constraints (transaction_sequence gs) 5000 (gs_world_state gs),
        flat_map transaction_objectives (transaction_sequence gs), [], true).
Proof. reflexivity. Qed.

(** The table keeps its invariants through an extraction. *)
Lemma get_transaction_sequence_table gs r st :
  table_ok (lru st) → table_sound (lru st) →
  let st' := snd (get_transaction_sequence z3_check z3_model hash_matcher store_function
                    concrete_keccak gs r st) in
  table_ok (lru st') ∧ table_sound (lru st').
Proof.
  intros Hok Hsound st'. subst st'. rewrite get_transaction_sequence_unfold. cbv zeta.
  match goal with |- context [get_model _ _ ?c ?s] =>
    pose proof (cached_table_ok z3_check z3_model c s Hok) as Hok';
    pose proof (cached_table_sound z3_check z3_model c s z3_sound Hsound) as Hsound';
    destruct (get_model z3_check z3_model c s) as [[model|e] st2] end; done.
Qed.

(** Constraints that force an account of the world state to start with more
    than 10^20 make the extraction raise [UnsatError]. *)
Lemma get_transaction_sequence_over_bound gs r st old account :
  table_sound (lru st) →
  constraints_store st !! r = Some old →
  account ∈ values (accounts (gs_world_state gs)) →
  (∀ m, Forall (λ c, satisfies m c = true) old →
        10 ^ 20 < eval m (starting_balance (gs_world_state gs) (address account))) →
  fst (get_transaction_sequence z3_check z3_model hash_matcher store_function
         concrete_keccak gs r st) = Raise UnsatError.
Proof.
  intros Htable Hold Hin Hforce. rewrite get_transaction_sequence_unfold. cbv zeta.
  rewrite Hold. simpl default.
  match goal with |- context [get_model _ _ ?c ?s] =>
    destruct (cached_unsatisfiable z3_check z3_model c _ _ _ _ s z3_sound Htable
                (solver_call_binds gs old)) as [->|[x ->]] end; try done.
  intros m Hall. apply Forall_app in Hall as [Hold_all Hmin].
  specialize (Hforce m Hold_all).
  assert (satisfies m (account_constraint (gs_world_state gs) account) = true) as Hacc.
  { eapply Forall_forall in Hmin; [done|]. unfold minimisation_constraints.
    apply elem_of_app. right. by apply list_elem_of_fmap_2. }
  apply account_constraint_holds in Hacc. lia.
Qed.

End sound_extraction.

Lemma tries_sound m : solver_sound (tries m) (gives m).
Proof.
  intros s Hs. unfold tries in Hs.
  destruct (forallb _ _) eqn:Hall; [|done].
  apply Forall_forall. intros c Hc. rewrite forallb_forall in Hall.
  apply Hall. by apply list_elem_of_In.
Qed.

(** The extraction on a sample state whose constraints ask for a starting
    balance above the bound: whatever model the solver tries, it raises. *)
Example get_transaction_sequence_over_bound_sample m :
  let asked := SmtBool (UGT (starting_balance sample_world (address sample_account))
                            (BitVecVal (10 ^ 20) 256)) in
  let st := set_constraints_store [[asked]] one_object_state in
  fst (get_transaction_sequence (tries m) (gives m) marker one_width
         Keccak.concrete_keccak creation_state 0 st) = Raise UnsatError.
Proof.
  intros asked st.
  apply (get_transaction_sequence_over_bound (tries m) (gives m) marker one_width
           Keccak.concrete_keccak (tries_sound m) creation_state 0 st [asked] sample_account).
  - apply table_all_nil.
  - reflexivity.
  - apply list_elem_of_singleton. reflexivity.
  - intros m' Hall. inversion Hall as [|? ? Hasked _]; subst.
    unfold asked in Hasked. cbn [satisfies holds] in Hasked.
    rewrite eval_BitVecVal in Hasked by (split; [lia|reflexivity]).
    by apply Z.ltb_lt in Hasked.
Qed.

(** At the bound the same solver, trying a model with balances of exactly
    10^20, answers and the extraction returns. *)
Example get_transaction_sequence_at_bound_sample :
  let asked := SmtBool (Eq (starting_balance sample_world (address sample_account))
                           (BitVecVal (10 ^ 20) 256)) in
  let st := set_constraints_store [[asked]] one_object_state in
  fst (get_transaction_sequence (tries (balance_model (10 ^ 20)))
         (gives (balance_model (10 ^ 20))) marker one_width
         Keccak.concrete_keccak creation_state 0 st)
  = Ok {| initialState :=
            [(lit "0xaffe",
              {| d_nonce := 0; d_code := lit "6080"; d_storage := lit "{}";
                 d_balance := lit "0x56bc75e2d63100000" |})];
          steps :=
            [{| c_input := lit "0x6080604052"; c_value := lit "0x0";
                c_origin := lit "0x0000000000000000000000000000000000000000";
                c_address := [] |}] |}.
Proof. vm_compute. reflexivity. Qed.

(* ===================================================================== *)
(** ** Reading back what hex writes *)
(* ===================================================================== *)

Lemma digits16_to_N s acc after_digit :
  hex_string s → s ≠ [] ∨ after_digit = true →
  digits16 (Z.of_N acc) after_digit s
  = Some (Z.of_N (HexString.Raw.to_N (string_of_list_ascii s) acc)).
Proof.
  intros Hs. revert acc after_digit.
  induction Hs as [|c s Hc Hs IH]; intros acc after_digit Hne.
  - destruct Hne as [Hne| ->]; done.
  - pose proof (hex_digit_plain c Hc) as (_ & _ & _ & Hu & _).
    simpl. rewrite decide_False by done.
    unfold is_hex_digit in Hc. destruct (ascii_to_digit c) as [d|]; [|done].
    replace (16 * Z.of_N acc + Z.of_N d) with (Z.of_N (d + 16 * acc)) by lia.
    apply IH. by right.
Qed.

Lemma digits16_zeros k s after_digit :
  (0 < k)%nat → digits16 0 after_digit (repeat "0"%char k ++ s) = digits16 0 true s.
Proof.
  intros Hk. revert after_digit. induction k as [|k IH]; intros after_digit; [lia|].
  simpl. destruct k as [|k]; [done|]. apply IH. lia.
Qed.

(** [hex] writes at least one digit, and no more than the number needs. *)
Lemma of_pos_longer : ∀ (p : positive) (rest : string),
  (length (lit rest) < length (lit (HexString.Raw.of_pos p rest)))%nat.
Proof.
  fix of_pos_longer 1. intros p rest.
  do 4 try destruct p as [p|p|]; cbn [HexString.Raw.of_pos];
    try (simpl; lia);
    match goal with
    | |- (_ < length (lit (HexString.Raw.of_pos ?q (String ?c rest))))%nat =>
        pose proof (of_pos_longer q (String c rest)) as H; simpl in H; simpl; lia
    end.
Qed.

Lemma of_pos_length_bound : ∀ (p : positive) (rest : string) (n : nat),
  Z.pos p < 16 ^ Z.of_nat n →
  (length (lit (HexString.Raw.of_pos p rest)) ≤ n + length (lit rest))%nat.
Proof.
  fix of_pos_length_bound 1. intros p rest n Hp.
  assert (0 < n)%nat as Hn.
  { destruct n; [simpl in Hp; lia|lia]. }
  destruct n as [|n]; [lia|].
  rewrite Nat2Z.inj_succ, Z.pow_succ_r in Hp by lia.
  do 4 try destruct p as [p|p|]; cbn [HexString.Raw.of_pos];
    try (simpl; lia);
    match goal with
    | |- (length (lit (HexString.Raw.of_pos ?q (String ?c rest))) ≤ _)%nat =>
        pose proof (of_pos_length_bound q (String c rest) n) as H;
        simpl in H; simpl; apply Nat.le_trans with (n + S (length (lit rest)))%nat;
        [apply H; lia|lia]
    end.
Qed.

(** The digits of a positive number, read back. *)
Lemma digits16_of_pos p after_digit :
  digits16 0 after_digit (lit (HexString.Raw.of_pos p "")) = Some (Z.pos p).
Proof.
  change 0 with (Z.of_N 0). rewrite digits16_to_N.
  - unfold lit. rewrite string_of_list_ascii_of_string.
    by rewrite HexString.Raw.to_N_of_pos.
  - apply of_pos_hex_string. constructor.
  - left. intros H. pose proof (of_pos_longer p "") as Hlen.
    rewrite H in Hlen. simpl in Hlen. lia.
Qed.

Lemma lstrip_id s :
  (∀ c t, s = c :: t → is_space c = false) → lstrip s = s.
Proof.
  intros H. destruct s as [|c t]; [done|]. simpl. by rewrite (H c t eq_refl).
Qed.

Lemma strip_id s :
  (∀ c t, s = c :: t → is_space c = false) →
  (∀ c t, reverse s = c :: t → is_space c = false) →
  strip s = s.
Proof.
  intros Hfirst Hlast. unfold strip.
  rewrite (lstrip_id s Hfirst), (lstrip_id (reverse s) Hlast).
  apply reverse_involutive.
Qed.

(** A string that ends with a hexadecimal digit does not end with white
    space. *)
Lemma ends_plain pre d :
  hex_string d → d ≠ [] →
  ∀ c t, reverse (pre ++ d) = c :: t → is_space c = false.
Proof.
  intros Hd Hne c t Hrev. rewrite reverse_app in Hrev.
  destruct (reverse d) as [|c' t'] eqn:Hd'.
  - apply (f_equal reverse) in Hd'. rewrite reverse_involutive in Hd'. done.
  - injection Hrev as -> _.
    assert (c ∈ d) as Hin.
    { apply elem_of_reverse. rewrite Hd'. by left. }
    eapply Forall_forall in Hd; [|done]. by apply hex_digit_plain in Hd as [? _].
Qed.

Lemma int16_0x d :
  hex_string d → d ≠ [] → int16 (lit "0x" ++ d) = digits16 0 false d.
Proof.
  intros Hd Hne. remember (digits16 0 false d) as r eqn:Hr.
  unfold int16. rewrite strip_id.
  - destruct d as [|c d']; [done|].
    inversion Hd as [|? ? Hc _]; subst.
    pose proof (hex_digit_plain c Hc) as (_ & _ & _ & Hu & _).
    cbn -[digits16].
    rewrite (decide_False (P := "0"%char = "-"%char)) by done.
    rewrite (decide_False (P := "0"%char = "+"%char)) by done.
    rewrite (bool_decide_eq_true_2 ("0"%char = "0"%char)) by done.
    rewrite (bool_decide_eq_true_2 ("x"%char = "x"%char ∨ _)) by (by left).
    cbn -[digits16]. rewrite (decide_False (P := c = "_"%char)) by done.
    by destruct (digits16 0 false (c :: d')).
  - by intros c t [= <- _].
  - by apply ends_plain.
Qed.

Lemma int16_minus_0x d :
  hex_string d → d ≠ [] →
  int16 ("-"%char :: lit "0x" ++ d) = Z.opp <$> digits16 0 false d.
Proof.
  intros Hd Hne. remember (Z.opp <$> digits16 0 false d) as r eqn:Hr.
  unfold int16. rewrite strip_id.
  - destruct d as [|c d']; [done|].
    inversion Hd as [|? ? Hc _]; subst.
    pose proof (hex_digit_plain c Hc) as (_ & _ & _ & Hu & _).
    cbn -[digits16].
    rewrite (decide_True (P := "-"%char = "-"%char)) by done.
    rewrite (bool_decide_eq_true_2 ("0"%char = "0"%char)) by done.
    rewrite (bool_decide_eq_true_2 ("x"%char = "x"%char ∨ _)) by (by left).
    cbn -[digits16]. rewrite (decide_False (P := c = "_"%char)) by done.
    by destruct (digits16 0 false (c :: d')).
  - by intros c t [= <- _].
  - apply (ends_plain ("-"%char :: lit "0x")); done.
Qed.

(** [int(hex(v), 16) == v], for every integer. *)
Lemma int16_hex_roundtrip v : int16 (hex v) = Some v.
Proof.
  destruct v as [|p|p].
  - reflexivity.
  - change (hex (Z.pos p)) with (lit "0x" ++ lit (HexString.Raw.of_pos p "")).
    rewrite int16_0x.
    + apply digits16_of_pos.
    + apply of_pos_hex_string. constructor.
    + intros H. pose proof (of_pos_longer p "") as Hlen. rewrite H in Hlen. simpl in Hlen. lia.
  - change (hex (Z.neg p)) with ("-"%char :: lit "0x" ++ lit (HexString.Raw.of_pos p "")).
    rewrite int16_minus_0x.
    + by rewrite digits16_of_pos.
    + apply of_pos_hex_string. constructor.
    + intros H. pose proof (of_pos_longer p "") as Hlen. rewrite H in Hlen. simpl in Hlen. lia.
Qed.

(** The digits ["%x"] writes for a number that is not negative. *)
Lemma fmt_x_digits v :
  0 ≤ v → hex v = lit "0x" ++ fmt_x v ∧ hex_string (fmt_x v) ∧ fmt_x v ≠ [] ∧
          digits16 0 false (fmt_x v) = Some v.
Proof.
  intros Hv. unfold fmt_x. destruct (Z.ltb_spec v 0) as [Hneg|_]; [lia|].
  destruct v as [|p|p]; [| |lia].
  - repeat split; try done. by repeat constructor.
  - change (hex (Z.pos p)) with (lit "0x" ++ lit (HexString.Raw.of_pos p "")).
    change (drop 2 (lit "0x" ++ ?x)) with x. split; [done|]. split; [|split].
    + apply of_pos_hex_string. constructor.
    + intros H. pose proof (of_pos_longer p "") as Hlen. rewrite H in Hlen. simpl in Hlen. lia.
    + apply digits16_of_pos.
Qed.

Lemma zfill_digits width d :
  hex_string d → d ≠ [] → zfill width d = repeat "0"%char (width - length d) ++ d.
Proof.
  intros Hd Hne. destruct d as [|c d']; [done|].
  inversion Hd as [|? ? Hc _]; subst.
  pose proof (hex_digit_plain c Hc) as (_ & Hminus & Hplus & _).
  unfold zfill. by rewrite !decide_False by done.
Qed.

(** [int("0x" + ("%x" % v).zfill(w), 16) == v] *)
Lemma int16_zfill_roundtrip width v :
  0 ≤ v → int16 (lit "0x" ++ zfill width (fmt_x v)) = Some v.
Proof.
  intros Hv. destruct (fmt_x_digits v Hv) as (_ & Hhex & Hne & Hval).
  rewrite zfill_digits by done.
  rewrite int16_0x.
  - destruct (width - length (fmt_x v))%nat as [|k] eqn:Hk; [done|].
    rewrite digits16_zeros by lia.
    destruct (fmt_x v) as [|c d]; [done|].
    inversion Hhex as [|? ? Hc _]; subst.
    pose proof (hex_digit_plain c Hc) as (_ & _ & _ & Hu & _).
    simpl in Hval |- *. rewrite decide_False in Hval |- * by done.
    by destruct (ascii_to_digit c).
  - apply Forall_app. split; [|done].
    apply Forall_forall. intros c Hc. apply list_elem_of_In, repeat_spec in Hc. by subst.
  - destruct (fmt_x v); [done|]. by destruct (repeat _ _).
Qed.

Lemma int16_plain d : hex_string d → d ≠ [] → int16 d = digits16 0 false d.
Proof.
  intros Hd Hne. remember (digits16 0 false d) as r eqn:Hr.
  unfold int16. rewrite strip_hex by done.
  destruct d as [|c0 d]; [done|].
  inversion Hd as [|? ? Hc0 Hd']; subst.
  pose proof (hex_digit_plain c0 Hc0) as (_ & Hminus & Hplus & _).
  rewrite !decide_False by done.
  destruct d as [|c1 d].
  - by destruct (digits16 0 false [c0]).
  - inversion Hd' as [|? ? Hc1 _]; subst.
    pose proof (hex_digit_plain c1 Hc1) as (_ & _ & _ & _ & Hx & HX).
    rewrite (bool_decide_eq_false_2 (c1 = "x"%char ∨ c1 = "X"%char)) by tauto.
    rewrite andb_false_r. by destruct (digits16 0 false (c0 :: c1 :: d)).
Qed.

(** A byte of call data takes two digits and reads back to the byte. *)
Lemma byte_hex_length b : 0 ≤ b < 256 → length (byte_hex b) = 2%nat.
Proof.
  intros Hb.
  assert (forallb (λ n, length (byte_hex (Z.of_nat n)) =? 2)%nat (seq 0 256) = true) as Hall
    by (vm_compute; reflexivity).
  rewrite forallb_forall in Hall.
  specialize (Hall (Z.to_nat b)). rewrite Z2Nat.id in Hall by lia.
  apply Nat.eqb_eq, Hall, in_seq. lia.
Qed.

Lemma byte_hex_roundtrip b : 0 ≤ b → int16 (byte_hex b) = Some b.
Proof.
  intros Hb. destruct (fmt_x_digits b Hb) as (Hhex & Hdigits & Hne & Hval).
  unfold byte_hex. rewrite Hhex.
  change (drop 2 (lit "0x" ++ fmt_x b)) with (fmt_x b).
  destruct (Nat.even _).
  - rewrite int16_plain by done. done.
  - rewrite int16_plain; [|by constructor|done].
    change ("0"%char :: fmt_x b) with (repeat "0"%char 1 ++ fmt_x b).
    rewrite digits16_zeros by lia.
    destruct (fmt_x b) as [|c d]; [done|].
    inversion Hdigits as [|? ? Hc _]; subst.
    pose proof (hex_digit_plain c Hc) as (_ & _ & _ & Hu & _).
    simpl in Hval |- *. rewrite decide_False in Hval |- * by done.
    by destruct (ascii_to_digit c).
Qed.

(** The digits of byte [i] in the rendering of a byte sequence. *)
Lemma byte_hex_at bytes i b :
  Forall (λ b, 0 ≤ b < 256) bytes → bytes !! i = Some b →
  slice (2 * i) (2 * i + 2) (concat (map byte_hex bytes)) = byte_hex b.
Proof.
  intros Hall. revert i. induction Hall as [|b0 bytes Hb0 Hall IH]; intros i Hi; [done|].
  pose proof (byte_hex_length b0 Hb0) as Hlen.
  unfold slice. replace (2 * i + 2 - 2 * i)%nat with 2%nat by lia.
  change (concat (map byte_hex (b0 :: bytes)))
    with (byte_hex b0 ++ concat (map byte_hex bytes)).
  destruct i as [|i]; simpl in Hi.
  - injection Hi as <-. replace (2 * 0)%nat with 0%nat by lia.
    rewrite drop_0, take_app_le by lia. apply take_ge. lia.
  - rewrite drop_app_ge by lia. rewrite Hlen.
    replace (2 * S i - 2)%nat with (2 * i)%nat by lia.
    specialize (IH i Hi). unfold slice in IH.
    by replace (2 * i + 2 - 2 * i)%nat with 2%nat in IH by lia.
Qed.

Lemma concat_byte_hex_length bytes :
  Forall (λ b, 0 ≤ b < 256) bytes →
  length (concat (map byte_hex bytes)) = (2 * length bytes)%nat.
Proof.
  induction 1 as [|b bytes Hb Hall IH]; [done|].
  simpl. rewrite length_app, IH, byte_hex_length by done. lia.
Qed.

Lemma eval_range m e : 0 ≤ eval m e.
Proof.
  destruct e as [v n|x n|a i]; simpl; apply Z.mod_pos_bound; lia.
Qed.

Lemma fmt_x_length v n :
  0 ≤ v < 16 ^ Z.of_nat n → (0 < n)%nat → (length (fmt_x v) ≤ n)%nat.
Proof.
  intros [Hv Hlt] Hn. unfold fmt_x. destruct (Z.ltb_spec v 0) as [Hneg|_]; [lia|].
  destruct v as [|p|p]; [simpl; lia| |lia].
  change (hex (Z.pos p)) with (lit "0x" ++ lit (HexString.Raw.of_pos p "")).
  change (drop 2 (lit "0x" ++ ?x)) with x.
  pose proof (of_pos_length_bound p "" n Hlt) as H. simpl in H. lia.
Qed.

Lemma of_pos_length_lower : ∀ (p : positive) (rest : string) (n : nat),
  16 ^ Z.of_nat n ≤ Z.pos p →
  (n + length (lit rest) < length (lit (HexString.Raw.of_pos p rest)))%nat.
Proof.
  fix of_pos_length_lower 1. intros p rest n Hp.
  destruct n as [|n]; [apply of_pos_longer|].
  rewrite Nat2Z.inj_succ, Z.pow_succ_r in Hp by lia.
  assert (0 < 16 ^ Z.of_nat n) as Hpos by (apply Z.pow_pos_nonneg; lia).
  do 4 try destruct p as [p|p|]; cbn [HexString.Raw.of_pos];
    try (exfalso; lia);
    match goal with
    | |- (_ < length (lit (HexString.Raw.of_pos ?q (String ?c rest))))%nat =>
        pose proof (of_pos_length_lower q (String c rest) n) as H;
        simpl in H; simpl;
        apply Nat.le_lt_trans with (n + S (length (lit rest)))%nat; [lia|apply H; lia]
    end.
Qed.

Lemma fmt_x_length_lower v n :
  16 ^ Z.of_nat n ≤ v → (n < length (fmt_x v))%nat.
Proof.
  intros Hv. assert (0 < 16 ^ Z.of_nat n) as Hpos by (apply Z.pow_pos_nonneg; lia).
  unfold fmt_x. destruct (Z.ltb_spec v 0) as [Hneg|_]; [lia|].
  destruct v as [|p|p]; [lia| |lia].
  change (hex (Z.pos p)) with (lit "0x" ++ lit (HexString.Raw.of_pos p "")).
  change (drop 2 (lit "0x" ++ ?x)) with x.
  pose proof (of_pos_length_lower p "" n Hv) as H. simpl in H. lia.
Qed.

(* ===================================================================== *)
(** ** More on _get_concrete_transaction *)
(* ===================================================================== *)

Lemma get_concrete_transaction_fields model tx callee :
  bv_value (address (callee_account tx)) = Some callee →
  ∃ step,
    _get_concrete_transaction model tx = Ok step ∧
    c_value step = lit "0x" ++ fmt_x (eval model (call_value tx)) ∧
    c_origin step = lit "0x" ++ zfill 40 (fmt_x (eval model (caller tx))) ∧
    c_address step = (if is_creation tx then [] else hex callee) ∧
    c_input step =
      lit "0x"
      ++ match kind tx with
         | ContractCreationTransaction code => bytecode code
         | MessageCallTransaction => []
         end
      ++ concat (map byte_hex (concrete (call_data tx) model)).
Proof.
  intros Hcallee. unfold _get_concrete_transaction, is_creation. rewrite Hcallee.
  destruct (kind tx); eexists; (split; [done|]); simpl; done.
Qed.

(** X20. The value, the origin and the address of a step are hexadecimal
    numerals that read back, with [int(text, 16)], to the call value and the
    caller the model gives and to the callee's address. *)
Theorem get_concrete_transaction_reads_back model tx callee :
  bv_value (address (callee_account tx)) = Some callee →
  ∃ step,
    _get_concrete_transaction model tx = Ok step ∧
    int16 (c_value step) = Some (eval model (call_value tx)) ∧
    int16 (c_origin step) = Some (eval model (caller tx)) ∧
    (kind tx = MessageCallTransaction → int16 (c_address step) = Some callee).
Proof.
  intros Hcallee.
  destruct (get_concrete_transaction_fields model tx callee Hcallee)
    as (step & Hstep & Hvalue & Horigin & Haddress & _).
  exists step. split; [done|]. split; [|split].
  - rewrite Hvalue.
    destruct (fmt_x_digits _ (eval_range model (call_value tx))) as (<- & _).
    apply int16_hex_roundtrip.
  - rewrite Horigin. apply int16_zfill_roundtrip, eval_range.
  - intros Hkind. rewrite Haddress. unfold is_creation. rewrite Hkind.
    apply int16_hex_roundtrip.
Qed.

(** X21. The origin is "0x" and the caller's digits filled with zeros to forty:
    forty-two characters when the caller is below 2^160, more when it is
    not; the digits are never cut. *)
Theorem get_concrete_transaction_origin_width model tx step :
  _get_concrete_transaction model tx = Ok step →
  take 2 (c_origin step) = lit "0x" ∧
  hex_string (drop 2 (c_origin step)) ∧
  (eval model (caller tx) < 2 ^ 160 → length (c_origin step) = 42%nat) ∧
  (2 ^ 160 ≤ eval model (caller tx) → (42 < length (c_origin step))%nat).
Proof.
  intros Hstep. unfold _get_concrete_transaction in Hstep.
  destruct (bv_value _) as [callee|] eqn:Hcallee; [|done].
  destruct (get_concrete_transaction_fields model tx callee Hcallee)
    as (step' & Hstep' & _ & Horigin & _).
  unfold _get_concrete_transaction in Hstep'. rewrite Hcallee in Hstep'.
  rewrite Hstep in Hstep'. injection Hstep' as <-.
  pose proof (eval_range model (caller tx)) as Hge.
  destruct (fmt_x_digits _ Hge) as (_ & Hhex & Hne & _).
  rewrite Horigin, zfill_digits by done.
  split; [done|]. split; [|split].
  - change (drop 2 (lit "0x" ++ ?x)) with x. apply Forall_app. split; [|done].
    apply Forall_forall. intros c Hc. apply list_elem_of_In, repeat_spec in Hc. by subst.
  - intros Hlt.
    pose proof (fmt_x_length (eval model (caller tx)) 40) as Hlen.
    change (16 ^ Z.of_nat 40) with (2 ^ 160) in Hlen.
    rewrite !length_app, repeat_length. simpl. lia.
  - intros Hle.
    pose proof (fmt_x_length_lower (eval model (caller tx)) 40) as Hlen.
    change (16 ^ Z.of_nat 40) with (2 ^ 160) in Hlen.
    rewrite !length_app, repeat_length. simpl. lia.
Qed.

(** X22. The input of a step lays the bytes of the call data out two digits each
    from [data_offset] on: its length is the offset and twice the number of
    bytes, and the digits of byte [i] read back to that byte. *)
Theorem get_concrete_transaction_input_layout model tx step :
  Forall (λ b, 0 ≤ b < 256) (concrete (call_data tx) model) →
  _get_concrete_transaction model tx = Ok step →
  length (c_input step)
    = (data_offset tx + 2 * length (concrete (call_data tx) model))%nat ∧
  ∀ i b, concrete (call_data tx) model !! i = Some b →
    int16 (slice (data_offset tx + 2 * i) (data_offset tx + 2 * i + 2) (c_input step))
      = Some b.
Proof.
  intros Hbytes Hstep. unfold _get_concrete_transaction in Hstep.
  destruct (bv_value _) as [callee|] eqn:Hcallee; [|done].
  destruct (get_concrete_transaction_fields model tx callee Hcallee)
    as (step' & Hstep' & _ & _ & _ & Hinput).
  unfold _get_concrete_transaction in Hstep'. rewrite Hcallee in Hstep'.
  rewrite Hstep in Hstep'. injection Hstep' as <-.
  set (bytes := concrete (call_data tx) model) in *.
  assert (∃ pre, c_input step = pre ++ concat (map byte_hex bytes)
                 ∧ length pre = data_offset tx) as (pre & -> & Hpre).
  { unfold data_offset. destruct (kind tx) as [|code].
    - exists (lit "0x"). by rewrite Hinput.
    - exists (lit "0x" ++ bytecode code). rewrite Hinput, <- app_assoc. done. }
  split.
  - rewrite length_app, concat_byte_hex_length by done. lia.
  - intros i b Hi. unfold slice.
    rewrite <- Hpre, <- Nat.add_assoc, drop_app_ge by lia.
    replace (length pre + (2 * i + 2) - (length pre + 2 * i))%nat with (2 * i + 2 - 2 * i)%nat
      by lia.
    replace (length pre + 2 * i - length pre)%nat with (2 * i)%nat by lia.
    fold (slice (2 * i) (2 * i + 2) (concat (map byte_hex bytes))).
    rewrite (byte_hex_at bytes i b) by done.
    apply byte_hex_roundtrip.
    eapply Forall_forall in Hbytes; [|by eapply list_elem_of_lookup_2]. lia.
Qed.

Lemma get_concrete_transaction_reads_back_witness :
  bv_value (address (callee_account call_transaction)) = Some 0xaffe ∧
  ∃ step,
    _get_concrete_transaction zero_model call_transaction = Ok step ∧
    int16 (c_value step) = Some 0 ∧
    int16 (c_origin step) = Some 0 ∧
    int16 (c_address step) = Some 0xaffe.
Proof.
  split; [reflexivity|].
  destruct (get_concrete_transaction_reads_back zero_model call_transaction 0xaffe eq_refl)
    as (step & Hstep & Hvalue & Horigin & Haddress).
  exists step. split; [exact Hstep|]. split; [exact Hvalue|].
  split; [exact Horigin|exact (Haddress eq_refl)].
Defined.

Lemma get_concrete_transaction_origin_width_witness :
  ∃ step,
    _get_concrete_transaction zero_model call_transaction = Ok step ∧
    length (c_origin step) = 42%nat.
Proof.
  destruct (get_concrete_transaction_origin_width zero_model call_transaction _ eq_refl)
    as (_ & _ & Hwidth & _).
  eexists. split; [reflexivity|]. apply Hwidth. reflexivity.
Defined.

Lemma get_concrete_transaction_input_layout_witness :
  Forall (λ b, 0 ≤ b < 256) (concrete (call_data call_transaction) zero_model) ∧
  ∃ step,
    _get_concrete_transaction zero_model call_transaction = Ok step ∧
    length (c_input step) = 12%nat ∧
    int16 (slice 6 8 (c_input step)) = Some 0x9c.
Proof.
  assert (Forall (λ b, 0 ≤ b < 256) (concrete (call_data call_transaction) zero_model))
    as Hbytes by (repeat constructor; lia).
  split; [exact Hbytes|].
  destruct (get_concrete_transaction_input_layout zero_model call_transaction _ Hbytes eq_refl)
    as (Hlength & Hread).
  eexists. split; [reflexivity|]. split; [exact Hlength|].
  exact (Hread 2%nat 0x9c eq_refl).
Defined.

(** A caller beyond 160 bits is written in full: forty-one digits. *)
Example get_concrete_transaction_wide_origin :
  (step ← _get_concrete_transaction
             {| sym_value := λ _, 2 ^ 160; bool_value := λ _, true;
                array_value := λ _ _, 0; inverse_value := λ _ _, None |}
             call_transaction;
   mret (c_origin step))
  = Ok (lit "0x10000000000000000000000000000000000000000").
Proof. vm_compute. reflexivity. Qed.

(* ===================================================================== *)
(** ** More on get_model *)
(* ===================================================================== *)

Lemma fold_add_objectives l s :
  minimized (fold_left add l s) = minimized s ∧
  maximized (fold_left add l s) = maximized s.
Proof.
  revert s. induction l as [|c l IH]; intros s; simpl; [done|].
  destruct (IH (add s c)) as [-> ->]. done.
Qed.

Lemma fold_minimize_objectives l s :
  minimized (fold_left minimize_ l s) = minimized s ++ l ∧
  maximized (fold_left minimize_ l s) = maximized s.
Proof.
  revert s. induction l as [|c l IH]; intros s; simpl.
  - by rewrite app_nil_r.
  - destruct (IH (minimize_ s c)) as [-> ->]. simpl. by rewrite <- app_assoc.
Qed.

Lemma fold_maximize_objectives l s :
  minimized (fold_left maximize_ l s) = minimized s ∧
  maximized (fold_left maximize_ l s) = maximized s ++ l.
Proof.
  revert s. induction l as [|c l IH]; intros s; simpl.
  - by rewrite app_nil_r.
  - destruct (IH (maximize_ s c)) as [-> ->]. simpl. by rewrite <- app_assoc.
Qed.

Lemma session_objectives t cs mi ma :
  minimized (session t cs mi ma) = mi ∧ maximized (session t cs mi ma) = ma.
Proof.
  unfold session.
  destruct (fold_maximize_objectives ma
              (fold_left minimize_ mi
                 (fold_left add (filter (λ c, is_bool c = false) cs)
                    (set_timeout t Optimize_new)))) as [-> ->].
  destruct (fold_minimize_objectives mi
              (fold_left add (filter (λ c, is_bool c = false) cs)
                 (set_timeout t Optimize_new))) as [-> ->].
  destruct (fold_add_objectives (filter (λ c, is_bool c = false) cs)
              (set_timeout t Optimize_new)) as [-> ->].
  done.
Qed.

Lemma cache_del_length k m c :
  cache_get k c = Some m → length c = S (length (cache_del k c)).
Proof.
  induction c as [|[k' m'] c IH]; simpl; [done|].
  destruct (decide (k = k')); [done|]. intros H. by rewrite (IH H).
Qed.

Lemma cache_touch_length k m c :
  cache_get k c = Some m → length (cache_touch k m c) = length c.
Proof. intros H. unfold cache_touch. simpl. by rewrite (cache_del_length k m c H). Qed.

Lemma removelast_length {A : Type} (l : list A) :
  length (removelast l) = (length l - 1)%nat.
Proof.
  induction l as [|a l IH]; [done|].
  destruct l as [|b l]; [done|]. simpl in *. rewrite IH. lia.
Qed.

Lemma cache_put_length k m c :
  Z.of_nat (length c) ≤ maxsize →
  Z.of_nat (length (cache_put k m c)) ≤ maxsize ∧
  (length c ≤ length (cache_put k m c))%nat.
Proof.
  unfold cache_put, maxsize. change (2 ^ 23) with 8388608. intros Hle.
  destruct (Z.ltb_spec (Z.of_nat (length c)) 8388608); simpl.
  - lia.
  - rewrite removelast_length. lia.
Qed.

Lemma cache_get_del_ne k k' c :
  k ≠ k' → cache_get k (cache_del k' c) = cache_get k c.
Proof.
  intros Hne. induction c as [|[k0 m0] c IH]; simpl; [done|].
  destruct (decide (k' = k0)) as [->|Hne'].
  - by rewrite decide_False.
  - simpl. by rewrite IH.
Qed.

Lemma cache_get_removelast k m c :
  cache_get k (removelast c) = Some m → cache_get k c = Some m.
Proof.
  induction c as [|[k0 m0] c IH]; [done|].
  destruct c as [|e c]; [done|].
  change (removelast ((k0, m0) :: e :: c)) with ((k0, m0) :: removelast (e :: c)).
  cbn [cache_get]. destruct (decide (k = k0)); [done|]. apply IH.
Qed.

Section solver_more.

Variable z3_check : Optimize → CheckSatResult.
Variable z3_model : Optimize → Model.

(** X1. With [enforce_execution_time=False] the remaining execution time plays
    no part: the call gives the same result and leaves the same state
    whatever time is left, also none, and a session handed to the solver
    carries the configured solver timeout. *)
Theorem get_model_unenforced c cs mi ma st t :
  bind_args c = Some (cs, mi, ma, false) →
  get_model z3_check z3_model c (set_time_remaining t st)
    = (fst (get_model z3_check z3_model c st),
       set_time_remaining t (snd (get_model z3_check z3_model c st))) ∧
  ∀ s, solver_calls (snd (get_model z3_check z3_model c st)) = solver_calls st ++ [s] →
       timeout s = Some (solver_timeout st).
Proof.
  intros Hb. split.
  - destruct (cache_get c (lru st)) as [m|] eqn:Hget.
    + rewrite (cached_hit z3_check z3_model c m st Hget).
      by rewrite (cached_hit z3_check z3_model c m (set_time_remaining t st) Hget).
    + rewrite (cached_miss z3_check z3_model c cs mi ma false st Hget Hb).
      rewrite (cached_miss z3_check z3_model c cs mi ma false (set_time_remaining t st) Hget Hb).
      destruct (decide (PyBool false ∈ cs)) as [Hin|Hnin].
      * by rewrite !body_literal_false.
      * rewrite !body_solves by done. cbv zeta. unfold effective_timeout. simpl.
        by destruct (z3_check _).
  - intros s Hlog.
    destruct (cached_session z3_check z3_model c st s Hlog)
      as (cs' & mi' & ma' & e & _ & Hb' & _ & _ & -> & _).
    rewrite Hb in Hb'. injection Hb' as <- <- <- <-. apply session_timeout.
Qed.

(** X2. The session a call hands to the solver carries the call's objectives and
    nothing else: the entries of [minimize] to minimise and the entries of
    [maximize] to maximise, each in the order given. *)
Theorem get_model_objectives c cs mi ma e st s :
  bind_args c = Some (cs, mi, ma, e) →
  solver_calls (snd (get_model z3_check z3_model c st)) = solver_calls st ++ [s] →
  minimized s = mi ∧ maximized s = ma.
Proof.
  intros Hb Hlog.
  destruct (cached_session z3_check z3_model c st s Hlog)
    as (cs' & mi' & ma' & e' & _ & Hb' & _ & _ & -> & _).
  rewrite Hb in Hb'. injection Hb' as <- <- <- <-. apply session_objectives.
Qed.

(** X3. The table never holds more than [maxsize] = 2^23 entries, and no call
    makes it shorter. *)
Theorem get_model_table_size c st :
  Z.of_nat (length (lru st)) ≤ maxsize →
  Z.of_nat (length (lru (snd (get_model z3_check z3_model c st)))) ≤ maxsize ∧
  (length (lru st) ≤ length (lru (snd (get_model z3_check z3_model c st))))%nat.
Proof.
  intros Hle.
  destruct (cached_cases z3_check z3_model c st)
    as [(m & Hget & ->)|[(_ & _ & ->)|(cs & mi & ma & e & _ & _ & [->|(_ & _ & ->)])]];
    simpl; try lia.
  - pose proof (cache_del_length c m (lru st) Hget). lia.
  - destruct (z3_check _); simpl; try lia. by apply cache_put_length.
Qed.

(** X4. A call leaves the entries of other calls alone: what the table answers
    for another call after it, it answered before; and while the table is
    not full it answers the same for every other call. Only a store into a
    full table drops an entry, the one used longest ago. *)
Theorem get_model_other_entries c k st :
  k ≠ c →
  (∀ m, cache_get k (lru (snd (get_model z3_check z3_model c st))) = Some m →
        cache_get k (lru st) = Some m) ∧
  (Z.of_nat (length (lru st)) < maxsize →
   cache_get k (lru (snd (get_model z3_check z3_model c st))) = cache_get k (lru st)).
Proof.
  intros Hne.
  destruct (cached_cases z3_check z3_model c st)
    as [(m & Hget & ->)|[(_ & _ & ->)|(cs & mi & ma & e & _ & _ & [->|(_ & _ & ->)])]];
    simpl; try done.
  - unfold cache_touch. cbn [cache_get]. rewrite decide_False by done.
    rewrite cache_get_del_ne by done. done.
  - destruct (z3_check _); simpl; try done.
    unfold cache_put. split.
    + intros m. destruct (_ <? _); cbn [cache_get]; rewrite decide_False by done; [done|].
      apply cache_get_removelast.
    + intros Hlt. destruct (Z.ltb_spec (Z.of_nat (length (lru st))) maxsize); [|lia].
      cbn [cache_get]. by rewrite decide_False.
Qed.

(** X5. The model a call returned is still in the table after the next call,
    whatever that call is and however full the table: the entry used last is
    never the one dropped. *)
Theorem get_model_recent_kept c c' st m st1 :
  get_model z3_check z3_model c st = (Ok m, st1) →
  cache_get c (lru (snd (get_model z3_check z3_model c' st1))) = Some m.
Proof.
  intros H1.
  assert (∃ rest, lru st1 = (c, m) :: rest) as [rest Hfront].
  { destruct (cached_cases z3_check z3_model c st)
      as [(m0 & _ & Heq)|[(_ & _ & Heq)|(cs & mi & ma & e & _ & _ & [Heq|(_ & _ & Heq)])]];
      rewrite Heq in H1; try done.
    - injection H1 as <- <-. simpl. unfold cache_touch. eauto.
    - simpl in H1. destruct (z3_check _); try done. injection H1 as <- <-. simpl.
      unfold cache_put. destruct (_ <? _); eauto. }
  assert (cache_get c (lru st1) = Some m) as Hget.
  { rewrite Hfront. simpl. by rewrite decide_True. }
  destruct (decide (c' = c)) as [->|Hne].
  { rewrite (cached_hit z3_check z3_model c m st1 Hget). apply cache_get_touch. }
  destruct (cached_cases z3_check z3_model c' st1)
    as [(m' & Hget' & ->)|[(_ & _ & ->)|(cs & mi & ma & e & _ & _ & [->|(_ & _ & ->)])]];
    simpl; try done.
  - unfold cache_touch. cbn [cache_get]. rewrite decide_False by done.
    rewrite cache_get_del_ne by done. done.
  - destruct (z3_check _); simpl; try done.
    unfold cache_put, maxsize. change (2 ^ 23) with 8388608.
    destruct (Z.ltb_spec (Z.of_nat (length (lru st1))) 8388608) as [_|Hfull];
      cbn [cache_get]; rewrite decide_False by done; [done|].
    rewrite Hfront in Hfull |- *. destruct rest as [|e0 rest]; [simpl in Hfull; lia|].
    change (removelast ((c, m) :: e0 :: rest)) with ((c, m) :: removelast (e0 :: rest)).
    cbn [cache_get]. by rewrite decide_True.
Qed.

End solver_more.

(** *** More sample calls *)

Lemma get_model_unenforced_witness :
  bind_args unenforced_call
    = Some ([SmtBool (BoolSym "c")], [BVSym "v" 256], [BVSym "w" 256], false) ∧
  fst (get_model (answers sat) (gives zero_model) unenforced_call
         (set_time_remaining 0 (fresh_state 60000))) = Ok zero_model.
Proof.
  split; [reflexivity|].
  destruct (get_model_unenforced (answers sat) (gives zero_model) unenforced_call
              _ _ _ (fresh_state 60000) 0 eq_refl) as [Hrun _].
  rewrite Hrun. reflexivity.
Defined.

Lemma get_model_objectives_witness :
  let s := session 10000 [SmtBool (BoolSym "c")] [BVSym "v" 256] [BVSym "w" 256] in
  solver_calls (snd (get_model (answers sat) (gives zero_model) unenforced_call
                       (fresh_state 60000))) = [s] ∧
  minimized s = [BVSym "v" 256] ∧ maximized s = [BVSym "w" 256].
Proof.
  split; [reflexivity|].
  exact (get_model_objectives (answers sat) (gives zero_model) unenforced_call
           _ _ _ _ (fresh_state 60000) _ eq_refl eq_refl).
Defined.

Lemma get_model_table_size_witness :
  let st' := snd (get_model (answers sat) (gives zero_model) symbol_call (fresh_state 60000)) in
  Z.of_nat (length (lru (fresh_state 60000))) ≤ maxsize ∧
  Z.of_nat (length (lru st')) ≤ maxsize ∧
  (length (lru (fresh_state 60000)) ≤ length (lru st'))%nat.
Proof.
  assert (Z.of_nat (length (lru (fresh_state 60000))) ≤ maxsize) as Hle.
  { unfold maxsize. simpl. lia. }
  split; [exact Hle|].
  exact (get_model_table_size (answers sat) (gives zero_model) symbol_call (fresh_state 60000) Hle).
Defined.

Lemma get_model_other_entries_witness :
  let st1 := snd (get_model (answers sat) (gives zero_model) symbol_call (fresh_state 60000)) in
  let st2 := snd (get_model (answers sat) (gives zero_model) unenforced_call st1) in
  cache_get symbol_call (lru st2) = cache_get symbol_call (lru st1) ∧
  cache_get symbol_call (lru st1) = Some zero_model.
Proof.
  intros st1 st2. split; [|reflexivity].
  assert (symbol_call ≠ unenforced_call) as Hne by discriminate.
  apply (get_model_other_entries (answers sat) (gives zero_model) unenforced_call symbol_call
           st1 Hne).
  unfold maxsize. simpl. lia.
Defined.

Lemma get_model_recent_kept_witness :
  let st1 := snd (get_model (answers sat) (gives zero_model) symbol_call (fresh_state 60000)) in
  get_model (answers sat) (gives zero_model) symbol_call (fresh_state 60000)
    = (Ok zero_model, st1) ∧
  cache_get symbol_call
    (lru (snd (get_model (answers sat) (gives zero_model) unenforced_call st1)))
  = Some zero_model.
Proof.
  intros st1.
  assert (get_model (answers sat) (gives zero_model) symbol_call (fresh_state 60000)
          = (Ok zero_model, st1)) as Hfirst by reflexivity.
  split; [exact Hfirst|].
  exact (get_model_recent_kept (answers sat) (gives zero_model) symbol_call unenforced_call
           _ _ _ Hfirst).
Defined.

(* ===================================================================== *)
(** ** More on _set_minimisation_constraints *)
(* ===================================================================== *)

Lemma transaction_objectives_length ts :
  length (flat_map transaction_objectives ts) = (2 * length ts)%nat.
Proof. induction ts as [|tx ts IH]; simpl; [done|]. rewrite IH. lia. Qed.

Lemma minimisation_constraints_length ts max_size ws :
  length (minimisation_constraints ts max_size ws)
  = (2 * length ts + length (accounts ws))%nat.
Proof.
  unfold minimisation_constraints, values. rewrite length_app, !length_map.
  assert (length (flat_map (transaction_constraints max_size ws) ts) = (2 * length ts)%nat)
    as ->; [|done].
  induction ts as [|tx ts IH]; simpl; [done|]. rewrite IH. lia.
Qed.

(** X23. The function works in place and returns what it was given: the same
    [Constraints] object, grown by two entries for each transaction and one
    for each account, and the entries of the caller's [minimize] list, which
    has itself grown by two objectives for each transaction. No other object
    changes, and neither the table nor the solver is touched. *)
Theorem set_minimisation_constraints_in_place ts r rm max_size ws st old objs :
  constraints_store st !! r = Some old →
  lists_store st !! rm = Some objs →
  let out := _set_minimisation_constraints ts r rm max_size ws st in
  fst out = Ok (r, objs ++ flat_map transaction_objectives ts) ∧
  lists_store (snd out) !! rm = Some (objs ++ flat_map transaction_objectives ts) ∧
  length (flat_map transaction_objectives ts) = (2 * length ts)%nat ∧
  (∃ new, constraints_store (snd out) !! r = Some (old ++ new) ∧
          length new = (2 * length ts + length (accounts ws))%nat) ∧
  (∀ j, j ≠ r → constraints_store (snd out) !! j = constraints_store st !! j) ∧
  (∀ j, j ≠ rm → lists_store (snd out) !! j = lists_store st !! j) ∧
  lru (snd out) = lru st ∧ solver_calls (snd out) = solver_calls st.
Proof.
  intros Hold Hobjs out. subst out. rewrite set_minimisation_constraints_spec. simpl.
  rewrite !extend_lookup, Hold, Hobjs. simpl.
  split; [done|]. split; [done|]. split; [apply transaction_objectives_length|].
  split; [|split; [|split]].
  - eexists. split; [done|]. apply minimisation_constraints_length.
  - intros j Hj. by apply extend_lookup_ne.
  - intros j Hj. by apply extend_lookup_ne.
  - done.
Qed.

Lemma eval_BitVecVal_mod m v : eval m (BitVecVal v 256) = v mod 2 ^ 256.
Proof.
  unfold BitVecVal. simpl eval. change (Z.of_N 256) with 256. by rewrite Z.mod_mod by lia.
Qed.

Lemma transaction_constraints_hold m max_size ws tx :
  Forall (λ c, satisfies m c = true) (transaction_constraints max_size ws tx) ↔
  eval m (calldatasize (call_data tx)) ≤ max_size mod 2 ^ 256 ∧
  eval m (starting_balance ws (caller tx)) ≤ 10 ^ 21.
Proof.
  unfold transaction_constraints. rewrite !Forall_cons, Forall_nil.
  cbn [satisfies holds]. rewrite !eval_BitVecVal_mod, !Z.leb_le.
  unfold caller_balance_bound.
  change (1000000000000000000000 mod 2 ^ 256) with (10 ^ 21). tauto.
Qed.

(** X24. What the appended entries ask of a model: it meets the grown constraints
    exactly when it meets the old ones, gives every transaction a call data
    size of at most [max_size] (taken modulo 2^256) and a caller whose
    starting balance is at most 10^21, and gives every account of the world
    state a starting balance of at most 10^20. *)
Theorem set_minimisation_constraints_meaning ts r rm max_size ws st old m :
  constraints_store st !! r = Some old →
  ∃ grown,
    constraints_store (snd (_set_minimisation_constraints ts r rm max_size ws st)) !! r
      = Some grown ∧
    (Forall (λ c, satisfies m c = true) grown ↔
     Forall (λ c, satisfies m c = true) old ∧
     Forall (λ tx, eval m (calldatasize (call_data tx)) ≤ max_size mod 2 ^ 256 ∧
                   eval m (starting_balance ws (caller tx)) ≤ 10 ^ 21) ts ∧
     Forall (λ a, eval m (starting_balance ws (address a)) ≤ 10 ^ 20)
       (values (accounts ws))).
Proof.
  intros Hold. rewrite set_minimisation_constraints_spec. simpl.
  rewrite extend_lookup, Hold. simpl. eexists. split; [done|].
  unfold minimisation_constraints. rewrite !Forall_app, Forall_fmap.
  assert (Forall (λ c, satisfies m c = true)
            (flat_map (transaction_constraints max_size ws) ts) ↔
          Forall (λ tx, eval m (calldatasize (call_data tx)) ≤ max_size mod 2 ^ 256 ∧
                        eval m (starting_balance ws (caller tx)) ≤ 10 ^ 21) ts) as ->.
  { induction ts as [|tx ts IH]; [by rewrite !Forall_nil|].
    change (flat_map (transaction_constraints max_size ws) (tx :: ts))
      with (transaction_constraints max_size ws tx
            ++ flat_map (transaction_constraints max_size ws) ts).
    rewrite Forall_app, Forall_cons, IH, transaction_constraints_hold. tauto. }
  assert (Forall ((λ c, satisfies m c = true) ∘ account_constraint ws) (values (accounts ws)) ↔
          Forall (λ a, eval m (starting_balance ws (address a)) ≤ 10 ^ 20)
            (values (accounts ws))) as ->; [|tauto].
  apply Forall_iff. intros a. apply account_constraint_holds.
Qed.

Lemma set_minimisation_constraints_in_place_witness :
  let out := _set_minimisation_constraints [call_transaction] 0 0 5000 sample_world
               one_object_state in
  constraints_store one_object_state !! 0%nat = Some [] ∧
  lists_store one_object_state !! 0%nat = Some [] ∧
  fst out = Ok (0%nat, [BVSym "2_calldatasize" 256; BVSym "call_value2" 256]) ∧
  lists_store (snd out) !! 0%nat = Some [BVSym "2_calldatasize" 256; BVSym "call_value2" 256].
Proof.
  destruct (set_minimisation_constraints_in_place [call_transaction] 0 0 5000 sample_world
              one_object_state [] [] eq_refl eq_refl) as (Hout & Hlist & _).
  split; [reflexivity|]. split; [reflexivity|]. split; [exact Hout|exact Hlist].
Defined.

Lemma set_minimisation_constraints_meaning_witness :
  constraints_store one_object_state !! 0%nat = Some [] ∧
  ∃ grown,
    constraints_store (snd (_set_minimisation_constraints [call_transaction] 0 0 5000
                              sample_world one_object_state)) !! 0%nat = Some grown ∧
    (Forall (λ c, satisfies zero_model c = true) grown ↔
     Forall (λ c, satisfies zero_model c = true) [] ∧
     Forall (λ tx, eval zero_model (calldatasize (call_data tx)) ≤ 5000 mod 2 ^ 256 ∧
                   eval zero_model (starting_balance sample_world (caller tx)) ≤ 10 ^ 21)
       [call_transaction] ∧
     Forall (λ a, eval zero_model (starting_balance sample_world (address a)) ≤ 10 ^ 20)
       (values (accounts sample_world))).
Proof.
  split; [reflexivity|].
  exact (set_minimisation_constraints_meaning [call_transaction] 0 0 5000 sample_world
           one_object_state [] zero_model eq_refl).
Defined.

(** A bound of 2^256 wraps to zero: only empty call data is then allowed. *)
Example set_minimisation_constraints_wraps :
  let st' := snd (_set_minimisation_constraints [call_transaction] 0 0 (2 ^ 256) sample_world
                    one_object_state) in
  head (default [] (constraints_store st' !! 0%nat))
  = Some (SmtBool (UGE (BVVal 0 256) (BVSym "2_calldatasize" 256))).
Proof. vm_compute. reflexivity. Qed.

(* ===================================================================== *)
(** ** More on _get_concrete_state *)
(* ===================================================================== *)

Lemma dict_get_set {K V : Type} `{EqDecision K} (k : K) (v : V) d :
  dict_get k (dict_set k v d) = Some v.
Proof.
  induction d as [|[k0 v0] d IH]; simpl.
  - by rewrite decide_True.
  - destruct (decide (k = k0)) as [->|Hne]; simpl.
    + by rewrite decide_True.
    + by rewrite decide_False.
Qed.

Lemma dict_get_set_ne {K V : Type} `{EqDecision K} (k k' : K) (v : V) d :
  k ≠ k' → dict_get k (dict_set k' v d) = dict_get k d.
Proof.
  intros Hne. induction d as [|[k0 v0] d IH]; simpl.
  - by rewrite decide_False.
  - destruct (decide (k' = k0)) as [->|Hne']; simpl.
    + by rewrite !decide_False.
    + destruct (decide (k = k0)); [done|apply IH].
Qed.

Lemma concrete_state_from accts d acc :
  NoDup (keys accts) →
  (∀ a, a ∈ keys accts → hex a ∉ keys acc) →
  fold_left (λ accounts '(address, account),
      let data := {| d_nonce := nonce account;
                     d_code := bytecode (code account);
                     d_storage := storage account;
                     d_balance := hex (default 0 (dict_get address d)) |} in
      dict_set (hex address) data accounts) accts acc
  = acc ++ map (λ '(a, account),
                 (hex a, {| d_nonce := nonce account; d_code := bytecode (code account);
                            d_storage := storage account;
                            d_balance := hex (default 0 (dict_get a d)) |})) accts.
Proof.
  intros Hnd Hfresh.
  set (data := λ (a : Z) (account : Account),
    {| d_nonce := nonce account; d_code := bytecode (code account);
       d_storage := storage account; d_balance := hex (default 0 (dict_get a d)) |}).
  revert acc Hfresh.
  induction accts as [|[a account] accts IH]; intros acc Hfresh; simpl.
  - by rewrite app_nil_r.
  - apply NoDup_cons in Hnd as [Hnin Hnd].
    assert (dict_set (hex a) (data a account) acc = acc ++ [(hex a, data a account)]) as Hset.
    { assert (hex a ∉ keys acc) as Ha by (apply Hfresh; by left).
      clear -Ha. induction acc as [|[k0 v0] acc IH]; simpl; [done|].
      destruct (decide (hex a = k0)) as [<-|Hne].
      - exfalso. apply Ha. by left.
      - f_equal. apply IH. intros Hin. apply Ha. by right. }
    fold (data a account). rewrite Hset, IH; [by rewrite <- app_assoc|done|].
    intros b Hb. unfold keys. rewrite map_app. simpl. intros Hin.
    apply elem_of_app in Hin as [Hin|Hin].
    + apply (Hfresh b); [by right|done].
    + apply list_elem_of_singleton, hex_inj in Hin. by subst.
Qed.

Lemma dict_get_map_hex {V : Type} (f : Z → Account → V) accts a account :
  NoDup (keys accts) → (a, account) ∈ accts →
  dict_get (hex a) (map (λ '(a, account), (hex a, f a account)) accts) = Some (f a account).
Proof.
  intros Hnd Hin. induction accts as [|[b other] accts IH]; [by apply elem_of_nil in Hin|].
  apply NoDup_cons in Hnd as [Hnin Hnd]. simpl.
  apply elem_of_cons in Hin as [[= <- <-]|Hin].
  - by rewrite decide_True.
  - rewrite decide_False; [by apply IH|].
    intros Heq. apply hex_inj in Heq. subst b. apply Hnin.
    apply list_elem_of_fmap. by exists (a, account).
Qed.

(** X19. The concrete state has one entry for each account, in the order of the
    accounts, under the key [hex(address)]; the entry carries the account's
    nonce, code and storage, and a balance that reads back to the account's
    price, to zero when it has none ("0x0"). *)
Theorem get_concrete_state_entries accts prices a account :
  NoDup (keys accts) →
  (a, account) ∈ accts →
  keys (_get_concrete_state accts prices) = map hex (keys accts) ∧
  ∃ data,
    dict_get (hex a) (_get_concrete_state accts prices) = Some data ∧
    d_nonce data = nonce account ∧
    d_code data = bytecode (code account) ∧
    d_storage data = storage account ∧
    d_balance data = hex (default 0 (dict_get a prices)) ∧
    int16 (d_balance data) = Some (default 0 (dict_get a prices)) ∧
    (dict_get a prices = None → d_balance data = lit "0x0").
Proof.
  intros Hnd Hin. unfold _get_concrete_state.
  assert (∀ b, b ∈ keys accts → hex b ∉ keys (@nil (str * ConcreteAccount))) as Hfresh
    by (intros b _ Hb; by apply elem_of_nil in Hb).
  pose proof (concrete_state_from accts prices [] Hnd Hfresh) as Heq.
  cbv zeta in Heq. rewrite Heq, app_nil_l. clear Heq. split.
  - unfold keys. rewrite !map_map. apply map_ext. by intros [b other].
  - eexists. split.
    { by apply (dict_get_map_hex
                  (λ a account,
                     {| d_nonce := nonce account; d_code := bytecode (code account);
                        d_storage := storage account;
                        d_balance := hex (default 0 (dict_get a prices)) |})
                  accts a account). }
    simpl. repeat (split; [done|]). split; [apply int16_hex_roundtrip|].
    by intros ->.
Qed.

Lemma get_concrete_state_entries_witness :
  NoDup (keys (accounts sample_world)) ∧
  (0xaffe, sample_account) ∈ accounts sample_world ∧
  keys (_get_concrete_state (accounts sample_world) [(0xaffe, 255)]) = [lit "0xaffe"] ∧
  ∃ data,
    dict_get (hex 0xaffe) (_get_concrete_state (accounts sample_world) [(0xaffe, 255)])
      = Some data ∧
    d_balance data = lit "0xff".
Proof.
  assert (NoDup (keys (accounts sample_world))) as Hnd.
  { apply NoDup_cons. split; [apply not_elem_of_nil|apply NoDup_nil_2]. }
  assert ((0xaffe, sample_account) ∈ accounts sample_world) as Hin
    by (apply list_elem_of_singleton; reflexivity).
  destruct (get_concrete_state_entries (accounts sample_world) [(0xaffe, 255)] 0xaffe
              sample_account Hnd Hin) as (Hkeys & data & Hget & _ & _ & _ & Hbalance & _).
  split; [exact Hnd|]. split; [exact Hin|]. split; [exact Hkeys|].
  exists data. split; [exact Hget|exact Hbalance].
Defined.

Lemma concrete_state_entry accts prices a account :
  NoDup (keys accts) → (a, account) ∈ accts →
  dict_get (hex a) (_get_concrete_state accts prices)
  = Some {| d_nonce := nonce account; d_code := bytecode (code account);
            d_storage := storage account;
            d_balance := hex (default 0 (dict_get a prices)) |}.
Proof.
  intros Hnd Hin. unfold _get_concrete_state.
  assert (∀ b, b ∈ keys accts → hex b ∉ keys (@nil (str * ConcreteAccount))) as Hfresh
    by (intros b _ Hb; by apply elem_of_nil in Hb).
  pose proof (concrete_state_from accts prices [] Hnd Hfresh) as Heq.
  cbv zeta in Heq. rewrite Heq, app_nil_l.
  by apply (dict_get_map_hex
              (λ a account,
                 {| d_nonce := nonce account; d_code := bytecode (code account);
                    d_storage := storage account;
                    d_balance := hex (default 0 (dict_get a prices)) |})
              accts a account).
Qed.

(** Every address of the world state has a price: the balance the model
    gives it. *)
Lemma min_price_dict_lookup model ws a :
  a ∈ keys (accounts ws) →
  dict_get a (min_price_dict model ws)
  = Some (eval model (starting_balance ws (BitVecVal a 256))).
Proof.
  unfold min_price_dict. generalize (keys (accounts ws)). intros l Hin.
  assert (∀ acc,
    a ∈ l ∨ dict_get a acc = Some (eval model (starting_balance ws (BitVecVal a 256))) →
    dict_get a (fold_left (λ d address,
        dict_set address (eval model (starting_balance ws (BitVecVal address 256))) d) l acc)
    = Some (eval model (starting_balance ws (BitVecVal a 256)))) as H.
  { clear Hin. induction l as [|x l IH]; intros acc Hcase; simpl.
    - destruct Hcase as [Hin|Hacc]; [by apply elem_of_nil in Hin|done].
    - apply IH. destruct (decide (a = x)) as [->|Hne].
      + right. apply dict_get_set.
      + destruct Hcase as [Hin|Hacc].
        * apply elem_of_cons in Hin as [?|Hin]; [done|by left].
        * right. by rewrite dict_get_set_ne. }
  apply H. by left.
Qed.

(* ===================================================================== *)
(** ** More on get_transaction_sequence *)
(* ===================================================================== *)

Section extraction_more.

Variable z3_check : Optimize → CheckSatResult.
Variable z3_model : Optimize → Model.
Variable hash_matcher : str.
Variable store_function : list N.
Variable concrete_keccak : Z → N → Z.

Lemma get_transaction_sequence_solving gs r st :
  get_transaction_sequence z3_check z3_model hash_matcher store_function concrete_keccak
    gs r st
  = match get_model z3_check z3_model
            (solver_call gs (default [] (constraints_store st !! r)))
            (solving_state gs r st) with
    | (Ok model, st2) => (extract hash_matcher store_function concrete_keccak gs model, st2)
    | (Raise e, st2) => (Raise e, st2)
    end.
Proof. apply get_transaction_sequence_unfold. Qed.

Lemma get_transaction_sequence_state gs r st :
  snd (get_transaction_sequence z3_check z3_model hash_matcher store_function
         concrete_keccak gs r st)
  = snd (get_model z3_check z3_model
           (solver_call gs (default [] (constraints_store st !! r)))
           (solving_state gs r st)).
Proof.
  rewrite get_transaction_sequence_solving.
  by destruct (get_model _ _ _ _) as [[model|e] st2].
Qed.

(** A successful extraction: the model [get_model] returned and what was
    extracted from it. *)
Lemma get_transaction_sequence_ok_model gs r st out st' :
  get_transaction_sequence z3_check z3_model hash_matcher store_function concrete_keccak
    gs r st = (Ok out, st') →
  ∃ model,
    get_model z3_check z3_model (solver_call gs (default [] (constraints_store st !! r)))
      (solving_state gs r st) = (Ok model, st') ∧
    extract hash_matcher store_function concrete_keccak gs model = Ok out.
Proof.
  rewrite get_transaction_sequence_solving.
  destruct (get_model _ _ _ _) as [[model|e] st2]; [|done].
  intros [= Hex <-]. eauto.
Qed.

(** The model a sound solver's table returns meets the constraints of the
    call. *)
Lemma cached_ok_sound c cs mi ma e st m st' :
  solver_sound z3_check z3_model → table_sound (lru st) →
  bind_args c = Some (cs, mi, ma, e) →
  get_model z3_check z3_model c st = (Ok m, st') →
  Forall (λ c, satisfies m c = true) cs.
Proof.
  intros Hsound Htable Hb Hrun.
  pose proof (cached_table_sound z3_check z3_model c st Hsound Htable) as Htable'.
  pose proof (cached_ok_stored z3_check z3_model c st m st' Hrun) as Hget.
  rewrite Hrun in Htable'. simpl in Htable'.
  apply cache_get_elem in Hget.
  destruct (Htable' _ _ Hget) as (cs' & mi' & ma' & e' & Hb' & Hall).
  rewrite Hb in Hb'. by injection Hb' as <- <- <- <-.
Qed.

(** X8. An extraction invokes the solver at most once. The session it hands over
    has the execution time enforced (the minimum of the configured timeout
    and the remaining time less 500, which is positive), asserts the caller's
    constraints and the minimisation constraints without their Python
    booleans, minimises the call data size and the call value of every
    transaction in order, and maximises nothing. With 500 ms or less left no
    session is handed over. *)
Theorem get_transaction_sequence_session gs r st :
  let run := get_transaction_sequence z3_check z3_model hash_matcher store_function
               concrete_keccak gs r st in
  let t := Z.min (solver_timeout st) (time_remaining st - 500) in
  (solver_calls (snd run) = solver_calls st ∨
   ∃ s, solver_calls (snd run) = solver_calls st ++ [s] ∧
        0 < t ∧ timeout s = Some t ∧
        assertions s
          = filter (λ c, is_bool c = false)
              (default [] (constraints_store st !! r)
               ++ minimisation_constraints (transaction_sequence gs) 5000 (gs_world_state gs)) ∧
        minimized s = flat_map transaction_objectives (transaction_sequence gs) ∧
        maximized s = []) ∧
  (time_remaining st ≤ 500 → solver_calls (snd run) = solver_calls st).
Proof.
  intros run t. subst run. rewrite get_transaction_sequence_state.
  set (c := solver_call gs (default [] (constraints_store st !! r))).
  set (st1 := solving_state gs r st).
  assert (effective_timeout true st1 = t) as Ht by done.
  destruct (cached_cases z3_check z3_model c st1)
    as [(m & _ & ->)|[(_ & _ & ->)|(cs & mi & ma & e & _ & Hb & [->|(Hpos & _ & ->)])]];
    try (split; [by left|done]).
  subst c. rewrite solver_call_binds in Hb. injection Hb as <- <- <- <-.
  specialize (Hpos eq_refl). rewrite Ht in *. split.
  - right. eexists. split; [by destruct (z3_check _)|].
    split; [done|]. split; [apply session_timeout|]. split; [apply session_assertions|].
    apply session_objectives.
  - intros Hspent. subst t. lia.
Qed.

(** X10. An extraction of an empty sequence never returns. It still solves the
    constraints first: it raises [UnsatError] when [get_model] does, and
    otherwise raises [IndexError] with the model found left in the table. *)
Theorem get_transaction_sequence_empty gs r st :
  transaction_sequence gs = [] →
  let run := get_transaction_sequence z3_check z3_model hash_matcher store_function
               concrete_keccak gs r st in
  fst run = Raise UnsatError ∧ lru (snd run) = lru st ∨
  fst run = Raise IndexError ∧
  ∃ model, cache_get (solver_call gs (default [] (constraints_store st !! r))) (lru (snd run))
           = Some model.
Proof.
  intros Hts run. subst run. rewrite get_transaction_sequence_solving.
  set (c := solver_call gs (default [] (constraints_store st !! r))).
  set (st1 := solving_state gs r st).
  assert (∀ model, extract hash_matcher store_function concrete_keccak gs model
                   = Raise IndexError) as Hex.
  { intros model. unfold extract. by rewrite Hts. }
  destruct (cached_cases z3_check z3_model c st1)
    as [(m & _ & ->)|[(_ & Hb & _)|(cs & mi & ma & e & _ & _ & [->|(_ & _ & ->)])]].
  - right. rewrite Hex. split; [done|]. exists m. apply cache_get_touch.
  - subst c. by rewrite solver_call_binds in Hb.
  - by left.
  - destruct (z3_check _); simpl; [|by left|by left].
    right. rewrite Hex. split; [done|]. eexists. apply cache_get_put.
Qed.

(** X12. An extraction made again for the same constraints is answered from the
    table: it returns the same sequence without the solver, however little
    time is left by then. *)
Theorem get_transaction_sequence_again gs r st out st' t :
  (r < length (constraints_store st))%nat →
  get_transaction_sequence z3_check z3_model hash_matcher store_function concrete_keccak
    gs r st = (Ok out, st') →
  let again := get_transaction_sequence z3_check z3_model hash_matcher store_function
                 concrete_keccak gs r (set_time_remaining t st') in
  fst again = Ok out ∧ solver_calls (snd again) = solver_calls st'.
Proof.
  intros Hr Hrun again. subst again.
  destruct (get_transaction_sequence_ok_model gs r st out st' Hrun) as (model & Hmodel & Hex).
  pose proof (cached_ok_stored z3_check z3_model _ _ _ _ Hmodel) as Hget.
  assert (constraints_store st' !! r = constraints_store st !! r) as Hsame.
  { pose proof (get_model_stores z3_check z3_model
                  (solver_call gs (default [] (constraints_store st !! r)))
                  (solving_state gs r st)) as Hstores.
    rewrite Hmodel in Hstores. simpl in Hstores. rewrite Hstores. by apply lookup_app_l. }
  rewrite get_transaction_sequence_solving.
  cbn [constraints_store set_time_remaining]. rewrite Hsame.
  rewrite (cached_hit z3_check z3_model _ model) by done.
  rewrite Hex. done.
Qed.

(** X13. The balances of the initial state are the model's: every account of the
    first transaction's world state has its entry, whose balance is [hex] of
    the starting balance the model in the table gives that address; the
    default of zero is never used. The entry carries the account's code. *)
Theorem get_transaction_sequence_balances gs r st out st' first a account :
  get_transaction_sequence z3_check z3_model hash_matcher store_function concrete_keccak
    gs r st = (Ok out, st') →
  head (transaction_sequence gs) = Some first →
  NoDup (keys (accounts (world_state first))) →
  (a, account) ∈ accounts (world_state first) →
  ∃ model data,
    cache_get (solver_call gs (default [] (constraints_store st !! r))) (lru st') = Some model ∧
    dict_get (hex a) (initialState out) = Some data ∧
    d_code data = bytecode (code account) ∧
    d_balance data
      = hex (eval model (starting_balance (world_state first) (BitVecVal a 256))) ∧
    int16 (d_balance data)
      = Some (eval model (starting_balance (world_state first) (BitVecVal a 256))).
Proof.
  intros Hrun Hfirst Hnd Hin.
  destruct (get_transaction_sequence_ok_model gs r st out st' Hrun) as (model & Hmodel & Hex).
  exists model. unfold extract in Hex.
  destruct (transaction_sequence gs) as [|first' rest]; [done|].
  injection Hfirst as ->.
  unfold mbind, result_bind, mret, result_ret in Hex.
  destruct (map_result _ _) as [cts|e]; [|done].
  destruct (_replace_with_actual_sha _ _ _ _ _ _) as [cts'|e]; [|done].
  injection Hex as <-. simpl.
  rewrite (concrete_state_entry _ _ a account Hnd Hin).
  rewrite min_price_dict_lookup by (apply list_elem_of_fmap; by exists (a, account)).
  eexists. split; [by eapply cached_ok_stored|]. split; [done|]. simpl.
  split; [done|]. split; [done|]. apply int16_hex_roundtrip.
Qed.

(** X14. Over a sound solver no account is reported with more than 10^20: when
    the first transaction's world state shares the array of starting
    balances with the state's own, an account of both whose address is its
    key has a balance between zero and 10^20 in the initial state. *)
Theorem get_transaction_sequence_balance_bound gs r st out st' first a account :
  solver_sound z3_check z3_model →
  table_sound (lru st) →
  get_transaction_sequence z3_check z3_model hash_matcher store_function concrete_keccak
    gs r st = (Ok out, st') →
  head (transaction_sequence gs) = Some first →
  starting_balances (world_state first) = starting_balances (gs_world_state gs) →
  NoDup (keys (accounts (world_state first))) →
  (a, account) ∈ accounts (world_state first) →
  account ∈ values (accounts (gs_world_state gs)) →
  address account = BitVecVal a 256 →
  ∃ data balance,
    dict_get (hex a) (initialState out) = Some data ∧
    int16 (d_balance data) = Some balance ∧
    0 ≤ balance ≤ 10 ^ 20.
Proof.
  intros Hsound Htable Hrun Hfirst Hsame Hnd Hin Hacc Haddr.
  destruct (get_transaction_sequence_ok_model gs r st out st' Hrun) as (model & Hmodel & Hex).
  assert (Forall (λ c, satisfies model c = true)
            (default [] (constraints_store st !! r)
             ++ minimisation_constraints (transaction_sequence gs) 5000 (gs_world_state gs)))
    as Hall.
  { eapply cached_ok_sound; [done| |apply solver_call_binds|done]. done. }
  apply Forall_app in Hall as [_ Hmin].
  assert (satisfies model (account_constraint (gs_world_state gs) account) = true) as Hbound.
  { eapply Forall_forall in Hmin; [done|]. unfold minimisation_constraints.
    apply elem_of_app. right. by apply list_elem_of_fmap_2. }
  apply account_constraint_holds in Hbound.
  unfold extract in Hex.
  destruct (transaction_sequence gs) as [|first' rest]; [done|].
  injection Hfirst as ->.
  unfold mbind, result_bind, mret, result_ret in Hex.
  destruct (map_result _ _) as [cts|e]; [|done].
  destruct (_replace_with_actual_sha _ _ _ _ _ _) as [cts'|e]; [|done].
  injection Hex as <-. simpl.
  rewrite (concrete_state_entry _ _ a account Hnd Hin).
  rewrite min_price_dict_lookup by (apply list_elem_of_fmap; by exists (a, account)).
  eexists. eexists. split; [done|]. cbn [d_balance default].
  split; [apply int16_hex_roundtrip|].
  split; [apply eval_range|].
  unfold starting_balance in *. rewrite Hsame, <- Haddr. done.
Qed.

End extraction_more.

(** *** More sample extractions *)

Lemma sample_transactions_well_formed model :
  Forall (well_formed model) (transaction_sequence two_step_state).
Proof.
  apply Forall_cons. split; [|apply Forall_cons; split; [|apply Forall_nil_2]].
  - split; [by eexists|]. split; [|by apply Forall_nil_2].
    intros code [= <-]. by apply hex_string_forallb.
  - split; [by eexists|]. split; [intros code Hcode; discriminate Hcode|].
    simpl. repeat (apply Forall_cons; split; [lia|]). apply Forall_nil_2.
Qed.

Lemma get_transaction_sequence_returns_witness :
  let run := get_transaction_sequence (tries zero_model) (gives zero_model) marker one_width
               Keccak.concrete_keccak two_step_state 0 one_object_state in
  fst run = Raise UnsatError ∨ ∃ out, fst run = Ok out.
Proof.
  exact (get_transaction_sequence_returns (tries zero_model) (gives zero_model) marker one_width
           Keccak.concrete_keccak two_step_state 0 one_object_state _ _ eq_refl
           sample_transactions_well_formed).
Defined.

Lemma get_transaction_sequence_empty_witness :
  let run := get_transaction_sequence (tries zero_model) (gives zero_model) marker one_width
               Keccak.concrete_keccak empty_state 0 one_object_state in
  transaction_sequence empty_state = [] ∧
  (fst run = Raise UnsatError ∧ lru (snd run) = lru one_object_state ∨
   fst run = Raise IndexError ∧
   ∃ model, cache_get (solver_call empty_state
                         (default [] (constraints_store one_object_state !! 0%nat)))
              (lru (snd run)) = Some model).
Proof.
  split; [reflexivity|].
  exact (get_transaction_sequence_empty (tries zero_model) (gives zero_model) marker one_width
           Keccak.concrete_keccak empty_state 0 one_object_state eq_refl).
Defined.

Example get_transaction_sequence_empty_sample :
  let run := get_transaction_sequence (tries zero_model) (gives zero_model) marker one_width
               Keccak.concrete_keccak empty_state 0 one_object_state in
  fst run = Raise IndexError ∧ length (solver_calls (snd run)) = 1%nat.
Proof. vm_compute. split; reflexivity. Qed.

Lemma get_transaction_sequence_again_witness :
  let run := get_transaction_sequence (tries zero_model) (gives zero_model) marker one_width
               Keccak.concrete_keccak two_step_state 0 one_object_state in
  let again := get_transaction_sequence (tries zero_model) (gives zero_model) marker one_width
                 Keccak.concrete_keccak two_step_state 0 (set_time_remaining 0 (snd run)) in
  (0 < length (constraints_store one_object_state))%nat ∧
  ∃ out, run = (Ok out, snd run) ∧
         fst again = Ok out ∧ solver_calls (snd again) = solver_calls (snd run).
Proof.
  intros run again.
  assert (0 < length (constraints_store one_object_state))%nat as Hr by (simpl; lia).
  assert (∃ out, run = (Ok out, snd run)) as [out Hout].
  { vm_compute. eexists. reflexivity. }
  split; [exact Hr|]. exists out. split; [exact Hout|].
  exact (get_transaction_sequence_again (tries zero_model) (gives zero_model) marker one_width
           Keccak.concrete_keccak two_step_state 0 one_object_state out (snd run) 0 Hr Hout).
Defined.

Lemma sample_world_keys : NoDup (keys (accounts sample_world)).
Proof. apply NoDup_cons. split; [apply not_elem_of_nil|apply NoDup_nil_2]. Qed.

Lemma get_transaction_sequence_balances_witness :
  let run := get_transaction_sequence (tries (balance_model 255)) (gives (balance_model 255))
               marker one_width Keccak.concrete_keccak two_step_state 0 one_object_state in
  ∃ out data,
    run = (Ok out, snd run) ∧
    dict_get (hex 0xaffe) (initialState out) = Some data ∧
    d_code data = bytecode (code sample_account).
Proof.
  intros run.
  assert (∃ out, run = (Ok out, snd run)) as [out Hout].
  { vm_compute. eexists. reflexivity. }
  assert ((0xaffe, sample_account) ∈ accounts (world_state creation_transaction)) as Hin
    by (apply list_elem_of_singleton; reflexivity).
  destruct (get_transaction_sequence_balances (tries (balance_model 255))
              (gives (balance_model 255)) marker one_width Keccak.concrete_keccak
              two_step_state 0 one_object_state out (snd run) creation_transaction
              0xaffe sample_account Hout eq_refl sample_world_keys Hin)
    as (model & data & _ & Hget & Hcode & _).
  exists out, data. split; [exact Hout|]. split; [exact Hget|exact Hcode].
Defined.

Lemma get_transaction_sequence_balance_bound_witness :
  let run := get_transaction_sequence (tries (balance_model 255)) (gives (balance_model 255))
               marker one_width Keccak.concrete_keccak two_step_state 0 one_object_state in
  ∃ out data balance,
    run = (Ok out, snd run) ∧
    dict_get (hex 0xaffe) (initialState out) = Some data ∧
    int16 (d_balance data) = Some balance ∧
    0 ≤ balance ≤ 10 ^ 20.
Proof.
  intros run.
  assert (∃ out, run = (Ok out, snd run)) as [out Hout].
  { vm_compute. eexists. reflexivity. }
  assert ((0xaffe, sample_account) ∈ accounts (world_state creation_transaction)) as Hin
    by (apply list_elem_of_singleton; reflexivity).
  assert (sample_account ∈ values (accounts (gs_world_state two_step_state))) as Hacc
    by (apply list_elem_of_singleton; reflexivity).
  destruct (get_transaction_sequence_balance_bound (tries (balance_model 255))
              (gives (balance_model 255)) marker one_width Keccak.concrete_keccak
              two_step_state 0 one_object_state out (snd run) creation_transaction
              0xaffe sample_account (tries_sound (balance_model 255))
              (table_all_nil _) Hout eq_refl eq_refl sample_world_keys Hin Hacc eq_refl)
    as (data & balance & Hget & Hread & Hbound).
  exists out, data, balance. split; [exact Hout|]. split; [exact Hget|].
  split; [exact Hread|exact Hbound].
Defined.

(* ===================================================================== *)
(** ** More on _replace_with_actual_sha *)
(* ===================================================================== *)

Lemma startswith_length p s : startswith p s = true → (length p ≤ length s)%nat.
Proof.
  revert s. induction p as [|a p IH]; intros s; simpl; [lia|].
  destruct s as [|b s]; [done|]. destruct (decide (a = b)); [|done].
  intros H. apply IH in H. simpl. lia.
Qed.

Lemma replace_from_length old new skip s :
  length new = length old → (0 < length old)%nat → (skip ≤ length s)%nat →
  length (replace_from old new skip s) = (length s - skip)%nat.
Proof.
  intros Hnew Hold. revert skip. induction s as [|c s IH]; intros skip Hskip; simpl.
  - lia.
  - destruct skip as [|k].
    + destruct (startswith old (c :: s)) eqn:Hstart.
      * apply startswith_length in Hstart. simpl in Hstart.
        rewrite length_app, IH by lia. lia.
      * simpl. rewrite IH by lia. lia.
    + simpl in Hskip. rewrite IH by lia. lia.
Qed.

Lemma str_replace_length old new s :
  length new = length old → (0 < length old)%nat →
  length (str_replace old new s) = length s.
Proof.
  intros Hnew Hold. destruct old as [|o old]; [simpl in Hold; lia|].
  unfold str_replace. rewrite replace_from_length by (done || lia). lia.
Qed.

Lemma replace_from_skip_all old new skip s :
  (length s ≤ skip)%nat → replace_from old new skip s = [].
Proof.
  revert skip. induction s as [|c s IH]; intros skip Hskip; [done|].
  simpl in *. destruct skip as [|k]; [lia|]. apply IH. lia.
Qed.

(** Replacing a text in itself leaves the new text. *)
Lemma str_replace_self old new : old ≠ [] → str_replace old new old = new.
Proof.
  intros Hne. destruct old as [|o old]; [done|].
  unfold str_replace. cbn [replace_from]. rewrite startswith_refl.
  rewrite replace_from_skip_all by (simpl; lia). apply app_nil_r.
Qed.

Lemma contains_app_r sub p s : contains sub s = true → contains sub (p ++ s) = true.
Proof.
  intros H. induction p as [|c p IH]; [done|]. simpl. rewrite IH. apply orb_true_r.
Qed.

(** The digits written for a digest below 2^256: its hexadecimal digits
    filled with zeros to sixty-four. *)
Lemma digest_text_digits k :
  0 ≤ k < 2 ^ 256 →
  digest_text k = repeat "0"%char (64 - length (fmt_x k)) ++ fmt_x k ∧
  length (digest_text k) = 64%nat ∧
  hex_string (digest_text k) ∧
  int16 (digest_text k) = Some k.
Proof.
  intros [Hk Hlt]. destruct (fmt_x_digits k Hk) as (Hhex & Hdigits & Hne & Hval).
  assert (length (fmt_x k) ≤ 64)%nat as Hlen.
  { apply fmt_x_length; [|lia]. split; [done|]. by change (16 ^ Z.of_nat 64) with (2 ^ 256). }
  assert (digest_text k = repeat "0"%char (64 - length (fmt_x k)) ++ fmt_x k) as Heq.
  { unfold digest_text, pad_hex_keccak. rewrite Hhex.
    destruct (decide _) as [Hshort|Hfull].
    - change (drop 2 (lit "0x" ++ ?x)) with x.
      rewrite length_app. simpl length.
      by replace (66 - (2 + length (fmt_x k)))%nat with (64 - length (fmt_x k))%nat by lia.
    - change (drop 2 (lit "0x" ++ ?x)) with x.
      apply dec_stable in Hfull. rewrite length_app in Hfull. simpl in Hfull.
      by replace (64 - length (fmt_x k))%nat with 0%nat by lia. }
  assert (hex_string (digest_text k)) as Hhs.
  { rewrite Heq. apply Forall_app. split; [|done].
    apply Forall_forall. intros c Hc. apply list_elem_of_In, repeat_spec in Hc. by subst. }
  split; [done|]. split; [|split; [done|]].
  - rewrite Heq, length_app, repeat_length. lia.
  - rewrite int16_plain; [|done|].
    + rewrite Heq. destruct (64 - length (fmt_x k))%nat as [|n]; [done|].
      rewrite digits16_zeros by lia.
      destruct (fmt_x k) as [|c d] eqn:Hd; [done|].
      rewrite <- Hval. simpl.
      inversion Hdigits as [|? ? Hc _]; subst.
      pose proof (hex_digit_plain c Hc) as (_ & _ & _ & Hu & _).
      rewrite !decide_False by done. done.
    + rewrite Heq. intros Hnil. apply app_eq_nil in Hnil as [_ Hnil]. done.
Qed.

Lemma keeps_layout_refl s_index tx : keeps_layout s_index tx tx.
Proof. by repeat split. Qed.

Lemma keeps_layout_trans s_index a b c :
  keeps_layout s_index a b → keeps_layout s_index b c → keeps_layout s_index a c.
Proof.
  intros (H1 & H2 & H3 & H4 & H5) (G1 & G2 & G3 & G4 & G5).
  repeat split; congruence.
Qed.

Section resolver_layout.

Variable hash_matcher : str.
Variable store_function : list N.
Variable concrete_keccak : Z → N → Z.
Variable model : Model.

Lemma find_concrete_keccak_range input_ :
  0 ≤ find_concrete_keccak concrete_keccak input_ < 2 ^ 256.
Proof. unfold find_concrete_keccak. apply Z.mod_pos_bound. lia. Qed.

Lemma spliced_layout s_index i input_ input :
  (s_index ≤ i)%nat → length (slice i (i + 64) input) = 64%nat →
  length (spliced concrete_keccak s_index i input_ input) = length input ∧
  take s_index (spliced concrete_keccak s_index i input_ input) = take s_index input.
Proof.
  intros Hi Hlen. unfold spliced.
  assert (i + 64 ≤ length input)%nat as Hlong.
  { unfold slice in Hlen. rewrite length_take, length_drop in Hlen. lia. }
  replace (64 + i)%nat with (i + 64)%nat by lia.
  fold (digest_text (find_concrete_keccak concrete_keccak input_)).
  destruct (digest_text_digits _ (find_concrete_keccak_range input_)) as (_ & Hdigest & _).
  split.
  - rewrite length_app, length_take, str_replace_length, length_drop by lia. lia.
  - rewrite take_app_le by (rewrite length_take; lia). apply take_idemp.
Qed.

(** A turn of the window loop changes nothing or rewrites the transaction at
    hand, keeping its layout. *)
Lemma window_layout k s_index txs i txs' :
  (s_index ≤ i)%nat →
  window_step hash_matcher store_function concrete_keccak model k s_index txs i = Ok txs' →
  txs' = txs ∨
  ∃ tx tx', txs !! k = Some tx ∧ txs' = <[k := tx']> txs ∧ keeps_layout s_index tx tx'.
Proof.
  intros Hi H.
  destruct (window_outcome hash_matcher store_function concrete_keccak model _ _ _ _ _ H)
    as [->|(tx & input_ & Hk & Hw & ->)]; [by left|].
  right. eexists tx, _. split; [done|]. split; [done|].
  unfold is_marker_window in Hw. apply andb_true_iff in Hw as [_ Hlen].
  apply Nat.eqb_eq in Hlen.
  destruct (spliced_layout s_index i input_ (c_input tx) Hi Hlen) as [Hl Ht].
  by repeat split.
Qed.

(** A turn of the transaction loop rewrites the transaction at hand and no
    other; it leaves its layout, and leaves it alone when it has no marker
    window. *)
Lemma one_tx_layout code txs k txs' tx :
  tx_step hash_matcher store_function concrete_keccak model code txs k = Ok txs' →
  txs !! k = Some tx →
  ∃ tx', txs' = <[k := tx']> txs ∧
         keeps_layout (search_offset code (c_input tx)) tx tx' ∧
         (marker_windows hash_matcher code tx = [] → tx' = tx).
Proof.
  intros H Hk.
  assert (k < length txs)%nat as Hlt by (by eapply lookup_lt_Some).
  assert (∃ tx', txs' = <[k := tx']> txs ∧
                 keeps_layout (search_offset code (c_input tx)) tx tx') as (tx' & Heq & Hkeep).
  { unfold tx_step in H. rewrite Hk in H.
    destruct (negb _).
    - injection H as <-. exists tx. split; [by rewrite list_insert_id|apply keeps_layout_refl].
    - fold (search_offset code (c_input tx)) in H. revert H.
      apply (fold_result_inv
               (λ s, ∃ tx', s = <[k := tx']> txs ∧
                            keeps_layout (search_offset code (c_input tx)) tx tx')
               (λ i, search_offset code (c_input tx) ≤ i)%nat).
      + intros s i s' (tx1 & -> & Hkeep) Hi Hw.
        destruct (window_layout _ _ _ _ _ Hi Hw) as [->|(txc & tx2 & Hc & -> & Hkeep2)];
          [eauto|].
        rewrite list_lookup_insert_eq in Hc by done. injection Hc as <-.
        exists tx2. rewrite list_insert_insert_eq. split; [done|].
        by eapply keeps_layout_trans.
      + apply Forall_forall. intros i Hi. by apply range_step_ge in Hi.
      + exists tx. split; [by rewrite list_insert_id|apply keeps_layout_refl]. }
  exists tx'. split; [done|]. split; [done|].
  intros Hnone.
  rewrite (one_tx_no_window hash_matcher store_function concrete_keccak model code txs k tx
             Hk Hnone) in H.
  injection H as <-. apply (f_equal (λ l, l !! k)) in Heq.
  rewrite list_lookup_insert_eq, Hk in Heq by done. by injection Heq.
Qed.

(** The transaction loop from position [k] on. *)
Lemma resolver_from code m : ∀ k l l',
  fold_result (tx_step hash_matcher store_function concrete_keccak model code) (seq k m) l
    = Ok l' →
  (∀ j, (j < k)%nat → l' !! j = l !! j) ∧
  ∀ j tx, l !! j = Some tx →
    ∃ tx', l' !! j = Some tx' ∧
           keeps_layout (search_offset code (c_input tx)) tx tx' ∧
           (marker_windows hash_matcher code tx = [] → tx' = tx).
Proof.
  induction m as [|m IH]; intros k l l' H.
  - injection H as <-. split; [done|]. intros j tx Hj. exists tx.
    split; [done|]. split; [apply keeps_layout_refl|done].
  - cbn [seq fold_result] in H. unfold mbind, result_bind in H.
    destruct (tx_step _ _ _ _ _ l k) as [l1|e] eqn:Hstep; [|done].
    destruct (IH (S k) l1 l' H) as [Hbefore Hall].
    destruct (l !! k) as [txk|] eqn:Hk.
    + destruct (one_tx_layout code l k l1 txk Hstep Hk) as (tx1 & -> & Hkeep & Hnone).
      assert (k < length l)%nat as Hlt by (by eapply lookup_lt_Some).
      split.
      * intros j Hj. rewrite Hbefore by lia. apply list_lookup_insert_ne. lia.
      * intros j tx Hj. destruct (decide (j = k)) as [->|Hne].
        -- rewrite Hk in Hj. injection Hj as <-. exists tx1.
           rewrite Hbefore by lia. by rewrite list_lookup_insert_eq.
        -- apply Hall. by rewrite list_lookup_insert_ne.
    + unfold tx_step in Hstep. rewrite Hk in Hstep. injection Hstep as <-.
      split; [|done]. intros j Hj. apply Hbefore. lia.
Qed.

(** X15. The resolver keeps the layout of every transaction: the length of its
    input, the characters before the search offset ("0x", the bytecode the
    search skips and the eight characters after it, the first ten in any
    case), and its value, origin and address. *)
Theorem replace_with_actual_sha_keeps_layout txs code txs' k tx :
  _replace_with_actual_sha hash_matcher store_function concrete_keccak model txs code
    = Ok txs' →
  txs !! k = Some tx →
  ∃ tx',
    txs' !! k = Some tx' ∧
    length (c_input tx') = length (c_input tx) ∧
    take (search_offset code (c_input tx)) (c_input tx')
      = take (search_offset code (c_input tx)) (c_input tx) ∧
    take 10 (c_input tx') = take 10 (c_input tx) ∧
    c_value tx' = c_value tx ∧ c_origin tx' = c_origin tx ∧ c_address tx' = c_address tx.
Proof.
  intros H Hk. unfold _replace_with_actual_sha in H.
  destruct (resolver_from code _ _ _ _ H) as [_ Hall].
  destruct (Hall k tx Hk) as (tx' & Hk' & (Hlen & Htake & Hv & Ho & Ha) & _).
  exists tx'. repeat (split; [done|]). split; [|done].
  pose proof (search_offset_ge code (c_input tx)) as Hge.
  apply (f_equal (take 10)) in Htake. rewrite !take_take in Htake.
  by replace (10 `min` search_offset code (c_input tx))%nat with 10%nat in Htake by lia.
Qed.

(** X16. A transaction is rewritten only on account of its own marker windows:
    one whose input does not hold the marker, or holds it in no window, comes
    back as it was, whatever the resolver does to the others. *)
Theorem replace_with_actual_sha_untouched txs code txs' k tx :
  _replace_with_actual_sha hash_matcher store_function concrete_keccak model txs code
    = Ok txs' →
  txs !! k = Some tx →
  (contains hash_matcher (c_input tx) = false → txs' !! k = Some tx) ∧
  (marker_windows hash_matcher code tx = [] → txs' !! k = Some tx).
Proof.
  intros H Hk. unfold _replace_with_actual_sha in H.
  destruct (resolver_from code _ _ _ _ H) as [_ Hall].
  destruct (Hall k tx Hk) as (tx' & Hk' & _ & Hnone).
  assert (marker_windows hash_matcher code tx = [] → txs' !! k = Some tx) as Hwin.
  { intros Hw. by rewrite Hk', (Hnone Hw). }
  split; [|done]. intros Hno. apply Hwin. unfold marker_windows. by rewrite Hno.
Qed.

End resolver_layout.

Section resolver_choice.

Variable hash_matcher : str.
Variable concrete_keccak : Z → N → Z.
Variable model : Model.

Lemma find_input_loop_cons txs digest size rest acc v :
  inverse_value model size digest = Some v →
  find_input_loop model txs digest (size :: rest) acc
  = if visible txs (v mod 2 ^ Z.of_N size) then Some (v mod 2 ^ Z.of_N size, size)
    else find_input_loop model txs digest rest (Some (v mod 2 ^ Z.of_N size, size)).
Proof. intros H. cbn [find_input_loop]. by rewrite H. Qed.

Lemma find_input_loop_choice_from txs digest sizes acc v size :
  find_input_loop model txs digest sizes acc = Some (v, size) →
  (acc = Some (v, size) ∧ ∀ s, s ∈ sizes → inverse_value model s digest = None) ∨
  ∃ before after v0,
    sizes = before ++ size :: after ∧
    inverse_value model size digest = Some v0 ∧ v = v0 mod 2 ^ Z.of_N size ∧
    (∀ s w, s ∈ before → inverse_value model s digest = Some w →
            visible txs (w mod 2 ^ Z.of_N s) = false) ∧
    (visible txs v = true ∨ ∀ s, s ∈ after → inverse_value model s digest = None).
Proof.
  revert acc. induction sizes as [|s0 rest IH]; intros acc H.
  - left. split; [done|]. intros s Hs. by apply elem_of_nil in Hs.
  - destruct (inverse_value model s0 digest) as [w0|] eqn:Hinv.
    + rewrite (find_input_loop_cons _ _ _ _ _ _ Hinv) in H.
      destruct (visible txs (w0 mod 2 ^ Z.of_N s0)) eqn:Hvis.
      * injection H as <- <-. right. exists [], rest, w0.
        split; [done|]. split; [done|]. split; [done|]. split; [|by left].
        intros s w Hs. by apply elem_of_nil in Hs.
      * destruct (IH _ H) as [[Hacc Hnone]|(before & after & v0 & -> & Hv0 & -> & Hbefore & Hafter)].
        -- injection Hacc as <- <-. right. exists [], rest, w0.
           split; [done|]. split; [done|]. split; [done|]. split; [|by right].
           intros s w Hs. by apply elem_of_nil in Hs.
        -- right. exists (s0 :: before), after, v0.
           split; [done|]. split; [done|]. split; [done|]. split; [|done].
           intros s w Hs Hw. apply elem_of_cons in Hs as [->|Hs]; [|by eapply Hbefore].
           rewrite Hinv in Hw. by injection Hw as <-.
    + rewrite find_input_loop_skip in H by done.
      destruct (IH _ H) as [[Hacc Hnone]|(before & after & v0 & -> & Hv0 & -> & Hbefore & Hafter)].
      * left. split; [done|]. intros s Hs.
        apply elem_of_cons in Hs as [->|Hs]; [done|by apply Hnone].
      * right. exists (s0 :: before), after, v0.
        split; [done|]. split; [done|]. split; [done|]. split; [|done].
        intros s w Hs Hw. apply elem_of_cons in Hs as [->|Hs]; [|by eapply Hbefore].
        by rewrite Hinv in Hw.
Qed.

(** X17. Which candidate the search over the registered widths settles on: the
    value, taken modulo its width, that the model gives the inverse at one of
    the widths. No earlier width had a value whose digits are visible in an
    input; and either the digits of the candidate are visible, or no later
    width has a value at all: without a visible candidate the last width
    with a value wins. *)
Theorem find_input_loop_choice txs digest sizes v size :
  find_input_loop model txs digest sizes None = Some (v, size) →
  ∃ before after v0,
    sizes = before ++ size :: after ∧
    inverse_value model size digest = Some v0 ∧ v = v0 mod 2 ^ Z.of_N size ∧
    (∀ s w, s ∈ before → inverse_value model s digest = Some w →
            visible txs (w mod 2 ^ Z.of_N s) = false) ∧
    (visible txs v = true ∨ ∀ s, s ∈ after → inverse_value model s digest = None).
Proof.
  intros H. by destruct (find_input_loop_choice_from _ _ _ _ _ _ H) as [[? _]|?].
Qed.

(** X18. One window resolved. A call whose input is ten characters and one
    window of sixty-four that holds the marker and reads as the number [n]:
    with one registered width, at which the model gives the inverse of [n]
    the value [v], the window is replaced by the sixty-four digits of the
    digest of [v], and these read back to the digest. *)
Theorem replace_with_actual_sha_one_window tx selector window n size v :
  c_input tx = selector ++ window →
  length selector = 10%nat → length window = 64%nat →
  contains hash_matcher window = true →
  int16 window = Some n →
  inverse_value model size (n mod 2 ^ 256) = Some v →
  let digest := find_concrete_keccak concrete_keccak (v mod 2 ^ Z.of_N size, size) in
  _replace_with_actual_sha hash_matcher [size] concrete_keccak model [tx] None
    = Ok [set_input (selector ++ digest_text digest) tx] ∧
  length (digest_text digest) = 64%nat ∧
  int16 (digest_text digest) = Some digest.
Proof.
  intros Hinput Hsel Hwin Hmark Hn Hinv digest.
  destruct (digest_text_digits digest (find_concrete_keccak_range concrete_keccak _))
    as (_ & Hlen & _ & Hread).
  split; [|done].
  assert (length (c_input tx) = 74%nat) as Hlength.
  { rewrite Hinput, length_app. lia. }
  assert (drop 10 (c_input tx) = window) as Hdrop.
  { rewrite Hinput, drop_app_length'; done. }
  assert (take 10 (c_input tx) = selector) as Htake.
  { rewrite Hinput, take_app_length'; done. }
  assert (∀ j, slice 10 j (c_input tx) = take (j - 10) window) as Hslice.
  { intros j. unfold slice. by rewrite Hdrop. }
  unfold _replace_with_actual_sha. cbn [length seq fold_result].
  unfold tx_step. cbn [lookup list_lookup].
  rewrite Hinput, (contains_app_r _ _ _ Hmark), <- Hinput. cbn [negb].
  rewrite Hlength. change (range_step 10 74 64) with [10%nat]. cbn [fold_result].
  unfold window_step. cbn [lookup list_lookup].
  rewrite !Hslice. change (10 + 64 - 10)%nat with 64%nat. change (64 + 10 - 10)%nat with 64%nat.
  rewrite take_ge by lia. rewrite Hmark, Hwin, Hn. cbn [negb orb Nat.eqb].
  rewrite (find_input_loop_cons _ _ _ _ _ _ Hinv). cbn [find_input_loop].
  rewrite Htake, Hdrop.
  assert (window ≠ []) as Hne by (intros ->; done).
  assert (∀ input_,
    Ok (<[0%nat := set_input
                     (selector
                      ++ str_replace window
                           (drop 2 (pad_hex_keccak
                                      (hex (find_concrete_keccak concrete_keccak input_))))
                           window) tx]> [tx])
    = Ok [set_input
            (selector ++ digest_text (find_concrete_keccak concrete_keccak input_)) tx])
    as Hwrite.
  { intros input_. by rewrite (str_replace_self window _ Hne). }
  by destruct (visible _ _); rewrite Hwrite.
Qed.

End resolver_choice.

(** *** More sample runs of the resolver *)

Lemma replace_with_actual_sha_keeps_layout_witness :
  let txs := [call_with_input overlapping_input; call_with_input marker_input] in
  ∃ txs' tx',
    _replace_with_actual_sha marker one_width Keccak.concrete_keccak inverse_zero_model txs None
      = Ok txs' ∧
    txs' !! 0%nat = Some tx' ∧
    length (c_input tx') = length overlapping_input ∧
    take 10 (c_input tx') = take 10 overlapping_input.
Proof.
  intros txs.
  assert (∃ txs', _replace_with_actual_sha marker one_width Keccak.concrete_keccak
                    inverse_zero_model txs None = Ok txs') as [txs' Hrun].
  { vm_compute. eexists. reflexivity. }
  destruct (replace_with_actual_sha_keeps_layout marker one_width Keccak.concrete_keccak
              inverse_zero_model txs None txs' 0 (call_with_input overlapping_input)
              Hrun eq_refl) as (tx' & Hk & Hlen & _ & Htake & _).
  exists txs', tx'. split; [exact Hrun|]. split; [exact Hk|]. split; [exact Hlen|exact Htake].
Defined.

Lemma replace_with_actual_sha_untouched_witness :
  let plain := call_with_input (lit "0xa9059cbb01") in
  let txs := [plain; call_with_input marker_input] in
  let resolved :=
    lit "0xa9059cbb290decd9548b62a8d60345a988386fc84ba6bc95484008f6362f93160ef3e563" in
  ∃ txs',
    _replace_with_actual_sha marker one_width Keccak.concrete_keccak inverse_zero_model txs None
      = Ok txs' ∧
    txs' !! 0%nat = Some plain ∧
    txs' !! 1%nat = Some (call_with_input resolved).
Proof.
  intros plain txs resolved.
  assert (∃ txs', _replace_with_actual_sha marker one_width Keccak.concrete_keccak
                    inverse_zero_model txs None = Ok txs'
                  ∧ txs' !! 1%nat = Some (call_with_input resolved)) as (txs' & Hrun & Hother).
  { vm_compute. eexists. split; reflexivity. }
  destruct (replace_with_actual_sha_untouched marker one_width Keccak.concrete_keccak
              inverse_zero_model txs None txs' 0 plain Hrun eq_refl) as [Hplain _].
  exists txs'. split; [exact Hrun|]. split; [exact (Hplain eq_refl)|exact Hother].
Defined.

Lemma find_input_loop_choice_witness :
  find_input_loop inverse_zero_model [call_with_input marker_input] 0 one_width None
    = Some (0, 256%N) ∧
  ∃ before after v0,
    one_width = before ++ 256%N :: after ∧
    inverse_value inverse_zero_model 256 0 = Some v0 ∧ 0 = v0 mod 2 ^ Z.of_N 256.
Proof.
  split; [reflexivity|].
  destruct (find_input_loop_choice inverse_zero_model [call_with_input marker_input] 0
              one_width 0 256%N eq_refl) as (before & after & v0 & Hsplit & Hv0 & Hmod & _).
  exists before, after, v0. split; [exact Hsplit|]. split; [exact Hv0|exact Hmod].
Defined.

Lemma replace_with_actual_sha_one_window_witness :
  _replace_with_actual_sha marker [256%N] Keccak.concrete_keccak inverse_zero_model
    [call_with_input marker_input] None
  = Ok [set_input
          (lit "0xa9059cbb"
           ++ digest_text (find_concrete_keccak Keccak.concrete_keccak (0 mod 2 ^ Z.of_N 256, 256%N)))
          (call_with_input marker_input)].
Proof.
  exact (proj1 (replace_with_actual_sha_one_window marker Keccak.concrete_keccak
                  inverse_zero_model (call_with_input marker_input) (lit "0xa9059cbb")
                  (repeat "f"%char 64) (2 ^ 256 - 1) 256%N 0
                  eq_refl eq_refl eq_refl eq_refl eq_refl eq_refl)).
Defined.

(** Two widths with values and no visible candidate: the later width wins. *)
Example find_input_loop_last_wins :
  find_input_loop
    {| sym_value := λ _, 0; bool_value := λ _, true; array_value := λ _ _, 0;
       inverse_value := λ size _, Some (Z.of_N size) |}
    [call_with_input (lit "0xa9059cbb")] 0 [256%N; 512%N] None
  = Some (512, 512%N).
Proof. vm_compute. reflexivity. Qed.

(* ===================================================================== *)
(** ** pretty_print_model *)
(* ===================================================================== *)

Example pretty_print_model_sample :
  pretty_print_model sample_decls
  = lit "call_value1: 0xff" ++ [newline] ++ lit "balance: [0]" ++ [newline]
    ++ lit "c: True" ++ [newline].
Proof. reflexivity. Qed.

(** A negative numeral is printed with the sign after the prefix, as "%x"
    writes it; [int] does not read that back. *)
Example pretty_print_model_negative :
  pretty_print_model [{| decl_name := lit "x"; decl_value := Numeral (-5) |}]
    = lit "x: 0x-5" ++ [newline] ∧
  int16 (lit "0x-5") = None.
Proof. split; reflexivity. Qed.

Lemma pretty_print_model_from model ret :
  fold_left (λ ret d,
      match decl_value d with
      | FuncInterp condition =>
          ret ++ (decl_name d ++ lit ": " ++ condition ++ [newline])
      | Numeral value =>
          let condition := lit "0x" ++ fmt_x value in
          ret ++ (decl_name d ++ lit ": " ++ condition ++ [newline])
      | Expression simplified =>
          let condition := simplified in
          ret ++ (decl_name d ++ lit ": " ++ condition ++ [newline])
      end) model ret
  = ret ++ concat (map (λ d, decl_name d ++ lit ": " ++ condition_of (decl_value d)
                             ++ [newline]) model).
Proof.
  revert ret. induction model as [|d model IH]; intros ret; simpl.
  - by rewrite app_nil_r.
  - rewrite IH. destruct (decl_value d); simpl; by rewrite <- !app_assoc.
Qed.

Lemma pretty_print_model_concat model :
  pretty_print_model model
  = concat (map (λ d, decl_name d ++ lit ": " ++ condition_of (decl_value d) ++ [newline])
              model).
Proof. unfold pretty_print_model. by rewrite pretty_print_model_from. Qed.

Lemma fmt_x_chars v : Forall (λ c, is_hex_digit c = true ∨ c = "-"%char) (fmt_x v).
Proof.
  destruct v as [|p|p].
  - repeat constructor.
  - destruct (fmt_x_digits (Z.pos p)) as (_ & Hhex & _); [lia|].
    eapply Forall_impl; [done|]. by left.
  - unfold fmt_x. cbn [Z.ltb Z.compare].
    change (hex (Z.neg p)) with (lit "-0x" ++ lit (HexString.Raw.of_pos p "")).
    change (drop 3 (lit "-0x" ++ ?x)) with x.
    constructor; [by right|].
    eapply Forall_impl; [apply of_pos_hex_string; constructor|]. by left.
Qed.

Lemma condition_one_line d : one_line d → newline ∉ condition_of (decl_value d).
Proof.
  intros [_ H]. destruct (decl_value d) as [s|v|s]; simpl; try done.
  intros Hin.
  apply elem_of_cons in Hin as [Hin|Hin]; [done|].
  apply elem_of_cons in Hin as [Hin|Hin]; [done|].
  pose proof (fmt_x_chars v) as Hall.
  eapply Forall_forall in Hall; [|done]. by destruct Hall.
Qed.

Lemma count_newline_app s t :
  length (filter (λ c, c = newline) (s ++ t))
  = (length (filter (λ c, c = newline) s) + length (filter (λ c, c = newline) t))%nat.
Proof. by rewrite filter_app, length_app. Qed.

Lemma count_newline_none s : newline ∉ s → length (filter (λ c, c = newline) s) = 0%nat.
Proof.
  induction s as [|c s IH]; intros Hnin; [done|].
  rewrite filter_cons_False; [|intros ->; apply Hnin; by left].
  apply IH. intros Hin. apply Hnin. by right.
Qed.

(** X6. The text has one line for each declaration, in the order of the
    declarations: when no name and no printed function or expression holds a
    line break, the text has as many line breaks as the model has
    declarations, and the text of a model in two parts is the text of the
    first part followed by the text of the second. *)
Theorem pretty_print_model_lines model rest :
  Forall one_line model →
  length (filter (λ c, c = newline) (pretty_print_model model)) = length model ∧
  pretty_print_model (model ++ rest) = pretty_print_model model ++ pretty_print_model rest.
Proof.
  intros Hall. split.
  - rewrite pretty_print_model_concat.
    induction Hall as [|d model Hd Hall IH]; [done|].
    cbn [map concat length]. rewrite !count_newline_app, IH.
    rewrite (count_newline_none (decl_name d)) by apply Hd.
    rewrite (count_newline_none (condition_of (decl_value d))) by by apply condition_one_line.
    done.
  - rewrite !pretty_print_model_concat. by rewrite map_app, concat_app.
Qed.

(** X7. The line of a numeral: the name, a colon and a blank, and "0x" with the
    digits of the number; for a number that is not negative [int(text, 16)]
    reads the number back. *)
Theorem pretty_print_model_numeral before d v after :
  decl_value d = Numeral v →
  0 ≤ v →
  ∃ condition,
    pretty_print_model (before ++ d :: after)
      = pretty_print_model before
        ++ (decl_name d ++ lit ": " ++ condition ++ [newline])
        ++ pretty_print_model after ∧
    condition = hex v ∧
    int16 condition = Some v.
Proof.
  intros Hd Hv. exists (hex v). split; [|split; [done|apply int16_hex_roundtrip]].
  rewrite !pretty_print_model_concat, map_app, concat_app. cbn [map concat].
  rewrite Hd. cbn [condition_of].
  by destruct (fmt_x_digits v Hv) as (<- & _).
Qed.

Lemma pretty_print_model_lines_witness :
  Forall one_line sample_decls ∧
  length (filter (λ c, c = newline) (pretty_print_model sample_decls)) = 3%nat.
Proof.
  assert (Forall one_line sample_decls) as Hall.
  { repeat (apply Forall_cons; split; [split; [|try exact I]|]);
      try apply Forall_nil_2;
      cbn; intros Hin; repeat (apply elem_of_cons in Hin as [Hin|Hin]; [discriminate Hin|]);
      by apply elem_of_nil in Hin. }
  split; [exact Hall|].
  exact (proj1 (pretty_print_model_lines sample_decls [] Hall)).
Defined.

Lemma pretty_print_model_numeral_witness :
  ∃ condition,
    pretty_print_model sample_decls
      = lit "call_value1: " ++ condition ++ [newline] ++ lit "balance: [0]" ++ [newline]
        ++ lit "c: True" ++ [newline] ∧
    int16 condition = Some 255.
Proof.
  destruct (pretty_print_model_numeral []
              {| decl_name := lit "call_value1"; decl_value := Numeral 255 |} 255
              [{| decl_name := lit "balance"; decl_value := FuncInterp (lit "[0]") |};
               {| decl_name := lit "c"; decl_value := Expression (lit "True") |}]
              eq_refl) as (condition & Htext & Hcond & Hread); [lia|].
  exists condition. split; [|exact Hread].
  rewrite Hcond in *. exact Htext.
Defined.

(* ===================================================================== *)
(** ** A callee without a concrete address *)
(* ===================================================================== *)

Lemma get_concrete_transaction_raises model tx e :
  _get_concrete_transaction model tx = Raise e →
  e = TypeError ∧ bv_value (address (callee_account tx)) = None.
Proof.
  unfold _get_concrete_transaction.
  destruct (bv_value _); [by destruct (kind tx)|]. by intros [= <-].
Qed.

Lemma map_result_raises {A B : Type} (f : A → result B) l a x :
  (∀ b e, f b = Raise e → e = x) → a ∈ l → f a = Raise x →
  map_result f l = Raise x.
Proof.
  intros Honly Hin Ha. induction l as [|h l IH]; [by apply elem_of_nil in Hin|].
  simpl. unfold mbind, result_bind.
  destruct (f h) as [b|e] eqn:Hh.
  - apply elem_of_cons in Hin as [->|Hin]; [by rewrite Ha in Hh|].
    by rewrite (IH Hin).
  - by rewrite (Honly h e Hh).
Qed.

Section symbolic_callee.

Variable z3_check : Optimize → CheckSatResult.
Variable z3_model : Optimize → Model.
Variable hash_matcher : str.
Variable store_function : list N.
Variable concrete_keccak : Z → N → Z.

(** X11. A transaction whose callee has no concrete address makes the extraction
    fail: [hex] of the missing value raises [TypeError], which nothing
    catches. The constraints are solved first, so the extraction raises
    [UnsatError] when [get_model] does and [TypeError] otherwise; it never
    returns a sequence. *)
Theorem get_transaction_sequence_symbolic_callee gs r st tx :
  tx ∈ transaction_sequence gs →
  bv_value (address (callee_account tx)) = None →
  let run := get_transaction_sequence z3_check z3_model hash_matcher store_function
               concrete_keccak gs r st in
  fst run = Raise UnsatError ∨ fst run = Raise TypeError.
Proof.
  intros Hin Hcallee run. subst run. rewrite get_transaction_sequence_solving.
  assert (∀ model, extract hash_matcher store_function concrete_keccak gs model
                   = Raise TypeError) as Hex.
  { intros model. unfold extract.
    destruct (transaction_sequence gs) as [|first rest] eqn:Hts;
      [by apply elem_of_nil in Hin|].
    rewrite (map_result_raises (_get_concrete_transaction model) (first :: rest) tx TypeError);
      [done| |done|].
    - intros b e Hb. by apply get_concrete_transaction_raises in Hb as [-> _].
    - unfold _get_concrete_transaction. by rewrite Hcallee. }
  destruct (cached_cases z3_check z3_model
              (solver_call gs (default [] (constraints_store st !! r)))
              (solving_state gs r st))
    as [(m & _ & ->)|[(_ & Hb & _)|(cs & mi & ma & e & _ & _ & [->|(_ & _ & ->)])]].
  - right. by rewrite Hex.
  - by rewrite solver_call_binds in Hb.
  - by left.
  - destruct (z3_check _); simpl; [|by left|by left]. right. by rewrite Hex.
Qed.

End symbolic_callee.

Lemma get_transaction_sequence_symbolic_callee_witness :
  let run := get_transaction_sequence (tries zero_model) (gives zero_model) marker one_width
               Keccak.concrete_keccak symbolic_callee_state 0 one_object_state in
  symbolic_callee_transaction ∈ transaction_sequence symbolic_callee_state ∧
  bv_value (address (callee_account symbolic_callee_transaction)) = None ∧
  (fst run = Raise UnsatError ∨ fst run = Raise TypeError).
Proof.
  assert (symbolic_callee_transaction ∈ transaction_sequence symbolic_callee_state) as Hin.
  { apply elem_of_cons. right. apply list_elem_of_singleton. reflexivity. }
  split; [exact Hin|]. split; [reflexivity|].
  exact (get_transaction_sequence_symbolic_callee (tries zero_model) (gives zero_model) marker
           one_width Keccak.concrete_keccak symbolic_callee_state 0 one_object_state
           symbolic_callee_transaction Hin eq_refl).
Defined.

Example get_transaction_sequence_symbolic_callee_sample :
  let run := get_transaction_sequence (tries zero_model) (gives zero_model) marker one_width
               Keccak.concrete_keccak symbolic_callee_state 0 one_object_state in
  fst run = Raise TypeError ∧ length (solver_calls (snd run)) = 1%nat.
Proof. vm_compute. split; reflexivity. Qed.

(** The table keys a call by the way its arguments are passed: the same
    constraints passed by keyword are solved again. *)
Example get_model_keyword_call_solved_again :
  let by_keyword :=
    {| args := [];
       kwds := [("constraints"%string, VConstraints [SmtBool (BoolSym "c"); PyBool true])] |} in
  let st1 := snd (get_model (answers sat) (gives zero_model) symbol_call (fresh_state 60000)) in
  let st2 := snd (get_model (answers sat) (gives zero_model) by_keyword st1) in
  bind_args by_keyword = bind_args symbol_call ∧
  length (solver_calls st1) = 1%nat ∧ length (solver_calls st2) = 2%nat.
Proof. vm_compute. repeat split; reflexivity. Qed.

(* ===================================================================== *)
(** ** What the resolver raises and what it leaves alone *)
(* ===================================================================== *)

Lemma fold_result_raises {A S : Type} (x : exn) (body : S → A → result S) l s e :
  (∀ s a e, body s a = Raise e → e = x) →
  fold_result body l s = Raise e → e = x.
Proof.
  intros Honly. revert s. induction l as [|a l IH]; intros s; simpl; [done|].
  unfold mbind, result_bind. destruct (body s a) as [s1|e1] eqn:Hb.
  - apply IH.
  - intros [= <-]. by eapply Honly.
Qed.

Section resolver_best_effort.

Variable hash_matcher : str.
Variable store_function : list N.
Variable concrete_keccak : Z → N → Z.
Variable model : Model.

(** The only exception of a turn is the [ValueError] of [int]. *)
Lemma window_raises k s_index txs i e :
  window_step hash_matcher store_function concrete_keccak model k s_index txs i = Raise e →
  e = ValueError.
Proof.
  unfold window_step. destruct (txs !! k) as [tx|]; [|done].
  destruct (negb _ || negb _); [done|].
  destruct (int16 _) as [n|]; [|by intros [= <-]].
  by destruct (find_input_loop _ _ _ _ _).
Qed.

Lemma one_tx_raises code txs k e :
  tx_step hash_matcher store_function concrete_keccak model code txs k = Raise e →
  e = ValueError.
Proof.
  unfold tx_step. destruct (txs !! k) as [tx|]; [|done].
  destruct (negb _); [done|].
  apply fold_result_raises. intros s i e'. apply window_raises.
Qed.

Lemma resolver_raises txs code e :
  _replace_with_actual_sha hash_matcher store_function concrete_keccak model txs code
    = Raise e → e = ValueError.
Proof.
  unfold _replace_with_actual_sha. apply fold_result_raises.
  intros s k e'. apply one_tx_raises.
Qed.

(** A turn for a window without a candidate changes nothing. *)
Lemma window_unresolved k s_index txs i tx n :
  txs !! k = Some tx →
  int16 (slice i (i + 64) (c_input tx)) = Some n →
  (∀ size, size ∈ store_function → inverse_value model size (n mod 2 ^ 256) = None) →
  window_step hash_matcher store_function concrete_keccak model k s_index txs i = Ok txs.
Proof.
  intros Hk Hn Hnone. unfold window_step. rewrite Hk, Hn.
  destruct (negb _ || negb _); [done|].
  by rewrite find_input_loop_none.
Qed.

(** The turn of a transaction without a candidate changes nothing. *)
Lemma one_tx_unresolved code txs k tx txs' :
  tx_step hash_matcher store_function concrete_keccak model code txs k = Ok txs' →
  txs !! k = Some tx →
  unresolved hash_matcher store_function model code tx →
  txs' = txs.
Proof.
  intros H Hk Hun. unfold tx_step in H. rewrite Hk in H.
  destruct (contains hash_matcher (c_input tx)) eqn:Hc; [|by injection H]. simpl in H.
  fold (search_offset code (c_input tx)) in H. revert H.
  apply (fold_result_inv (λ s, s = txs)
           (λ i, i ∈ range_step (search_offset code (c_input tx))
                       (length (c_input tx)) 64)); [|by apply Forall_forall|done].
  intros s i s' -> Hi Hw.
  destruct (is_marker_window hash_matcher (c_input tx) i) eqn:Hmark.
  - assert (i ∈ marker_windows hash_matcher code tx) as Hin.
    { unfold marker_windows. rewrite Hc. by apply list_elem_of_filter. }
    destruct (int16 (slice i (i + 64) (c_input tx))) as [n|] eqn:Hn.
    + rewrite (window_unresolved k _ txs i tx n Hk Hn) in Hw by (by eapply Hun).
      by injection Hw.
    + unfold window_step in Hw. rewrite Hk, Hn in Hw.
      unfold is_marker_window in Hmark. apply andb_true_iff in Hmark as [H1 H2].
      rewrite H1, H2 in Hw. done.
  - unfold window_step in Hw. rewrite Hk in Hw.
    unfold is_marker_window in Hmark. apply andb_false_iff in Hmark.
    destruct Hmark as [Hm|Hm]; rewrite Hm in Hw; simpl in Hw;
      [|rewrite orb_true_r in Hw]; by injection Hw.
Qed.

(** The transaction loop from position [k] on, for a transaction without a
    candidate. *)
Lemma resolver_unresolved_from code m : ∀ k l l',
  fold_result (tx_step hash_matcher store_function concrete_keccak model code) (seq k m) l
    = Ok l' →
  ∀ j tx, l !! j = Some tx → unresolved hash_matcher store_function model code tx →
          l' !! j = Some tx.
Proof.
  induction m as [|m IH]; intros k l l' H j tx Hj Hun.
  - by injection H as <-.
  - cbn [seq fold_result] in H. unfold mbind, result_bind in H.
    destruct (tx_step _ _ _ _ _ l k) as [l1|e] eqn:Hstep; [|done].
    apply (IH (S k) l1 l' H j tx); [|done].
    destruct (decide (j = k)) as [->|Hne].
    + by rewrite (one_tx_unresolved code l k tx l1 Hstep Hj Hun).
    + destruct (l !! k) as [txk|] eqn:Hk.
      * destruct (one_tx_layout hash_matcher store_function concrete_keccak model
                    code l k l1 txk Hstep Hk) as (tx1 & -> & _).
        rewrite list_lookup_insert_ne by done. done.
      * unfold tx_step in Hstep. rewrite Hk in Hstep. by injection Hstep as <-.
Qed.

(** C8, as the code has it. The resolver raises on no list whose inputs
    are hexadecimal: it returns as many transactions as it was given. On any
    list the one exception that can escape is the [ValueError] of [int] on a
    marker window that is no hexadecimal numeral, and then some input is not
    hexadecimal. A width at which the evaluation fails is passed over and the
    search goes on: that failure never escapes. When no registered width
    gives a candidate for a marker window, the turn that examines the window
    leaves every transaction as it was; a transaction none of whose marker
    windows has a candidate comes back from the whole run as it was, whatever
    is done to the others; and the whole list comes back as it was when no
    width gives a value for any digest. *)
Theorem replace_with_actual_sha_best_effort txs code :
  (∀ e,
     _replace_with_actual_sha hash_matcher store_function concrete_keccak model txs code
       = Raise e →
     e = ValueError ∧ ¬ Forall hex_input txs) ∧
  (Forall hex_input txs →
   ∃ txs', _replace_with_actual_sha hash_matcher store_function concrete_keccak model txs code
             = Ok txs' ∧ length txs' = length txs) ∧
  (∀ digest size rest input_,
      inverse_value model size digest = None →
      find_input_loop model txs digest (size :: rest) input_
        = find_input_loop model txs digest rest input_) ∧
  (∀ k s_index i tx n,
      txs !! k = Some tx →
      is_marker_window hash_matcher (c_input tx) i = true →
      int16 (slice i (i + 64) (c_input tx)) = Some n →
      (∀ size, size ∈ store_function → inverse_value model size (n mod 2 ^ 256) = None) →
      window_step hash_matcher store_function concrete_keccak model k s_index txs i
        = Ok txs) ∧
  (∀ txs' k tx,
      _replace_with_actual_sha hash_matcher store_function concrete_keccak model txs code
        = Ok txs' →
      txs !! k = Some tx →
      unresolved hash_matcher store_function model code tx →
      txs' !! k = Some tx) ∧
  (Forall hex_input txs →
   (∀ size digest, size ∈ store_function → inverse_value model size digest = None) →
   _replace_with_actual_sha hash_matcher store_function concrete_keccak model txs code
     = Ok txs).
Proof.
  assert (Forall hex_input txs →
          ∃ txs', _replace_with_actual_sha hash_matcher store_function concrete_keccak model
                    txs code = Ok txs' ∧ length txs' = length txs) as Htotal.
  { intros Hall.
    destruct (resolver_total hash_matcher store_function concrete_keccak model txs code Hall)
      as (txs' & Hrun & _).
    exists txs'. split; [done|].
    apply resolver_keeps_fields in Hrun. apply (f_equal length) in Hrun.
    by rewrite !length_map in Hrun. }
  assert (∀ txs' k tx,
    _replace_with_actual_sha hash_matcher store_function concrete_keccak model txs code
      = Ok txs' →
    txs !! k = Some tx →
    unresolved hash_matcher store_function model code tx →
    txs' !! k = Some tx) as Hkept.
  { intros txs' k tx Hrun Hk Hun. unfold _replace_with_actual_sha in Hrun.
    by apply (resolver_unresolved_from code _ _ _ _ Hrun k tx). }
  split; [|split; [done|split; [|split; [|split; [done|]]]]].
  - intros e Hraise. split; [by eapply resolver_raises|].
    intros Hall. destruct (Htotal Hall) as (txs' & Hrun & _). by rewrite Hrun in Hraise.
  - intros digest size rest input_ Hnone. by apply find_input_loop_skip.
  - intros k s_index i tx n Hk _ Hn Hnone. by eapply window_unresolved.
  - intros Hall Hnone. destruct (Htotal Hall) as (txs' & Hrun & Hlen).
    rewrite Hrun. f_equal. apply list_eq. intros k.
    destruct (txs !! k) as [tx|] eqn:Hk.
    + apply (Hkept txs' k tx Hrun Hk). intros i n _ _ size Hsize. by apply Hnone.
    + apply lookup_ge_None. apply lookup_ge_None in Hk. lia.
Qed.

End resolver_best_effort.

(** *** The resolver on lists it fails on *)

(** C8: the claim fails, twice. An input that is no hexadecimal string makes
    [int] raise [ValueError] on the marker window, and nothing catches it.
    And, in a call of two words that both hold the marker, the first window
    has no candidate (the model gives the inverse no value at its number),
    yet its last ten characters are rewritten: the text of the second
    window, which has a candidate, occurs first across the end of the first
    window, and [str.replace] writes the digest there. *)
Lemma replace_with_actual_sha_best_effort_counterexample :
  let run := λ m txs, _replace_with_actual_sha marker one_width Keccak.concrete_keccak
                        m txs None in
  let digest := lit "290decd9548b62a8d60345a988386fc84ba6bc95484008f6362f93160ef3e563" in
  let out := lit "0xa9059cbb" ++ repeat "0"%char 54 ++ digest ++ lit "fffffff00f" in
  run inverse_zero_model
      [call_with_input (lit "0xa9059cbb" ++ lit "fffffff" ++ repeat "g"%char 57)]
    = Raise ValueError ∧
  Forall hex_input [call_with_input shadowed_input] ∧
  is_marker_window marker shadowed_input 10 = true ∧
  int16 (slice 10 74 shadowed_input) = Some 0xf00fffffff ∧
  inverse_value second_word_model 256 (0xf00fffffff mod 2 ^ 256) = None ∧
  find_input_loop second_word_model [call_with_input shadowed_input]
    (0xf00fffffff mod 2 ^ 256) one_width None = None ∧
  run second_word_model [call_with_input shadowed_input] = Ok [call_with_input out] ∧
  slice 10 74 shadowed_input = repeat "0"%char 54 ++ lit "f00fffffff" ∧
  slice 10 74 out = repeat "0"%char 54 ++ lit "290decd954".
Proof.
  split; [vm_compute; reflexivity|]. split.
  { apply Forall_cons. split; [|apply Forall_nil_2].
    apply hex_string_forallb. vm_compute. reflexivity. }
  vm_compute. repeat split; reflexivity.
Qed.

Lemma marker_input_unresolved :
  unresolved marker one_width second_word_model None (call_with_input marker_input).
Proof.
  intros i n Hi Hn size Hsize.
  assert (marker_windows marker None (call_with_input marker_input) = [10%nat]) as Hwindows
    by (vm_compute; reflexivity).
  rewrite Hwindows in Hi. apply list_elem_of_singleton in Hi as ->.
  assert (int16 (slice 10 (10 + 64) (c_input (call_with_input marker_input)))
          = Some (2 ^ 256 - 1)) as Hread by (vm_compute; reflexivity).
  rewrite Hread in Hn. injection Hn as <-.
  apply list_elem_of_singleton in Hsize as ->. vm_compute. reflexivity.
Qed.

Lemma replace_with_actual_sha_best_effort_witness :
  let txs := [call_with_input marker_input;
              call_with_input (lit "0xa9059cbb" ++ period_ten_word)] in
  let resolved :=
    lit "0xa9059cbb290decd9548b62a8d60345a988386fc84ba6bc95484008f6362f93160ef3e563" in
  Forall hex_input txs ∧
  unresolved marker one_width second_word_model None (call_with_input marker_input) ∧
  ∃ txs',
    _replace_with_actual_sha marker one_width Keccak.concrete_keccak second_word_model
      txs None = Ok txs' ∧
    length txs' = length txs ∧
    txs' !! 0%nat = Some (call_with_input marker_input) ∧
    txs' !! 1%nat = Some (call_with_input resolved).
Proof.
  intros txs resolved.
  assert (Forall hex_input txs) as Hhex.
  { apply Forall_cons. split; [|apply Forall_cons; split; [|apply Forall_nil_2]];
      apply hex_string_forallb; vm_compute; reflexivity. }
  destruct (replace_with_actual_sha_best_effort marker one_width Keccak.concrete_keccak
              second_word_model txs None) as (_ & Hreturns & _ & _ & Hkept & _).
  destruct (Hreturns Hhex) as (txs' & Hrun & Hlen).
  split; [exact Hhex|]. split; [exact marker_input_unresolved|].
  exists txs'. split; [exact Hrun|]. split; [exact Hlen|]. split.
  - exact (Hkept txs' 0%nat (call_with_input marker_input) Hrun eq_refl
             marker_input_unresolved).
  - assert (_replace_with_actual_sha marker one_width Keccak.concrete_keccak
              second_word_model txs None
            = Ok [call_with_input marker_input; call_with_input resolved]) as Hvalue
      by (vm_compute; reflexivity).
    rewrite Hvalue in Hrun. injection Hrun as <-. reflexivity.
Defined.
